(** * hf_bot: change detection, pagination, context aggregation, duel sessions

    A shallow embedding of the parts of the hf_bot package that carry its
    engineering core, and the properties of them that the design document
    states:

    - [Models]      models.py: derivative-model detection;
    - [HuggingFace] clients/huggingface.py: cursor pagination, image extraction;
    - [Monitoring]  monitoring.py: one poll cycle ([poll_once]);
    - [State]       state.py: [load_state];
    - [Handlers]    handlers.py: the classify/assemble half of
                    [_gather_context], and the duel session handlers;
    - [ModelCard]   models.py: [ModelInfo] and its text for the language model;
    - [StateQueries] state.py: [get_example_models];
    - [Tracking]    handlers.py: [track_user];
    - [PlainText]   the tag-stripping fallback of [_safe_send] and [_safe_edit];
    - [HubSearch]   clients/huggingface.py: [search_models];
    - [QuestionBank] handlers.py and app.py: the bank of duel questions.

    The definitions come first, module by module as the package has
    them; the facts and the statements of the design document follow in
    the modules [PyStrFacts], [ModelsFacts], [MonitoringFacts],
    [MonitoringSpec], [PaginateSpec], [StateSpec], [GatherSpec] and
    [DuelSpec], and further properties of the code in the modules after
    these. What lies outside the package is taken as given: the
    HTTP upstream is a state machine of any kind, the regular-expression
    engine is the function [findall] where its matches do not matter,
    and the language model is the value it returns.

    Strings are Python [str] values written as UTF-8 byte strings; substring,
    prefix and suffix tests on them agree with the tests on code points. *)

From Stdlib Require Import Ascii String.
From stdpp Require Import gmap strings list fin_maps pretty.

Local Open Scope string_scope.
Local Open Scope list_scope.
Local Open Scope nat_scope.

(* ===================================================================== *)
(** ** Python string helpers *)
(* ===================================================================== *)

Module PyStr.

(** [c.lower()] on an ASCII character: [A-Z] go to [a-z]. *)
Definition lower_char (c : ascii) : ascii :=
  let n := nat_of_ascii c in
  if (65 <=? n)%nat && (n <=? 90)%nat then ascii_of_nat (n + 32) else c.

(** [s.lower()]. Every test made here on a lowered string compares it
    with ASCII text, so the function has to be exact on the ASCII
    characters of the result only. Outside ASCII, two code points lower to
    text with an ASCII letter in it: U+212A (Kelvin sign, bytes 226 132 170)
    to [k], and U+0130 (bytes 196 176) to [i] followed by U+0307 (bytes
    204 135); all others lower to non-ASCII text and their bytes are kept. *)
Fixpoint lower (s : string) : string :=
  match s with
  | EmptyString => EmptyString
  | String "226" (String "132" (String "170" s')) => String "k" (lower s')
  | String "196" (String "176" s') =>
      String "i" (String "204" (String "135" (lower s')))
  | String c s' => String (lower_char c) (lower s')
  end.

(** [s.startswith(p)] *)
Fixpoint startswith (s p : string) : bool :=
  match p, s with
  | EmptyString, _ => true
  | String _ _, EmptyString => false
  | String a p', String b s' => if Ascii.eqb a b then startswith s' p' else false
  end.

(** [s.endswith(suf)]: [s] is [suf], or the tail of [s] ends with [suf]. *)
Fixpoint endswith (s suf : string) : bool :=
  if String.eqb s suf then true
  else match s with
       | EmptyString => false
       | String _ s' => endswith s' suf
       end.

(** [sub in s] *)
Fixpoint contains (s sub : string) : bool :=
  if startswith s sub then true
  else match s with
       | EmptyString => false
       | String _ s' => contains s' sub
       end.

(** [s.split(sep, 1)[-1]] for a one-character separator: the text after
    the first [sep], or all of [s] when [sep] does not occur. *)
Fixpoint after_first (sep : ascii) (s : string) : option string :=
  match s with
  | EmptyString => None
  | String c s' => if Ascii.eqb c sep then Some s' else after_first sep s'
  end.

Definition split1_last (sep : ascii) (s : string) : string :=
  match after_first sep s with
  | Some rest => rest
  | None => s
  end.

(** [s.split(sep)[0]]: the text before the first [sep]. *)
Fixpoint before_first (sep : ascii) (s : string) : string :=
  match s with
  | EmptyString => EmptyString
  | String c s' => if Ascii.eqb c sep then EmptyString else String c (before_first sep s')
  end.

(** [p] taken off the front of [s], when [s] starts with [p]. *)
Fixpoint drop_prefix (p s : string) : option string :=
  match p, s with
  | EmptyString, _ => Some s
  | String _ _, EmptyString => None
  | String a p', String b s' => if Ascii.eqb a b then drop_prefix p' s' else None
  end.

(** [suf] taken off the end of [s], when [s] ends with [suf]. *)
Fixpoint drop_suffix (suf s : string) : option string :=
  if String.eqb s suf then Some EmptyString
  else match s with
       | EmptyString => None
       | String c s' => String c <$> drop_suffix suf s'
       end.

Definition bytes (l : list nat) : string :=
  string_of_list_ascii (ascii_of_nat <$> l).

(** The code points for which [str.isspace()] holds, the ones [str.strip()]
    removes, in UTF-8: U+0009..U+000D, U+001C..U+0020, U+0085, U+00A0,
    U+1680, U+2000..U+200A, U+2028, U+2029, U+202F, U+205F, U+3000. *)
Definition WHITESPACE : list string :=
  (bytes <$> [ [9]; [10]; [11]; [12]; [13]; [28]; [29]; [30]; [31]; [32] ])
  ++ (bytes <$> [ [194; 133]; [194; 160]; [225; 154; 128] ])
  ++ ((λ b, bytes [226; 128; b]) <$> seq 128 11)
  ++ (bytes <$> [ [226; 128; 168]; [226; 128; 169]; [226; 128; 175];
                  [226; 129; 159]; [227; 128; 128] ]).

(** The first successful removal among the candidates. *)
Fixpoint first_some {A} (f : string → option A) (cands : list string) : option A :=
  match cands with
  | [] => None
  | c :: cands' => match f c with
                   | Some r => Some r
                   | None => first_some f cands'
                   end
  end.

Fixpoint lstrip_loop (fuel : nat) (s : string) : string :=
  match fuel with
  | O => s
  | S fuel' => match first_some (λ w, drop_prefix w s) WHITESPACE with
               | Some s' => lstrip_loop fuel' s'
               | None => s
               end
  end.

Fixpoint rstrip_loop (fuel : nat) (s : string) : string :=
  match fuel with
  | O => s
  | S fuel' => match first_some (λ w, drop_suffix w s) WHITESPACE with
               | Some s' => rstrip_loop fuel' s'
               | None => s
               end
  end.

(** [s.strip()]. Each removal shortens the string, so its length is fuel
    enough. *)
Definition strip (s : string) : string :=
  let s1 := lstrip_loop (String.length s) s in
  rstrip_loop (String.length s1) s1.

(** [s.lstrip(chars)]: leading characters that occur in [chars] go. *)
Fixpoint lstrip_chars (chars : list ascii) (s : string) : string :=
  match s with
  | EmptyString => EmptyString
  | String c s' => if bool_decide (c ∈ chars) then lstrip_chars chars s' else s
  end.

(** [sep.join(parts)] *)
Fixpoint join (sep : string) (parts : list string) : string :=
  match parts with
  | [] => EmptyString
  | [p] => p
  | p :: rest => p +:+ sep +:+ join sep rest
  end.

(** The run of characters up to the first [stop], and the rest from
    [stop] on. *)
Fixpoint span_until (stop : ascii) (s : string) : string * string :=
  match s with
  | EmptyString => (EmptyString, EmptyString)
  | String c s' =>
      if Ascii.eqb c stop then (EmptyString, s)
      else let '(run, rest) := span_until stop s' in (String c run, rest)
  end.

(** The double quote. *)
Definition DQUOTE : ascii := ascii_of_nat 34.

(** The line feed, and the separator of context blocks. *)
Definition LF : ascii := ascii_of_nat 10.
Definition BLANK_LINE : string := String LF (String LF EmptyString).

(** The loop
<<
    seen = set(); unique = []
    for x in xs:
        k = key(x)
        if k not in seen: seen.add(k); unique.append(x)
>>
    that the package writes three times. *)
Fixpoint unique_by {A} (key : A → string) (seen : gset string) (unique : list A)
    (xs : list A) : list A :=
  match xs with
  | [] => unique
  | x :: rest =>
      if decide (key x ∈ seen) then unique_by key seen unique rest
      else unique_by key ({[key x]} ∪ seen) (unique ++ [x]) rest
  end.

End PyStr.

(* ===================================================================== *)
(** ** models.py *)
(* ===================================================================== *)

Module Models.
Import PyStr.

Definition DERIVATIVE_SUFFIXES : list string :=
  [ "-gguf"; "-fp8"; "-fp4"; "-bf16"; "-int4"; "-int8";
    "-awq"; "-gptq"; "-nvfp4"; "-onnx";
    "-base"; "-pretrain"; "-original";
    "-eagle"; "-unquantized" ].

(** [name.endswith(DERIVATIVE_SUFFIXES)] with a tuple argument: some
    member is a suffix. *)
Definition endswith_any (name : string) (sufs : list string) : bool :=
  existsb (endswith name) sufs.

Definition is_derivative_model (model_id : string) : bool :=
  let name := lower (split1_last "/" model_id) in
  endswith_any name DERIVATIVE_SUFFIXES.

End Models.

(* ===================================================================== *)
(** ** clients/huggingface.py *)
(* ===================================================================== *)

Module HuggingFace.
Import PyStr.

Definition _HF_API : string := "https://huggingface.co/api/models".
Definition _PAGE_SIZE : nat := 1000.
Definition DEFAULT_MAX_PAGES : nat := 50.

(** One object of a listing page, with the keys the client reads. *)
Record raw_item := {
  modelId : option string;
  raw_id : option string;
  _id : option string;
  lastModified : option string
}.

(** The body and the [Link] header of one response. *)
Record response := { batch : list raw_item; link_header : string }.

(** One request of the loop and what came back; [None] stands for an
    exception out of [session.get], [raise_for_status] or [resp.json]. *)
Record exchange := {
  req_url : string;
  req_params : option (list (string * string));
  reply : option response
}.

(** What [_paginate] did: the requests it made, in order, and its result,
    [None] when an exception left the function. *)
Record paginate_run := {
  exchanges : list exchange;
  returned : option (list raw_item)
}.

(** The text [rel="next"]. *)
Definition REL_NEXT : string :=
  "rel=" +:+ String DQUOTE ("next" +:+ String DQUOTE EmptyString).

(** [_LINK_NEXT_RE = <([^>]+)>;\s*rel="next"] tried at the start of [s]:
    a [<], the longest run without [>] (not empty, group 1), [>;], any
    white space, and [REL_NEXT]. No step of it has a choice, so there is
    nothing to backtrack to. *)
Definition match_link_next (s : string) : option string :=
  match s with
  | String "<" s1 =>
      let '(group1, s2) := span_until ">" s1 in
      match group1, drop_prefix ">;" s2 with
      | String _ _, Some s3 =>
          if startswith (lstrip_loop (String.length s3) s3) REL_NEXT
          then Some group1 else None
      | _, _ => None
      end
  | _ => None
  end.

(** [_LINK_NEXT_RE.search(header)], giving [match.group(1)]: the match at
    the leftmost position that has one. *)
Fixpoint link_next (header : string) : option string :=
  match match_link_next header with
  | Some url => Some url
  | None => match header with
            | EmptyString => None
            | String _ header' => link_next header'
            end
  end.

(** Python's [a or b] on optional strings: the first that is neither
    [None] nor empty. *)
Definition truthy (o : option string) : bool :=
  match o with
  | Some (String _ _) => true
  | _ => false
  end.

Definition py_or (a b : option string) : option string :=
  if truthy a then a else b.

Section Paginate.

(** The upstream, as a machine of any state space that answers every
    request; a request that hangs is cut by the session time-out and
    answers with an exception. *)
Context {upstream : Type}.
Variable get : upstream → string → option (list (string * string))
               → option response * upstream.

(** [for _ in range(max_pages)], with the loop variables [url],
    [current_params] and [all_items]; [log] is not a variable of the
    source, it keeps the requests made for the statements about them. *)
Fixpoint paginate_loop (pages_left : nat) (srv : upstream) (url : string)
    (current_params : option (list (string * string)))
    (all_items : list raw_item) (log : list exchange) : paginate_run :=
  match pages_left with
  | O => {| exchanges := log; returned := Some all_items |}
  | S pages_left' =>
      let '(resp, srv') := get srv url current_params in
      let log' := log ++ [ {| req_url := url; req_params := current_params;
                              reply := resp |} ] in
      match resp with
      | None => {| exchanges := log'; returned := None |}
      | Some r =>
          match batch r with
          | [] => {| exchanges := log'; returned := Some all_items |}
          | _ :: _ =>
              let all_items' := all_items ++ batch r in
              if (length (batch r) <? _PAGE_SIZE)%nat
              then {| exchanges := log'; returned := Some all_items' |}
              else match link_next (link_header r) with
                   | None => {| exchanges := log'; returned := Some all_items' |}
                   | Some next =>
                       paginate_loop pages_left' srv' next None all_items' log'
                   end
          end
      end
  end.

Definition _paginate (srv : upstream) (params : list (string * string))
    (max_pages : nat) : paginate_run :=
  paginate_loop max_pages srv _HF_API (Some params) [] [].

(** The exchange after which the loop leaves: an exception, an empty
    page, a page shorter than the page size, or a header without a next
    link. *)
Definition is_last (e : exchange) : bool :=
  match reply e with
  | None => true
  | Some r =>
      bool_decide (batch r = [])
      || (length (batch r) <? _PAGE_SIZE)%nat
      || bool_decide (link_next (link_header r) = None)
  end.

(** The items of the pages received. *)
Definition received (log : list exchange) : list raw_item :=
  flat_map (λ e, from_option batch [] (reply e)) log.

(** An upstream that answers every request with a page of exactly the
    page size and a next link. *)
Definition always_full : Prop :=
  ∀ s url p, ∃ r, (get s url p).1 = Some r
                  ∧ length (batch r) = _PAGE_SIZE
                  ∧ is_Some (link_next (link_header r)).

End Paginate.

(** One entry of the list that [fetch_models_for_org] returns. *)
Record item := { id : string; last_modified : string }.

Definition fetch_models_for_org {upstream : Type}
    (get : upstream → string → option (list (string * string))
           → option response * upstream)
    (srv : upstream) (org : string) : option (list item) :=
  let params := [ ("author", org); ("sort", "lastModified");
                  ("direction", "-1"); ("limit", "1000") ] in
  match returned (_paginate get srv params DEFAULT_MAX_PAGES) with
  | None => None
  | Some raw =>
      Some ((λ it, {| id := default "" (py_or (modelId it)
                                          (py_or (raw_id it)
                                             (Some (default "" (_id it)))));
                      last_modified := default "" (lastModified it) |})
            <$> filter (λ it, truthy (py_or (modelId it)
                                        (py_or (raw_id it) (_id it))) = true) raw)
  end.

(** *** Image extraction *)

Inductive img_pattern := MarkdownImage | HtmlImgTag.

Definition _IMG_PATTERNS : list img_pattern := [MarkdownImage; HtmlImgTag].

Definition DECORATIVE : list string :=
  [ "badge"; "shield"; "icon"; ".svg"; "logo" ].

Definition _RELEVANT_IMG_KW : list string :=
  [ "benchmark"; "performance"; "comparison"; "chart"; "graph";
    "result"; "eval"; "score"; "accuracy"; "metrics"; "leaderboard"; "table" ].

(** [any(s in url.lower() for s in words)] *)
Definition mentions (words : list string) (url : string) : bool :=
  existsb (contains (lower url)) words.

(** The first loop of [_extract_images], over the regex matches. *)
Fixpoint normalize (model_id : string) (raw : list string) : list string :=
  match raw with
  | [] => []
  | url :: rest =>
      let url := strip url in
      if mentions DECORATIVE url then normalize model_id rest
      else
        let url :=
          if startswith url "http" then url
          else "https://huggingface.co/" +:+ model_id +:+ "/resolve/main/"
               +:+ lstrip_chars ["."%char; "/"%char] url in
        url :: normalize model_id rest
  end.

(** Everything of [_extract_images] after [raw] is collected. *)
Definition prioritise (raw : list string) (model_id : string)
    (max_images : nat) : list string :=
  let normalized := normalize model_id raw in
  let relevant := filter (λ url, mentions _RELEVANT_IMG_KW url = true) normalized in
  let others := filter (λ url, mentions _RELEVANT_IMG_KW url = false) normalized in
  let unique := unique_by (λ url, url) ∅ [] (relevant ++ others) in
  take max_images unique.

(** [_extract_images]; [findall pat readme] is [pat.findall(readme)] of
    the regular-expression engine. *)
Definition _extract_images (findall : img_pattern → string → list string)
    (readme model_id : string) (max_images : nat) : list string :=
  let raw := flat_map (λ pat, findall pat readme) _IMG_PATTERNS in
  prioritise raw model_id max_images.

(** *** What the statements speak of *)

(** An upstream that never stops: every page is full and links on. *)
Definition full_page : response :=
  {| batch := replicate _PAGE_SIZE
                {| modelId := Some "org/m"; raw_id := None; _id := None;
                   lastModified := None |};
     link_header := "<https://huggingface.co/api/models?cursor=n>; " +:+ REL_NEXT |}.

Definition endless (n : nat) (url : string) (p : option (list (string * string)))
    : option response * nat :=
  (Some full_page, S n).

(** An upstream with 2001 models: two full pages, then a page of one
    item; and one that fails on the second request. *)
Definition three_pages (n : nat) (url : string)
    (p : option (list (string * string))) : option response * nat :=
  (Some (if (n <? 2)%nat then full_page
         else {| batch := take 1 (batch full_page); link_header := "" |}),
   S n).

Definition failing_second (n : nat) (url : string)
    (p : option (list (string * string))) : option response * nat :=
  (match n with O => Some full_page | S _ => None end, S n).

(** A relative path made absolute against the repository of the model. *)
Definition absolute (model_id url : string) : string :=
  if startswith url "http" then url
  else "https://huggingface.co/" +:+ model_id +:+ "/resolve/main/"
       +:+ lstrip_chars ["."%char; "/"%char] url.

(** What the regular expressions find in a README, by pattern order. *)
Definition raw_matches (findall : img_pattern → string → list string)
    (readme : string) : list string :=
  flat_map (λ pat, findall pat readme) _IMG_PATTERNS.

(** Two READMEs for the counterexample: each shows one image, the first
    a plain photo or the chart, the second the chart. [found url] is what
    the two patterns find in [![x](url)]. *)
Definition found (url : string) (pat : img_pattern) (readme : string) : list string :=
  match pat with
  | MarkdownImage => [url]
  | HtmlImgTag => []
  end.

Definition CHART : string := "https://x.org/benchmark.png".
Definition PHOTO : string := "https://x.org/photo.png".

End HuggingFace.

(* ===================================================================== *)
(** ** monitoring.py *)
(* ===================================================================== *)

Module Monitoring.
Import PyStr Models.
Export HuggingFace(item, id, last_modified).

Record user_info := { first_name : string; username : string }.
Record qa := { question : string; answer : string }.

(** The state document. [state["orgs"][org]] is a JSON object of which the
    poller reads and writes the key "models"; it is kept as a dictionary
    so that the truth test [not org_state] of the source (absent, or an
    object with no key) is the one made here. *)
Record state := {
  orgs : gmap string (gmap string (list string));
  chat_users : gmap string (gmap string user_info);
  question_bank : list qa
}.

(** [state["orgs"][org] = {"models": current_ids}] *)
Definition set_org (st : state) (org : string) (current_ids : list string) : state :=
  {| orgs := <[org := {["models" := current_ids]}]> (orgs st);
     chat_users := chat_users st;
     question_bank := question_bank st |}.

(** [org_state.get("models", [])] *)
Definition get_models (org_state : gmap string (list string)) : list string :=
  default [] (org_state !! "models").

(** What [hf.fetch_models_for_org(org)] did: returned a listing, or raised. *)
Inductive fetch_outcome :=
| Fetched (models : list item)
| FetchRaised.

(** The inner [_fetch]: an exception is logged and becomes the empty list. *)
Definition _fetch (org : string) (o : fetch_outcome) : string * list item :=
  match o with
  | Fetched models => (org, models)
  | FetchRaised => (org, [])
  end.

(** The deduplication loop: [unique_by] with [mid = m["id"]] as key and as
    the value appended to [current_ids]. *)
Definition dedup_ids (models : list item) : list string :=
  unique_by (λ mid, mid) ∅ [] (id <$> models).

(** The variables the loop over [results] carries: the state document
    (mutated in place), the calls of [_notify_new_model] made so far, as
    pairs (org, model id), and the flag [changed]. *)
Record poll_acc := {
  acc_state : state;
  acc_sent : list (string * string);
  acc_changed : bool
}.

(** The body of [for org, models in results]. *)
Definition poll_org (a : poll_acc) (r : string * list item) : poll_acc :=
  let '(org, models) := r in
  match models with
  | [] => a
  | _ :: _ =>
      let current_ids := dedup_ids models in
      (* first sync: no notifications *)
      let baseline :=
        {| acc_state := set_org (acc_state a) org current_ids;
           acc_sent := acc_sent a;
           acc_changed := true |} in
      match orgs (acc_state a) !! org with
      | None => baseline
      | Some org_state =>
          if decide (org_state = ∅) then baseline
          else
            let prev_set : gset string := list_to_set (get_models org_state) in
            let new_ids := filter (λ mid, mid ∉ prev_set) current_ids in
            match new_ids with
            | _ :: _ =>
                let main_models :=
                  filter (λ mid, is_derivative_model mid = false) new_ids in
                {| acc_state := set_org (acc_state a) org current_ids;
                   acc_sent := acc_sent a ++ ((λ mid, (org, mid)) <$> reverse main_models);
                   acc_changed := true |}
            | [] =>
                if decide (current_ids ≠ get_models org_state)
                then {| acc_state := set_org (acc_state a) org current_ids;
                        acc_sent := acc_sent a;
                        acc_changed := true |}
                else a
            end
      end
  end.

(** What one cycle does to the outside: the notifications, in the order
    they are sent, and then [save_state] when [changed] is set. *)
Inductive effect :=
| Notify (org model_id : string)
| SaveState (st : state).

(** [poll_once], from the in-memory state and, for every polled
    organisation, what its fetch did. *)
Definition poll_once (st : state) (fetches : list (string * fetch_outcome))
    : state * list effect :=
  let results := (λ r, _fetch r.1 r.2) <$> fetches in
  let a := foldl poll_org
             {| acc_state := st; acc_sent := []; acc_changed := false |} results in
  (acc_state a,
   ((λ n, Notify n.1 n.2) <$> acc_sent a)
   ++ (if acc_changed a then [SaveState (acc_state a)] else [])).

(** The model ids notified for [org], in sending order. *)
Definition notified_for (org : string) (effs : list effect) : list string :=
  omap (λ e, match e with
             | Notify o mid => if decide (o = org) then Some mid else None
             | SaveState _ => None
             end) effs.

Definition persisted (effs : list effect) : bool :=
  existsb (λ e, match e with SaveState _ => true | Notify _ _ => false end) effs.

(** *** What the statements speak of *)

(** The ids of a listing that are new against [prev] and are main
    releases, in listing order. *)
Definition main_new (prev current_ids : list string) : list string :=
  filter (λ mid, is_derivative_model mid = false)
         (filter (λ mid, mid ∉ prev) current_ids).

(** The listing that the loop sees for a fetch. *)
Definition listing (o : fetch_outcome) : list item :=
  match o with
  | Fetched models => models
  | FetchRaised => []
  end.

(** The truth test [org_state] of the source: there is a stored object
    and it has at least one key. *)
Definition has_state (st : state) (org : string) : bool :=
  match orgs st !! org with
  | Some org_state => bool_decide (org_state ≠ ∅)
  | None => false
  end.

(** [org_state.get("models", [])] of the stored object, [[]] without one. *)
Definition stored_models (st : state) (org : string) : list string :=
  from_option get_models [] (orgs st !! org).

Definition sent_for (org : string) (sent : list (string * string)) : list string :=
  omap (λ n, if decide (n.1 = org) then Some n.2 else None) sent.

#[global] Instance item_eq_dec : EqDecision item.
Proof. solve_decision. Defined.

#[global] Instance fetch_outcome_eq_dec : EqDecision fetch_outcome.
Proof. solve_decision. Defined.

(** A state with one organisation, and an empty one, for the examples. *)
Definition state_of (org : string) (ids : list string) : state :=
  {| orgs := {[ org := {[ "models" := ids ]} ]}; chat_users := ∅;
     question_bank := [] |}.

Definition empty_state : state :=
  {| orgs := ∅; chat_users := ∅; question_bank := [] |}.

Definition listing_of (ids : list string) : list item :=
  (λ mid, {| id := mid; last_modified := "" |}) <$> ids.

(** A list of ids "deduplicated", as the design document says it, written
    without the loop of the source: the first id stays where it is, and
    is taken out of the rest, which is deduplicated in the same way. *)
Fixpoint first_occurrences (ids : list string) : list string :=
  match ids with
  | [] => []
  | mid :: rest => mid :: filter (λ mid', mid' ≠ mid) (first_occurrences rest)
  end.

End Monitoring.

(* ===================================================================== *)
(** ** state.py *)
(* ===================================================================== *)

Module State.

#[local] Set Warnings "-register-all".

(** A parsed JSON document; an object keeps its members in insertion
    order, as a Python [dict] does. *)
Inductive json :=
| JNull
| JBool (b : bool)
| JNumber (literal : string)
| JString (s : string)
| JArray (items : list json)
| JObject (members : list (string * json)).

Definition _empty_state : json :=
  JObject [ ("orgs", JObject []); ("chat_users", JObject []);
            ("question_bank", JArray []) ].

(** The exception classes that opening and parsing a file can raise, with
    their base classes as Python defines them. *)
Inductive exc_class :=
| BaseException | Exception
| OSError | FileNotFoundError | PermissionError | IsADirectoryError
| ValueError | JSONDecodeError | UnicodeError | UnicodeDecodeError
| RuntimeError | RecursionError | MemoryError.

Definition base_class (c : exc_class) : option exc_class :=
  match c with
  | BaseException => None
  | Exception => Some BaseException
  | OSError | ValueError | RuntimeError | MemoryError => Some Exception
  | FileNotFoundError | PermissionError | IsADirectoryError => Some OSError
  | JSONDecodeError | UnicodeError => Some ValueError
  | UnicodeDecodeError => Some UnicodeError
  | RecursionError => Some RuntimeError
  end.

#[global] Instance exc_class_eq_dec : EqDecision exc_class.
Proof. solve_decision. Defined.

(** [issubclass(c, d)]; the hierarchy is four levels deep. *)
Fixpoint issubclass_upto (depth : nat) (c d : exc_class) : bool :=
  if decide (c = d) then true
  else match depth, base_class c with
       | S depth', Some b => issubclass_upto depth' b d
       | _, _ => false
       end.

Definition issubclass : exc_class → exc_class → bool := issubclass_upto 4.

(** What the body of the [try] did: [open] and [json.load] raised, or
    [json.load] returned the parsed document. *)
Inductive read_result :=
| Raises (e : exc_class)
| Parsed (data : json).

(** What a call gives its caller. *)
Inductive outcome (A : Type) :=
| Return (a : A)
| Propagate (e : exc_class).
Arguments Return {A} a.
Arguments Propagate {A} e.

Definition has_key (key : string) (d : list (string * json)) : bool :=
  existsb (λ kv, String.eqb kv.1 key) d.

(** [d.setdefault(key, default)], for its effect on [d]. *)
Definition setdefault (key : string) (dflt : json) (d : list (string * json))
    : list (string * json) :=
  if has_key key d then d else d ++ [(key, dflt)].

(** [d.get(key)] *)
Definition dict_get (key : string) (d : list (string * json)) : option json :=
  snd <$> find (λ kv, String.eqb kv.1 key) d.

Definition load_state (r : read_result) : outcome json :=
  match r with
  | Raises e =>
      if existsb (issubclass e) [FileNotFoundError; OSError; JSONDecodeError]
      then Return _empty_state
      else Propagate e
  | Parsed data =>
      match data with
      | JObject d =>
          let d := setdefault "orgs" (JObject []) d in
          let d := setdefault "chat_users" (JObject []) d in
          let d := setdefault "question_bank" (JArray []) d in
          Return (JObject d)
      | _ => Return _empty_state
      end
  end.

End State.

(* ===================================================================== *)
(** ** handlers.py *)
(* ===================================================================== *)

Module Handlers.
Import PyStr.

(** *** The context aggregator: awaiting and classifying the results *)

(** What [asyncio.gather(..., return_exceptions=True)] puts in the slot of
    a task: the value it returned, or the exception object it raised (a
    time-out is an exception like any other). *)
Inductive slot (A : Type) :=
| Returned (a : A)
| Raised.
Arguments Returned {A} a.
Arguments Raised {A}.

Inductive model_kind := KModel | KSearch.
Inductive url_kind := KUrl | KArxiv.

Section GatherContext.

(** A hit of the web search and [search_client.format_results]. *)
Context {hit : Type}.
Variable format_results : list hit → string.

(** A pair of [zip(tasks, results)]. The tag fixes the shape of the value:
    "model" and "search" tasks return [(text, imgs)], "url" and "arxiv"
    tasks a text or [None], the "web" task a list of hits. *)
Inductive task :=
| ModelTask (k : model_kind) (r : slot (option string * list string))
| UrlTask (k : url_kind) (r : slot (option string))
| WebTask (r : slot (list hit)).

(** The four lists the classification loop fills. *)
Record buckets := {
  models_data : list string;
  all_images : list string;
  search_results : list hit;
  url_contents : list string
}.

Definition no_buckets : buckets :=
  {| models_data := []; all_images := []; search_results := [];
     url_contents := [] |}.

(** Python's truth test on a text or [None]. *)
Definition nonempty (o : option string) : option string :=
  match o with
  | Some (String c s) => Some (String c s)
  | _ => None
  end.

(** The body of [for (task_type, _), result in zip(tasks, results)]. *)
Definition classify (b : buckets) (t : task) : buckets :=
  match t with
  | ModelTask _ Raised | UrlTask _ Raised | WebTask Raised => b
  | ModelTask _ (Returned (text, imgs)) =>
      {| models_data := match nonempty text with
                        | Some d => models_data b ++ [d]
                        | None => models_data b
                        end;
         all_images := match imgs with
                       | _ :: _ => all_images b ++ imgs
                       | [] => all_images b
                       end;
         search_results := search_results b;
         url_contents := url_contents b |}
  | WebTask (Returned result) =>
      {| models_data := models_data b; all_images := all_images b;
         search_results := result; url_contents := url_contents b |}
  | UrlTask _ (Returned result) =>
      match nonempty result with
      | Some text =>
          {| models_data := models_data b; all_images := all_images b;
             search_results := search_results b;
             url_contents := url_contents b ++ [text] |}
      | None => b
      end
  end.

Record _GatheredContext := {
  hf_context : option string;
  url_context : option string;
  web_context : option string;
  image_urls : list string
}.

(** "Assemble context strings". *)
Definition assemble (b : buckets) : _GatheredContext :=
  {| image_urls := take 3 (all_images b);
     hf_context :=
       match models_data b with
       | [] => None
       | _ :: _ =>
           let unique := unique_by (before_first LF) ∅ [] (models_data b) in
           Some (join BLANK_LINE (take 4 unique))
       end;
     url_context :=
       match url_contents b with
       | [] => None
       | _ :: _ => Some (join BLANK_LINE (url_contents b))
       end;
     web_context :=
       match search_results b with
       | [] => None
       | _ :: _ => Some (format_results (search_results b))
       end |}.

(** [_gather_context] from the point where the tasks are awaited. *)
Definition gather (tasks : list task) : _GatheredContext :=
  assemble (foldl classify no_buckets tasks).

Definition succeeded (t : task) : bool :=
  match t with
  | ModelTask _ Raised | UrlTask _ Raised | WebTask Raised => false
  | _ => true
  end.

(** The images a task hands to the aggregator. *)
Definition imgs_of (t : task) : list string :=
  match t with
  | ModelTask _ (Returned (_, imgs)) => imgs
  | _ => []
  end.

End GatherContext.

(** *** The duel session *)

Record battle := { question : string; answer : string; qtype : string }.

Inductive job := BattleReminder (chat_id : string) | BattleTimeout (chat_id : string).

#[global] Instance job_eq_dec : EqDecision job.
Proof. solve_decision. Defined.

(** The messages of the duel, by their kind. *)
Inductive message :=
| Checking
| Result (evaluation : string)
| NotEvaluated
| Reminder
| TimedOut.

(** [bot_data["battles"]], the pending jobs of the job queue, and the
    messages sent or edited so far, with their chat. *)
Record bot := {
  battles : gmap string battle;
  job_queue : list job;
  outbox : list (string * message)
}.

Definition send (chat_id : string) (m : message) (st : bot) : bot :=
  {| battles := battles st; job_queue := job_queue st;
     outbox := outbox st ++ [(chat_id, m)] |}.

(** [_battle_final_timeout], up to its only [await], the send. *)
Definition _battle_final_timeout (chat_id : string) (st : bot) : bot :=
  match battles st !! chat_id with
  | Some _ =>
      send chat_id TimedOut
        {| battles := delete chat_id (battles st); job_queue := job_queue st;
           outbox := outbox st |}
  | None => st
  end.

(** [_battle_reminder] to its [await]: the presence test and the nudge. *)
Definition _battle_reminder (chat_id : string) (st : bot) : option bot :=
  match battles st !! chat_id with
  | None => None
  | Some _ => Some (send chat_id Reminder st)
  end.

(** [_battle_reminder] after the [await]: the final time-out is queued. *)
Definition _battle_reminder_resume (chat_id : string) (st : bot) : bot :=
  {| battles := battles st;
     job_queue := job_queue st ++ [BattleTimeout chat_id];
     outbox := outbox st |}.

(** The battle branch of [handle_message] for a message that is not a
    reply: the session is read, and [_handle_battle_evaluate] runs to its
    first [await]. Gives the session the coroutine holds from here on. *)
Definition evaluate_begin (chat_id : string) (st : bot) : option (battle * bot) :=
  match battles st !! chat_id with
  | Some b => Some (b, send chat_id Checking st)
  | None => None
  end.

(** [_handle_battle_evaluate] from the return of [evaluate_battle_answer]
    on: the session is cleared, the jobs of both names are removed, the
    verdict replaces the placeholder. [evaluation] is [None] or empty when
    the language model gave nothing. *)
Definition evaluate_finish (chat_id : string) (evaluation : option string)
    (st : bot) : bot :=
  let battles' :=
    match battles st !! chat_id with
    | Some _ => delete chat_id (battles st)
    | None => battles st
    end in
  let jobs' :=
    filter (λ j, j ≠ BattleReminder chat_id ∧ j ≠ BattleTimeout chat_id)
           (job_queue st) in
  send chat_id
    match evaluation with
    | Some (String c s) => Result (String c s)
    | _ => NotEvaluated
    end
    {| battles := battles'; job_queue := jobs'; outbox := outbox st |}.

(** The bot, the update being handled (the application handles one
    update at a time; here the chat and the session that
    [_handle_battle_evaluate] holds while it awaits the language model),
    and the chats whose reminder awaits its send. Jobs run as tasks of
    their own, beside the update being handled. *)
Record world := {
  the_bot : bot;
  evaluating : option (string * battle);
  reminding : list string
}.

(** The steps the scheduler interleaves: a queued job firing, the send
    of a reminder returning, a message that is not a reply reaching the
    battle branch, the evaluation of the held session coming back. *)
Inductive step :=
| Fire (j : job)
| ReminderSent (chat_id : string)
| MessageArrives (chat_id : string)
| EvaluationDone (chat_id : string) (evaluation : option string).

(** The scheduler runs a job only while it is queued, and takes it off
    the queue. *)
Definition fire (j : job) (w : world) : world :=
  if bool_decide (j ∈ job_queue (the_bot w)) then
    let st := {| battles := battles (the_bot w);
                 job_queue := filter (λ j', j' ≠ j) (job_queue (the_bot w));
                 outbox := outbox (the_bot w) |} in
    match j with
    | BattleReminder chat_id =>
        match _battle_reminder chat_id st with
        | Some st' => {| the_bot := st'; evaluating := evaluating w;
                         reminding := reminding w ++ [chat_id] |}
        | None => {| the_bot := st; evaluating := evaluating w;
                     reminding := reminding w |}
        end
    | BattleTimeout chat_id =>
        {| the_bot := _battle_final_timeout chat_id st;
           evaluating := evaluating w; reminding := reminding w |}
    end
  else w.

Definition run_step (w : world) (s : step) : world :=
  match s with
  | Fire j => fire j w
  | ReminderSent chat_id =>
      if bool_decide (chat_id ∈ reminding w) then
        {| the_bot := _battle_reminder_resume chat_id (the_bot w);
           evaluating := evaluating w;
           reminding := list_difference (reminding w) [chat_id] |}
      else w
  | MessageArrives chat_id =>
      match evaluating w, evaluate_begin chat_id (the_bot w) with
      | None, Some (b, st') =>
          {| the_bot := st'; evaluating := Some (chat_id, b);
             reminding := reminding w |}
      | _, _ => w
      end
  | EvaluationDone chat_id evaluation =>
      match evaluating w with
      | Some (c, _) =>
          if decide (c = chat_id) then
            {| the_bot := evaluate_finish chat_id evaluation (the_bot w);
               evaluating := None; reminding := reminding w |}
          else w
      | None => w
      end
  end.

Definition run (w : world) (steps : list step) : world := foldl run_step w steps.

(** The verdicts and the time-out notices a chat got. *)
Definition is_result (m : message) : bool :=
  match m with
  | Result _ | NotEvaluated => true
  | _ => false
  end.

Definition is_timeout (m : message) : bool :=
  match m with
  | TimedOut => true
  | _ => false
  end.

Definition messages_in (chat_id : string) (st : bot) : list message :=
  snd <$> filter (λ cm, cm.1 = chat_id) (outbox st).

Definition results_in (chat_id : string) (st : bot) : list message :=
  filter (λ m, is_result m = true) (messages_in chat_id st).

Definition timeouts_in (chat_id : string) (st : bot) : list message :=
  filter (λ m, is_timeout m = true) (messages_in chat_id st).

(** *** What the statements speak of *)

Definition readme_task (url model_id : string) : @task unit :=
  ModelTask KModel
    (Returned (Some ("=== " +:+ model_id +:+ " ==="),
               HuggingFace._extract_images (HuggingFace.found url)
                 ("![x](" +:+ url +:+ ")") model_id 3)).

(** A chat in the second minute of a duel: the session is there, the
    reminder has fired and queued the final time-out, nothing was sent
    that matters here, no update is being handled. *)
Definition awaiting_answer (chat_id : string) (b : battle) : world :=
  {| the_bot := {| battles := {[ chat_id := b ]};
                   job_queue := [BattleTimeout chat_id];
                   outbox := [] |};
     evaluating := None;
     reminding := [] |}.

(** A chat in the first minute of a duel, as [cmd_battle] leaves it. *)
Definition just_started (chat_id : string) (b : battle) : world :=
  {| the_bot := {| battles := {[ chat_id := b ]};
                   job_queue := [BattleReminder chat_id];
                   outbox := [] |};
     evaluating := None;
     reminding := [] |}.

(** The verdict message for what the language model gave. *)
Definition verdict (evaluation : option string) : message :=
  match evaluation with
  | Some (String c s) => Result (String c s)
  | _ => NotEvaluated
  end.

Definition bot_of (bs : gmap string battle) (jobs : list job)
    (out : list (string * message)) : bot :=
  {| battles := bs; job_queue := jobs; outbox := out |}.

End Handlers.

(* ===================================================================== *)
(** ** models.py: the model card *)
(* ===================================================================== *)

Module ModelCard.
Import PyStr.
Export HuggingFace(truthy, py_or).

(** The object the API gives for one model, with the keys [from_api]
    reads; [None] is a key that is missing. *)
Record api_object := {
  data_modelId : option string;
  data_id : option string;
  data__id : option string;
  data_downloads : option N;
  data_likes : option N;
  data_tags : option (list string);
  data_pipeline_tag : option string;
  data_lastModified : option string;
  data_private : option bool;
  data_library_name : option string;
  data_safetensors : option State.json
}.

Record ModelInfo := {
  id : string;
  author : string;
  name : string;
  downloads : N;
  likes : N;
  tags : list string;
  pipeline_tag : option string;
  last_modified : string;
  private : bool;
  library_name : option string;
  safetensors : option State.json
}.

Definition url (m : ModelInfo) : string := "https://huggingface.co/" +:+ id m.

(** [model_id.partition("/")], its first and last parts. *)
Definition partition_slash (model_id : string) : string * string :=
  (before_first "/" model_id, default "" (after_first "/" model_id)).

Definition from_api (data : api_object) : ModelInfo :=
  let model_id :=
    default "" (py_or (data_modelId data)
                  (py_or (data_id data) (py_or (data__id data) (Some "")))) in
  let '(author0, name0) := partition_slash model_id in
  let '(author1, name1) :=
    match name0 with
    | EmptyString => ("", model_id)
    | String _ _ => (author0, name0)
    end in
  {| id := model_id;
     author := author1;
     name := name1;
     downloads := default 0%N (data_downloads data);
     likes := default 0%N (data_likes data);
     tags := default [] (data_tags data);
     pipeline_tag := data_pipeline_tag data;
     last_modified := default "" (data_lastModified data);
     private := default false (data_private data);
     library_name := data_library_name data;
     safetensors := data_safetensors data |}.

(** The set [skip] of [useful_tags]; its last two members are [None]
    when the model has no pipeline tag or no library name. *)
Definition skip (m : ModelInfo) : list (option string) :=
  [ Some "transformers"; Some "pytorch"; Some "safetensors";
    pipeline_tag m; library_name m ].

Definition useful_tags (m : ModelInfo) (limit : nat) : list string :=
  take limit
    (filter (λ t, (startswith t "license:" || startswith t "arxiv:") = false
                  ∧ Some t ∉ skip m)
            (tags m)).

(** [f"{n:,}"] for a number that is not negative: its decimal digits, a
    comma before every group of three counted from the right. The
    digits come in with the last one first. *)
Fixpoint group_thousands (rev_digits : list ascii) : list ascii :=
  match rev_digits with
  | a :: b :: c :: rest =>
      match rest with
      | [] => [a; b; c]
      | _ :: _ => a :: b :: c :: ","%char :: group_thousands rest
      end
  | _ => rev_digits
  end.

Definition format_thousands (n : N) : string :=
  string_of_list_ascii
    (rev (group_thousands (rev (list_ascii_of_string (pretty n))))).

(** A byte of the form 10xxxxxx continues a code point. *)
Definition is_continuation (c : ascii) : bool :=
  let n := nat_of_ascii c in (128 <=? n)%nat && (n <? 192)%nat.

(** [s[:n]]: the first [n] code points. *)
Fixpoint take_chars (n : nat) (s : string) : string :=
  match s with
  | EmptyString => EmptyString
  | String c s' =>
      if is_continuation c then String c (take_chars n s')
      else match n with
           | O => EmptyString
           | S n' => String c (take_chars n' s')
           end
  end.

(** The first line of [to_context]. *)
Definition header (model_id : string) (with_readme : bool) : string :=
  if with_readme then "=== " +:+ model_id +:+ " ===" else "ID: " +:+ model_id.

Definition to_context (m : ModelInfo) (readme : option string) : string :=
  let lines :=
    [ header (id m) (truthy readme);
      "URL: " +:+ url m;
      "Downloads: " +:+ format_thousands (downloads m);
      "Likes: " +:+ format_thousands (likes m) ] in
  let lines :=
    if truthy (pipeline_tag m)
    then lines ++ ["Task: " +:+ default "" (pipeline_tag m)] else lines in
  let lines :=
    if truthy (library_name m)
    then lines ++ ["Library: " +:+ default "" (library_name m)] else lines in
  let useful := useful_tags m (if truthy readme then 8 else 10) in
  let lines :=
    match useful with
    | _ :: _ => lines ++ ["Tags: " +:+ join ", " useful]
    | [] => lines
    end in
  let lines :=
    if negb (truthy readme) && negb (String.eqb (last_modified m) "")
    then lines ++ ["Last modified: " +:+ take_chars 10 (last_modified m)]
    else lines in
  let lines :=
    if truthy readme
    then lines ++ [""; "--- README/Model Card ---"; default "" readme]
    else lines in
  join (String LF EmptyString) lines.

End ModelCard.

(* ===================================================================== *)
(** ** state.py: the example models *)
(* ===================================================================== *)

Module StateQueries.
Import PyStr Models Monitoring.

Definition DEFAULT_ORGS : list string :=
  ["Qwen"; "deepseek-ai"; "mistralai"; "meta-llama"].

(** The loop over [models] with its [break]: the first id whose name
    does not end with a derivative suffix. *)
Definition first_main (models : list string) : option string :=
  find (λ m, negb (endswith_any (lower (split1_last "/" m)) DERIVATIVE_SUFFIXES))
       models.

(** [get_example_models(state, orgs)]; [orgs] is [None] when the caller
    leaves it out. *)
Definition get_example_models (st : state) (orgs : option (list string))
    : gmap string string :=
  let orgs := match orgs with
              | Some (o :: os) => o :: os
              | _ => DEFAULT_ORGS
              end in
  foldl (λ examples org,
           match first_main (stored_models st org) with
           | Some m => <[org := m]> examples
           | None => examples
           end) ∅ orgs.

End StateQueries.

(* ===================================================================== *)
(** ** handlers.py: the user directory *)
(* ===================================================================== *)

Module Tracking.
Import PyStr Monitoring.

(** [update.message.from_user], with [str(user.id)] for the id. *)
Record user := {
  uid : string;
  user_first_name : string;
  user_username : option string;
  is_bot : bool
}.

(** [update.message], with [str(chat_id)] for the chat. *)
Record update_message := { cid : string; from_user : option user }.

(** The name given to a user without a first name, in UTF-8. *)
Definition ANONYMOUS : string :=
  bytes [208; 144; 208; 189; 208; 190; 208; 189; 208; 184; 208; 188].

#[global] Instance user_info_eq_dec : EqDecision user_info.
Proof. solve_decision. Defined.

Definition info_of (u : user) : user_info :=
  {| first_name := match user_first_name u with
                   | EmptyString => ANONYMOUS
                   | String c s => String c s
                   end;
     username := default "" (user_username u) |}.

(** [track_user]. [bot_data["chat_users"]] is the object that
    [state["chat_users"]] holds, so the handler writes into the state
    document; [settings] tells whether [bot_data] has settings. *)
Definition track_user (settings : bool) (st : state) (upd : option update_message)
    : state * list effect :=
  match upd with
  | Some {| cid := cid; from_user := Some u |} =>
      if is_bot u then (st, [])
      else
        (* users = chat_users.setdefault(cid, {}) *)
        let users := default ∅ (chat_users st !! cid) in
        let st1 := {| orgs := orgs st;
                      chat_users := match chat_users st !! cid with
                                    | Some _ => chat_users st
                                    | None => <[cid := ∅]> (chat_users st)
                                    end;
                      question_bank := question_bank st |} in
        if decide (users !! uid u = Some (info_of u)) then (st1, [])
        else
          let st2 := {| orgs := orgs st;
                        chat_users := <[cid := <[uid u := info_of u]> users]>
                                        (chat_users st1);
                        question_bank := question_bank st |} in
          (st2, if settings then [SaveState st2] else [])
  | _ => (st, [])
  end.

(** The entry of a user in a chat. *)
Definition entry (st : state) (cid uid : string) : option user_info :=
  chat_users st !! cid ≫= (.!! uid).

End Tracking.

(* ===================================================================== *)
(** ** The plain-text fallback of [_safe_send] and [_safe_edit] *)
(* ===================================================================== *)

Module PlainText.
Import PyStr.

(** The pattern [<[^>]+>] tried at the start of [s]: a [<], the longest
    run without [>], which must not be empty, and a [>]. Gives the text
    after the match. *)
Definition match_tag (s : string) : option string :=
  match s with
  | String "<" s1 =>
      match span_until ">" s1 with
      | (String _ _, String _ rest) => Some rest
      | _ => None
      end
  | _ => None
  end.

(** [re.sub(r"<[^>]+>", "", text)]: from the left, a match is dropped
    and the scan goes on behind it; elsewhere one character is kept. *)
Fixpoint sub_tags (fuel : nat) (s : string) : string :=
  match fuel with
  | O => s
  | S fuel' =>
      match match_tag s with
      | Some rest => sub_tags fuel' rest
      | None => match s with
                | EmptyString => EmptyString
                | String c s' => String c (sub_tags fuel' s')
                end
      end
  end.

(** Every step consumes a character, so the length is fuel enough. *)
Definition strip_tags (text : string) : string :=
  sub_tags (String.length text) text.

(** No [<] in the text is followed by a character other than [>] and,
    further on, by a [>]: the pattern has no match in it. *)
Definition tag_free (t : string) : Prop :=
  ∀ pre rest, t = pre +:+ "<" +:+ rest →
              startswith rest ">" = true ∨ contains rest ">" = false.

End PlainText.

(* ===================================================================== *)
(** ** handlers.py: what a duel can still send *)
(* ===================================================================== *)

Module Duel.
Import Handlers.

(** The chat has a session in [bot_data["battles"]]. *)
Definition session_open (chat_id : string) (w : world) : bool :=
  match battles (the_bot w) !! chat_id with
  | Some _ => true
  | None => false
  end.

(** [_handle_battle_evaluate] holds a session of the chat and awaits
    the language model. *)
Definition being_evaluated (chat_id : string) (w : world) : bool :=
  match evaluating w with
  | Some (c, _) => bool_decide (c = chat_id)
  | None => false
  end.

End Duel.

(* ===================================================================== *)
(** ** handlers.py: what the tasks hand to the aggregator *)
(* ===================================================================== *)

Module Gathered.
Import PyStr Handlers.

(** The text a "model" or "search" task hands over, when it returned
    one that is not empty. *)
Definition model_text {hit : Type} (t : @task hit) : option string :=
  match t with
  | ModelTask _ (Returned (text, _)) => nonempty text
  | _ => None
  end.

(** The text a "url" or "arxiv" task hands over. *)
Definition url_text {hit : Type} (t : @task hit) : option string :=
  match t with
  | UrlTask _ (Returned result) => nonempty result
  | _ => None
  end.

(** The hits the "web" task hands over, when it returned. *)
Definition web_hits {hit : Type} (t : @task hit) : option (list hit) :=
  match t with
  | WebTask (Returned result) => Some result
  | _ => None
  end.

(** A task that failed: an exception left it, so that its slot holds the
    exception, or its own handler caught the exception and returned the
    empty value: [_fetch_model] and [_search_and_fetch] return
    [(None, [])], [fetch_url_text] returns [None], [_do_web_search]
    returns [[]]. *)
Definition failed {hit : Type} (t : @task hit) : bool :=
  match t with
  | ModelTask _ Raised | UrlTask _ Raised | WebTask Raised => true
  | ModelTask _ (Returned (None, [])) => true
  | UrlTask _ (Returned None) => true
  | WebTask (Returned []) => true
  | _ => false
  end.

End Gathered.

(* ===================================================================== *)
(** ** clients/huggingface.py: the search *)
(* ===================================================================== *)

Module HubSearch.
Import ModelCard.

(** [search_models], from the reply of the request: the parsed body, or
    [None] when the request, the status check or the parsing raised. *)
Definition search_models (reply : option (list api_object)) : list ModelInfo :=
  match reply with
  | None => []
  | Some payload =>
      from_api
        <$> filter (λ item, truthy (py_or (data_modelId item) (data_id item)) = true)
                   payload
  end.

End HubSearch.

(* ===================================================================== *)
(** ** handlers.py and app.py: the question bank *)
(* ===================================================================== *)

Module QuestionBank.
Export Monitoring(qa).

(** The list [bot_data["question_bank"]], which is the list
    [state["question_bank"]]; the questions that [bank.pop(0)] has taken
    off it so far, in order; and the questions that [_pop_bank_question]
    has returned to its caller so far. *)
Record bank_world := { bank : list qa; taken : list qa; popped : list qa }.

(** [if questions: bank.extend(questions)] *)
Definition extend (questions : list qa) (w : bank_world) : bank_world :=
  match questions with
  | [] => w
  | _ :: _ => {| bank := bank w ++ questions; taken := taken w;
                 popped := popped w |}
  end.

(** How a call of [_pop_bank_question] ends: it returns a question, it
    returns [None], or the exception of [save_state] leaves it. *)
Inductive pop_outcome :=
| Gave (question : qa)
| GaveNone
| SaveRaised.

(** [_pop_bank_question] from the second [if not bank] on:
<<
    if not bank: return None
    question = bank.pop(0)
    if settings: save_state(state, settings.state_path)
    asyncio.create_task(_refill_bank(...))
    return question
>>
    [save_raises] tells that [save_state] was called and raised; no
    handler is around the call, so the exception leaves the function
    with the question taken off the bank and not returned. *)
Definition pop_finish (save_raises : bool) (w : bank_world)
    : bank_world * pop_outcome :=
  match bank w with
  | [] => (w, GaveNone)
  | question :: rest =>
      if save_raises
      then ({| bank := rest; taken := taken w ++ [question];
               popped := popped w |}, SaveRaised)
      else ({| bank := rest; taken := taken w ++ [question];
               popped := popped w ++ [question] |}, Gave question)
  end.

(** [_pop_bank_question] from its start: with an empty bank it awaits
    [generate_question_bank(count=10)], and gives [None] here; otherwise
    it runs to its end without an [await]. *)
Definition _pop_bank_question_enter (save_raises : bool) (w : bank_world)
    : option (bank_world * pop_outcome) :=
  match bank w with
  | [] => None
  | _ :: _ => Some (pop_finish save_raises w)
  end.

(** [_pop_bank_question] from the return of the language model on. *)
Definition _pop_bank_question_resume (questions : list qa)
    (save_raises : bool) (w : bank_world) : bank_world * pop_outcome :=
  pop_finish save_raises (extend questions w).

(** [_refill_bank] to its [await]: whether it asks for a question. *)
Definition _refill_bank_enter (w : bank_world) : bool :=
  negb (10 <=? length (bank w)).

(** [_refill_bank] after its [await]; its [save_state] is inside the
    [try], an exception of it is logged and the bank stays extended. *)
Definition _refill_bank_resume (new : list qa) (w : bank_world) : bank_world :=
  extend new w.

(** [_prefill_question_bank] to its [await]: the number of questions it
    asks for, [None] when it returns at once. *)
Definition _prefill_question_bank_enter (w : bank_world) : option nat :=
  let needed := 10 - length (bank w) in
  if (needed =? 0)%nat then None else Some needed.

(** [_prefill_question_bank] after its [await]; its [save_state] is
    inside the [try] as well. *)
Definition _prefill_question_bank_resume (questions : list qa) (w : bank_world)
    : bank_world :=
  extend questions w.

(** The segments that touch the bank, as the event loop may order them. *)
Inductive bank_step :=
| PopEnters (save_raises : bool)
| PopResumes (questions : list qa) (save_raises : bool)
| RefillResumes (new : list qa)
| PrefillResumes (questions : list qa).

Definition run_bank_step (w : bank_world) (s : bank_step) : bank_world :=
  match s with
  | PopEnters save_raises =>
      match _pop_bank_question_enter save_raises w with
      | Some (w', _) => w'
      | None => w
      end
  | PopResumes questions save_raises =>
      (_pop_bank_question_resume questions save_raises w).1
  | RefillResumes new => _refill_bank_resume new w
  | PrefillResumes questions => _prefill_question_bank_resume questions w
  end.

Definition run_bank (w : bank_world) (steps : list bank_step) : bank_world :=
  foldl run_bank_step w steps.

(** The questions the language model delivered in a step. *)
Definition delivered (s : bank_step) : list qa :=
  match s with
  | PopEnters _ => []
  | PopResumes questions _ | RefillResumes questions | PrefillResumes questions =>
      questions
  end.

(** Whether [save_state] raised in a step. *)
Definition save_raised (s : bank_step) : bool :=
  match s with
  | PopEnters save_raises | PopResumes _ save_raises => save_raises
  | RefillResumes _ | PrefillResumes _ => false
  end.

End QuestionBank.

(* ===================================================================== *)
(** ** Facts about the string helpers *)
(* ===================================================================== *)

Module PyStrFacts.
Import PyStr.

Lemma endswith_unfold s suf :
  endswith s suf =
  if String.eqb s suf then true
  else match s with
       | EmptyString => false
       | String _ s' => endswith s' suf
       end.
Proof. by destruct s. Qed.

(** [endswith] is the suffix relation. *)
Lemma endswith_spec s suf :
  endswith s suf = true ↔ ∃ pre, s = pre +:+ suf.
Proof.
  split.
  - induction s as [|c s IH]; rewrite endswith_unfold.
    + destruct (String.eqb_spec "" suf) as [<-|]; [|done].
      intros _. by exists "".
    + destruct (String.eqb_spec (String c s) suf) as [<-|Hne].
      * intros _. by exists "".
      * intros H. destruct (IH H) as [pre ->]. by exists (String c pre).
  - intros [pre ->]. induction pre as [|c pre IH]; rewrite endswith_unfold.
    + simpl. by rewrite String.eqb_refl.
    + destruct (String.eqb _ _); [done|exact IH].
Qed.

Lemma drop_prefix_length p s s' :
  drop_prefix p s = Some s' → String.length s = String.length p + String.length s'.
Proof.
  revert s. induction p as [|a p IH]; intros s; cbn.
  - by intros [= ->].
  - destruct s as [|b s]; [done|]. destruct (Ascii.eqb a b); [|done].
    intros H%IH. cbn. lia.
Qed.

Lemma drop_suffix_length suf s s' :
  drop_suffix suf s = Some s' → String.length s = String.length s' + String.length suf.
Proof.
  revert s'. induction s as [|c s IH]; intros s'.
  - cbn. destruct suf; [|done]. by intros [= <-].
  - cbn [drop_suffix]. destruct (String.eqb_spec (String c s) suf) as [<-|_].
    + by intros [= <-].
    + destruct (drop_suffix suf s) as [r|]; [|done]. cbn.
      intros [= <-]. cbn. by rewrite (IH r).
Qed.

Lemma first_some_elem {A} (f : string → option A) cands r :
  first_some f cands = Some r → ∃ c, c ∈ cands ∧ f c = Some r.
Proof.
  induction cands as [|c cands IH]; [done|]. cbn.
  destruct (f c) as [r'|] eqn:Hc.
  - intros [= <-]. exists c. split; [left|done].
  - intros (c' & Hin & Hf)%IH. exists c'. split; [by right|done].
Qed.

Lemma whitespace_nonempty w : w ∈ WHITESPACE → 0 < String.length w.
Proof.
  intros Hw. assert (Forall (λ w, 0 < String.length w) WHITESPACE) as Hall.
  { vm_compute. repeat constructor. }
  by eapply Forall_forall in Hall.
Qed.

(** The fuel of [lstrip_loop] is enough: what it returns starts with no
    white space. *)
Lemma lstrip_loop_done fuel s :
  String.length s ≤ fuel →
  first_some (λ w, drop_prefix w (lstrip_loop fuel s)) WHITESPACE = None.
Proof.
  revert s. induction fuel as [|fuel IH]; intros s Hlen.
  - destruct s; [|cbn in Hlen; lia]. by vm_compute.
  - cbn [lstrip_loop].
    destruct (first_some (λ w, drop_prefix w s) WHITESPACE) as [s'|] eqn:Hs; [|done].
    apply IH. apply first_some_elem in Hs as (w & Hw & Hd).
    apply drop_prefix_length in Hd. apply whitespace_nonempty in Hw. lia.
Qed.

Lemma rstrip_loop_done fuel s :
  String.length s ≤ fuel →
  first_some (λ w, drop_suffix w (rstrip_loop fuel s)) WHITESPACE = None.
Proof.
  revert s. induction fuel as [|fuel IH]; intros s Hlen.
  - destruct s; [|cbn in Hlen; lia]. by vm_compute.
  - cbn [rstrip_loop].
    destruct (first_some (λ w, drop_suffix w s) WHITESPACE) as [s'|] eqn:Hs; [|done].
    apply IH. apply first_some_elem in Hs as (w & Hw & Hd).
    apply drop_suffix_length in Hd. apply whitespace_nonempty in Hw. lia.
Qed.

Lemma strip_done s :
  first_some (λ w, drop_suffix w (strip s)) WHITESPACE = None.
Proof. by apply rstrip_loop_done. Qed.

Example lower_ascii : lower "Qwen3-8B-GGUF" = "qwen3-8b-gguf".
Proof. reflexivity. Qed.

Example lower_kelvin : lower (bytes [226; 132; 170]) = "k".
Proof. reflexivity. Qed.

Example strip_spaces : strip (bytes [32; 9; 97; 32; 98; 194; 160; 10]) = "a b".
Proof. reflexivity. Qed.

Example lstrip_dots : lstrip_chars ["."%char; "/"%char] "./../figs/a.png" = "figs/a.png".
Proof. reflexivity. Qed.

Example split_first_slash :
  split1_last "/" "a/b/c" = "b/c" ∧ split1_last "/" "abc" = "abc".
Proof. done. Qed.

Section UniqueBy.
Context {A : Type} (key : A → string).

Lemma unique_by_acc seen (u1 u2 xs : list A) :
  unique_by key seen (u1 ++ u2) xs = u1 ++ unique_by key seen u2 xs.
Proof.
  revert seen u2. induction xs as [|x xs IH]; intros seen u2; simpl; [done|].
  case_decide; [apply IH|]. rewrite <- app_assoc. apply IH.
Qed.

Lemma unique_by_cons seen x (xs : list A) :
  unique_by key seen [] (x :: xs) =
  if decide (key x ∈ seen) then unique_by key seen [] xs
  else x :: unique_by key ({[key x]} ∪ seen) [] xs.
Proof.
  simpl. case_decide; [done|].
  by rewrite (unique_by_acc _ [x] []).
Qed.

Lemma unique_by_sublist seen (xs : list A) :
  unique_by key seen [] xs `sublist_of` xs.
Proof.
  revert seen. induction xs as [|x xs IH]; intros seen.
  - done.
  - rewrite unique_by_cons. case_decide.
    + by apply sublist_cons.
    + by apply sublist_skip.
Qed.

Lemma unique_by_keys_fresh seen (xs : list A) y :
  y ∈ unique_by key seen [] xs → key y ∉ seen.
Proof.
  revert seen. induction xs as [|x xs IH]; intros seen.
  - by intros ?%elem_of_nil.
  - rewrite unique_by_cons. case_decide as Hx.
    + apply IH.
    + intros [->|Hy]%elem_of_cons; [done|].
      apply IH in Hy. intros Hs. apply Hy, elem_of_union. by right.
Qed.

Lemma unique_by_NoDup_keys seen (xs : list A) :
  NoDup (key <$> unique_by key seen [] xs).
Proof.
  revert seen. induction xs as [|x xs IH]; intros seen.
  - constructor.
  - rewrite unique_by_cons. case_decide as Hx; [apply IH|].
    rewrite fmap_cons. constructor; [|apply IH].
    intros (y & Hk & Hy)%list_elem_of_fmap.
    apply unique_by_keys_fresh in Hy. apply Hy, elem_of_union. left.
    rewrite Hk. by apply elem_of_singleton.
Qed.

Lemma unique_by_covers seen (xs : list A) x :
  x ∈ xs → key x ∉ seen → ∃ y, y ∈ unique_by key seen [] xs ∧ key y = key x.
Proof.
  revert seen. induction xs as [|x' xs IH]; intros seen.
  - by intros ?%elem_of_nil.
  - rewrite unique_by_cons. intros [->|Hin]%elem_of_cons Hfresh.
    + rewrite decide_False; [|done]. exists x'. split; [left|done].
    + case_decide as Hx'; [by apply IH|].
      destruct (decide (key x = key x')) as [Heq|Hne].
      * exists x'. split; [left|done].
      * destruct (IH ({[key x']} ∪ seen) Hin) as (y & Hy & Hk).
        { by intros [?%elem_of_singleton|?]%elem_of_union. }
        exists y. split; [by right|done].
Qed.

End UniqueBy.

Lemma unique_by_id_elem_of seen (xs : list string) x :
  x ∈ unique_by (λ s, s) seen [] xs ↔ x ∈ xs ∧ x ∉ seen.
Proof.
  split.
  - intros H. split.
    + eapply elem_of_sublist; [done|apply unique_by_sublist].
    + by apply (unique_by_keys_fresh (λ s, s)) in H.
  - intros [Hin Hfresh].
    destruct (unique_by_covers (λ s, s) seen xs x Hin Hfresh) as (y & Hy & ->).
    done.
Qed.

Lemma unique_by_id_NoDup seen (xs : list string) :
  NoDup (unique_by (λ s, s) seen [] xs).
Proof.
  pose proof (unique_by_NoDup_keys (λ s : string, s) seen xs) as H.
  by rewrite list_fmap_id in H.
Qed.

Lemma unique_by_id_fixed seen (xs : list string) :
  NoDup xs → (∀ x, x ∈ xs → x ∉ seen) →
  unique_by (λ s, s) seen [] xs = xs.
Proof.
  revert seen. induction xs as [|x xs IH]; intros seen Hnd Hfresh; [done|].
  rewrite unique_by_cons. apply NoDup_cons in Hnd as [Hx Hnd].
  rewrite decide_False by (apply Hfresh; left).
  f_equal. apply IH; [done|].
  intros y Hy. specialize (Hfresh y (list_elem_of_further _ _ _ Hy)).
  intros [->%elem_of_singleton|?]%elem_of_union; done.
Qed.

End PyStrFacts.

(* ===================================================================== *)
(** ** Facts about the classifier *)
(* ===================================================================== *)

Module ModelsFacts.
Import PyStr Models PyStrFacts.

(** A model is a derivative exactly when its name part, lowered, ends
    with one of the suffixes. *)
Lemma is_derivative_model_spec model_id :
  is_derivative_model model_id = true ↔
  ∃ suf pre, In suf DERIVATIVE_SUFFIXES
             ∧ lower (split1_last "/" model_id) = pre +:+ suf.
Proof.
  unfold is_derivative_model, endswith_any. rewrite existsb_exists. split.
  - intros (suf & Hin & Hend). apply endswith_spec in Hend as [pre Hpre]. eauto.
  - intros (suf & pre & Hin & Heq). exists suf. split; [done|].
    apply endswith_spec. eauto.
Qed.

Example derivative_gguf : is_derivative_model "org/model-gguf" = true.
Proof. reflexivity. Qed.

Example derivative_upper : is_derivative_model "Qwen/Qwen3-8B-GGUF" = true.
Proof. reflexivity. Qed.

Example derivative_org_only : is_derivative_model "x-gguf/model" = false.
Proof. reflexivity. Qed.

Example derivative_second_slash : is_derivative_model "a/b/c-FP8" = true.
Proof. reflexivity. Qed.

Example main_release : is_derivative_model "Qwen/Qwen3-8B" = false.
Proof. reflexivity. Qed.

End ModelsFacts.

(* ===================================================================== *)
(** ** Facts about the poll cycle *)
(* ===================================================================== *)

Module MonitoringFacts.
Import PyStr Models Monitoring PyStrFacts.

Lemma dedup_ids_elem_of models mid :
  mid ∈ dedup_ids models ↔ mid ∈ id <$> models.
Proof.
  unfold dedup_ids. rewrite unique_by_id_elem_of.
  split; [by intros [? _]|]. intros H. split; [done|apply not_elem_of_empty].
Qed.

Lemma dedup_ids_NoDup models : NoDup (dedup_ids models).
Proof. apply unique_by_id_NoDup. Qed.

Lemma dedup_ids_fixed models :
  NoDup (id <$> models) → dedup_ids models = id <$> models.
Proof.
  intros H. apply unique_by_id_fixed; [done|].
  intros x _. apply not_elem_of_empty.
Qed.

Lemma dedup_ids_nonempty m models : dedup_ids (m :: models) ≠ [].
Proof.
  intros H. assert (id m ∈ dedup_ids (m :: models)) as Hin.
  { apply dedup_ids_elem_of. rewrite fmap_cons. left. }
  rewrite H in Hin. by apply elem_of_nil in Hin.
Qed.

(** The loop of the source gives the deduplicated list of the design
    document; with ids already seen, it gives that list without them. *)
Lemma unique_by_first_occurrences (seen : gset string) (xs : list string) :
  unique_by (λ s, s) seen [] xs
  = filter (λ x, x ∉ seen) (first_occurrences xs).
Proof.
  revert seen. induction xs as [|x xs IH]; intros seen; [done|].
  rewrite unique_by_cons. cbn [first_occurrences].
  destruct (decide (x ∈ seen)) as [Hx|Hx].
  - rewrite filter_cons_False; [|by intros ?]. rewrite IH.
    symmetry. apply list_filter_filter_l. intros y Hy ->. by apply Hy.
  - rewrite filter_cons_True; [|done]. f_equal. rewrite IH.
    rewrite list_filter_filter. apply list_filter_iff. intros y. split.
    + intros Hy. split.
      * intros Hs. apply Hy, elem_of_union. by right.
      * intros ->. apply Hy, elem_of_union. left. by apply elem_of_singleton.
    + intros [Hs Hne] [->%elem_of_singleton|?]%elem_of_union; done.
Qed.

Lemma dedup_ids_first_occurrences models :
  dedup_ids models = first_occurrences (id <$> models).
Proof.
  unfold dedup_ids. rewrite unique_by_first_occurrences.
  induction (first_occurrences (id <$> models)) as [|x l IH]; [done|].
  rewrite filter_cons_True; [|apply not_elem_of_empty]. by rewrite IH.
Qed.

Lemma filter_prev_set (prev current_ids : list string) :
  filter (λ mid, mid ∉ (list_to_set prev : gset string)) current_ids
  = filter (λ mid, mid ∉ prev) current_ids.
Proof. apply list_filter_iff. intros x. by rewrite elem_of_list_to_set. Qed.

Lemma sent_for_app org s1 s2 :
  sent_for org (s1 ++ s2) = sent_for org s1 ++ sent_for org s2.
Proof. apply omap_app. Qed.

Lemma sent_for_same org (l : list string) :
  sent_for org ((λ mid, (org, mid)) <$> l) = l.
Proof.
  unfold sent_for. induction l as [|x l IH]; [done|].
  csimpl. rewrite decide_True; [|done]. by rewrite IH.
Qed.

Lemma sent_for_other org org' (l : list string) :
  org ≠ org' → sent_for org ((λ mid, (org', mid)) <$> l) = [].
Proof.
  intros Hne. unfold sent_for. induction l as [|x l IH]; [done|].
  csimpl. rewrite decide_False; [|done]. by rewrite IH.
Qed.

Lemma notified_for_sent org (sent : list (string * string)) tail :
  (∀ e, e ∈ tail → ∃ st, e = SaveState st) →
  notified_for org (((λ n, Notify n.1 n.2) <$> sent) ++ tail) = sent_for org sent.
Proof.
  intros Htail. unfold notified_for, sent_for. rewrite omap_app.
  assert (omap (λ e, match e with
                      | Notify o mid => if decide (o = org) then Some mid else None
                      | SaveState _ => None
                      end) tail = []) as ->.
  { induction tail as [|e tail IH]; [done|].
    destruct (Htail e) as [st ->]; [left|]. csimpl. apply IH.
    intros e' He'. apply Htail. by right. }
  rewrite app_nil_r. induction sent as [|[o m] sent IH]; [done|].
  csimpl. by rewrite IH.
Qed.

Lemma has_state_inv st org :
  has_state st org = true →
  ∃ os, orgs st !! org = Some os ∧ os ≠ ∅ ∧ stored_models st org = get_models os.
Proof.
  unfold has_state, stored_models. destruct (orgs st !! org) as [os|]; [|done].
  intros H%bool_decide_eq_true. by exists os.
Qed.

(** *** One step of the loop *)

Lemma poll_org_empty a org : poll_org a (org, []) = a.
Proof. done. Qed.

Lemma poll_org_baseline a org models :
  models ≠ [] → has_state (acc_state a) org = false →
  poll_org a (org, models) =
  {| acc_state := set_org (acc_state a) org (dedup_ids models);
     acc_sent := acc_sent a; acc_changed := true |}.
Proof.
  intros Hne Hno. destruct models as [|m models]; [done|].
  unfold poll_org. unfold has_state in Hno.
  destruct (orgs (acc_state a) !! org) as [os|] eqn:Hos; [|done].
  case_decide as Hem; [done|]. by rewrite bool_decide_eq_false in Hno.
Qed.

Lemma poll_org_known a org models os :
  models ≠ [] → orgs (acc_state a) !! org = Some os → os ≠ ∅ →
  poll_org a (org, models) =
  if decide (dedup_ids models = get_models os) then a
  else {| acc_state := set_org (acc_state a) org (dedup_ids models);
          acc_sent := acc_sent a ++
            ((λ mid, (org, mid)) <$>
               reverse (main_new (get_models os) (dedup_ids models)));
          acc_changed := true |}.
Proof.
  intros Hne Hos Hem. destruct models as [|m models]; [done|].
  unfold poll_org. rewrite Hos. rewrite decide_False; [|done].
  rewrite filter_prev_set. unfold main_new.
  destruct (filter (λ mid, mid ∉ get_models os) (dedup_ids (m :: models)))
    as [|n news] eqn:Hnew.
  - destruct (decide (dedup_ids (m :: models) = get_models os)) as [Heq|Hneq].
    + rewrite decide_False; [done|]. by intros ?.
    + rewrite decide_True; [|done]. simpl. by rewrite app_nil_r.
  - rewrite decide_False; [done|].
    intros Heq. assert (n ∈ filter (λ mid, mid ∉ get_models os)
                              (dedup_ids (m :: models))) as Hn.
    { rewrite Hnew. left. }
    apply list_elem_of_filter in Hn as [Hn1 Hn2]. by rewrite Heq in Hn2.
Qed.

Lemma filter_none {A} (P : A → Prop) `{∀ x, Decision (P x)} (l : list A) :
  (∀ x, x ∈ l → ¬ P x) → filter P l = [].
Proof.
  induction l as [|x l IH]; intros Hall; [done|].
  rewrite filter_cons_False; [|apply Hall; left].
  apply IH. intros y Hy. apply Hall. by right.
Qed.

Lemma main_new_self ids : main_new ids ids = [].
Proof.
  unfold main_new. rewrite (filter_none (λ mid, mid ∉ ids)); [done|].
  intros x Hx Hnot. by apply Hnot.
Qed.

Lemma poll_org_state_other a org org' models :
  org ≠ org' →
  orgs (acc_state (poll_org a (org', models))) !! org
  = orgs (acc_state a) !! org.
Proof.
  intros Hne. destruct models as [|m models]; [done|].
  unfold poll_org.
  repeat (case_match || case_decide); simpl; try done;
    by rewrite lookup_insert_ne.
Qed.

Lemma poll_org_sent a org' models :
  ∃ extra, acc_sent (poll_org a (org', models))
           = acc_sent a ++ ((λ mid, (org', mid)) <$> extra)
    ∧ ∀ mid, mid ∈ extra →
        is_derivative_model mid = false ∧ mid ∈ id <$> models.
Proof.
  destruct models as [|m models].
  { exists []. simpl. rewrite app_nil_r. split; [done|]. by intros ? ?%elem_of_nil. }
  unfold poll_org.
  destruct (orgs (acc_state a) !! org') as [os|].
  2:{ exists []. simpl. rewrite app_nil_r. split; [done|]. by intros ? ?%elem_of_nil. }
  case_decide.
  { exists []. simpl. rewrite app_nil_r. split; [done|]. by intros ? ?%elem_of_nil. }
  destruct (filter _ (dedup_ids (m :: models))) as [|n news] eqn:Hnew.
  { exists []. case_decide; simpl; rewrite app_nil_r;
      (split; [done|]); by intros ? ?%elem_of_nil. }
  eexists. split; [reflexivity|].
  intros mid Hmid. rewrite elem_of_reverse in Hmid.
  apply list_elem_of_filter in Hmid as [Hmain Hmid]. split; [done|].
  apply dedup_ids_elem_of. rewrite <- Hnew in Hmid.
  by apply list_elem_of_filter in Hmid as [_ ?].
Qed.

Lemma poll_org_sent_other a org org' models :
  org ≠ org' →
  sent_for org (acc_sent (poll_org a (org', models))) = sent_for org (acc_sent a).
Proof.
  intros Hne. destruct (poll_org_sent a org' models) as (extra & -> & _).
  rewrite sent_for_app, sent_for_other; [|done]. by rewrite app_nil_r.
Qed.

Lemma poll_org_changed_mono a r :
  acc_changed a = true → acc_changed (poll_org a r) = true.
Proof.
  intros Hc. destruct r as [org models]. destruct models as [|m models]; [done|].
  unfold poll_org. repeat (case_match || case_decide); done.
Qed.

(** *** The whole loop *)

Lemma fold_changed_mono rs a :
  acc_changed a = true → acc_changed (foldl poll_org a rs) = true.
Proof.
  revert a. induction rs as [|r rs IH]; intros a Hc; [done|].
  simpl. by apply IH, poll_org_changed_mono.
Qed.

Lemma fold_other rs a org :
  org ∉ rs.*1 →
  orgs (acc_state (foldl poll_org a rs)) !! org = orgs (acc_state a) !! org
  ∧ sent_for org (acc_sent (foldl poll_org a rs)) = sent_for org (acc_sent a).
Proof.
  revert a. induction rs as [|[org' models] rs IH]; intros a Hnot; [done|].
  rewrite fmap_cons in Hnot. apply not_elem_of_cons in Hnot as [Hne Hnot].
  change (foldl poll_org a ((org', models) :: rs))
    with (foldl poll_org (poll_org a (org', models)) rs).
  destruct (IH (poll_org a (org', models)) Hnot) as [-> ->].
  by rewrite poll_org_state_other, poll_org_sent_other.
Qed.

Lemma fold_sent_derivative rs a org mid :
  is_derivative_model mid = true →
  (org, mid) ∈ acc_sent (foldl poll_org a rs) → (org, mid) ∈ acc_sent a.
Proof.
  intros Hd. revert a. induction rs as [|[org' models] rs IH]; intros a; [done|].
  cbn [foldl]. intros Hin%IH.
  destruct (poll_org_sent a org' models) as (extra & Heq & Hextra).
  rewrite Heq in Hin. apply elem_of_app in Hin as [Hin|Hin]; [done|].
  apply list_elem_of_fmap in Hin as (m & [= -> ->] & Hm).
  apply Hextra in Hm as [Hm _]. congruence.
Qed.

(** With every organisation polled once, what the loop does to one of
    them is what its own step does, from the state the cycle began with. *)
Lemma fold_at rs a org models :
  NoDup rs.*1 → (org, models) ∈ rs →
  ∃ a1,
    orgs (acc_state a1) !! org = orgs (acc_state a) !! org
    ∧ sent_for org (acc_sent a1) = sent_for org (acc_sent a)
    ∧ orgs (acc_state (foldl poll_org a rs)) !! org
      = orgs (acc_state (poll_org a1 (org, models))) !! org
    ∧ sent_for org (acc_sent (foldl poll_org a rs))
      = sent_for org (acc_sent (poll_org a1 (org, models)))
    ∧ (acc_changed (poll_org a1 (org, models)) = true →
       acc_changed (foldl poll_org a rs) = true).
Proof.
  intros Hnd Hin.
  apply list_elem_of_split in Hin as (rs1 & rs2 & ->).
  rewrite fmap_app, fmap_cons in Hnd. simpl in Hnd.
  apply NoDup_app in Hnd as (_ & Hdisj & Hnd2).
  apply NoDup_cons in Hnd2 as [Hnot2 _].
  assert (org ∉ rs1.*1) as Hnot1.
  { intros H1. apply (Hdisj _ H1). left. }
  exists (foldl poll_org a rs1).
  destruct (fold_other rs1 a org Hnot1) as [E1 E2].
  rewrite foldl_app. cbn [foldl].
  destruct (fold_other rs2 (poll_org (foldl poll_org a rs1) (org, models)) org Hnot2)
    as [E3 E4].
  repeat split; try done. apply fold_changed_mono.
Qed.

(** After its step, an organisation with a non-empty listing has stored
    state, and the stored list is the deduplicated listing. *)
Lemma poll_org_settles a org models :
  models ≠ [] →
  has_state (acc_state (poll_org a (org, models))) org = true
  ∧ stored_models (acc_state (poll_org a (org, models))) org = dedup_ids models.
Proof.
  intros Hne.
  assert (∀ st, has_state (set_org st org (dedup_ids models)) org = true
                ∧ stored_models (set_org st org (dedup_ids models)) org
                  = dedup_ids models) as Hset.
  { intros st. unfold has_state, stored_models, set_org. cbn [orgs].
    rewrite lookup_insert_eq. split; [|done].
    apply bool_decide_eq_true. intros Hem.
    apply (f_equal (λ m : gmap string (list string), m !! "models")) in Hem.
    by rewrite lookup_singleton_eq in Hem. }
  destruct (has_state (acc_state a) org) eqn:Hst.
  - destruct (has_state_inv _ _ Hst) as (os & Hos & Hem & Hsm).
    rewrite (poll_org_known a org models os); [|done..].
    case_decide as Hd; [|apply Hset]. by rewrite Hsm, Hd.
  - rewrite poll_org_baseline; [|done..]. apply Hset.
Qed.

Lemma poll_org_settled_noop a org models :
  models = [] ∨ (has_state (acc_state a) org = true
                 ∧ stored_models (acc_state a) org = dedup_ids models) →
  poll_org a (org, models) = a.
Proof.
  intros [->|[Hst Hsm]]; [done|].
  destruct models as [|m models]; [done|].
  destruct (has_state_inv _ _ Hst) as (os & Hos & Hem & Hsm').
  rewrite (poll_org_known a org (m :: models) os); [|done..].
  rewrite decide_True; [done|]. by rewrite <- Hsm, Hsm'.
Qed.

Lemma fold_settled_noop rs a :
  (∀ org models, (org, models) ∈ rs →
     models = [] ∨ (has_state (acc_state a) org = true
                    ∧ stored_models (acc_state a) org = dedup_ids models)) →
  foldl poll_org a rs = a.
Proof.
  induction rs as [|[org models] rs IH]; intros Hall; [done|].
  cbn [foldl]. rewrite poll_org_settled_noop; [|apply Hall; left].
  apply IH. intros org' models' Hin. apply Hall. by right.
Qed.

Lemma fold_settles rs a org models :
  NoDup rs.*1 → (org, models) ∈ rs → models ≠ [] →
  has_state (acc_state (foldl poll_org a rs)) org = true
  ∧ stored_models (acc_state (foldl poll_org a rs)) org = dedup_ids models.
Proof.
  intros Hnd Hin Hne.
  destruct (fold_at rs a org models Hnd Hin) as (a1 & _ & _ & E & _).
  destruct (poll_org_settles a1 org models Hne) as [H1 H2].
  unfold has_state, stored_models in *. by rewrite E.
Qed.

Lemma fold_empty_listings rs a org :
  (∀ models, (org, models) ∈ rs → models = []) →
  orgs (acc_state (foldl poll_org a rs)) !! org = orgs (acc_state a) !! org
  ∧ sent_for org (acc_sent (foldl poll_org a rs)) = sent_for org (acc_sent a).
Proof.
  revert a. induction rs as [|[org' models] rs IH]; intros a Hall; [done|].
  cbn [foldl].
  destruct (IH (poll_org a (org', models))) as [-> ->].
  { intros ms Hin. apply Hall. by right. }
  destruct (decide (org = org')) as [<-|Hne].
  - rewrite (Hall models); [|left]. by rewrite poll_org_empty.
  - by rewrite poll_org_state_other, poll_org_sent_other.
Qed.

Lemma results_fst (fetches : list (string * fetch_outcome)) :
  ((λ r, _fetch r.1 r.2) <$> fetches).*1 = fetches.*1.
Proof.
  induction fetches as [|[org o] fs IH]; [done|].
  rewrite !fmap_cons, IH. by destruct o.
Qed.

Lemma results_elem_of (fetches : list (string * fetch_outcome)) org o :
  (org, o) ∈ fetches → (org, listing o) ∈ (λ r, _fetch r.1 r.2) <$> fetches.
Proof.
  intros Hin. apply list_elem_of_fmap. exists (org, o). split; [|done].
  by destruct o.
Qed.

Lemma results_elem_of_inv (fetches : list (string * fetch_outcome)) org models :
  (org, models) ∈ (λ r, _fetch r.1 r.2) <$> fetches →
  ∃ o, (org, o) ∈ fetches ∧ models = listing o.
Proof.
  intros ([org' o] & Heq & Hin)%list_elem_of_fmap. exists o.
  destruct o; simpl in Heq; injection Heq as -> ->; done.
Qed.

Lemma poll_once_state st fetches :
  (poll_once st fetches).1
  = acc_state (foldl poll_org {| acc_state := st; acc_sent := []; acc_changed := false |}
                     ((λ r, _fetch r.1 r.2) <$> fetches)).
Proof. done. Qed.

Lemma poll_once_notified st fetches org :
  notified_for org (poll_once st fetches).2
  = sent_for org
      (acc_sent (foldl poll_org {| acc_state := st; acc_sent := []; acc_changed := false |}
                       ((λ r, _fetch r.1 r.2) <$> fetches))).
Proof.
  unfold poll_once. cbn [snd]. apply notified_for_sent.
  intros e. destruct (acc_changed _); [|by intros ?%elem_of_nil].
  intros ->%list_elem_of_singleton. eauto.
Qed.

Lemma poll_once_persisted st fetches :
  persisted (poll_once st fetches).2
  = acc_changed (foldl poll_org {| acc_state := st; acc_sent := []; acc_changed := false |}
                       ((λ r, _fetch r.1 r.2) <$> fetches)).
Proof.
  unfold poll_once, persisted. cbn [snd]. rewrite existsb_app.
  match goal with |- (?x || _)%bool = _ => assert (x = false) as -> end.
  { induction (acc_sent _) as [|n l IH]; [done|]. csimpl. done. }
  by destruct (acc_changed _).
Qed.

(** What a cycle does for one organisation, in terms of the state the
    cycle began with. *)
Lemma poll_once_at st fetches org o :
  NoDup fetches.*1 → (org, o) ∈ fetches →
  ∃ a1,
    orgs (acc_state a1) !! org = orgs st !! org
    ∧ sent_for org (acc_sent a1) = []
    ∧ orgs (poll_once st fetches).1 !! org
      = orgs (acc_state (poll_org a1 (org, listing o))) !! org
    ∧ notified_for org (poll_once st fetches).2
      = sent_for org (acc_sent (poll_org a1 (org, listing o)))
    ∧ (acc_changed (poll_org a1 (org, listing o)) = true →
       persisted (poll_once st fetches).2 = true).
Proof.
  intros Hnd Hin. rewrite poll_once_notified, poll_once_persisted, poll_once_state.
  apply results_elem_of in Hin. rewrite <- results_fst in Hnd.
  destruct (fold_at _ {| acc_state := st; acc_sent := []; acc_changed := false |}
              org (listing o) Hnd Hin) as (a1 & H1 & H2 & H3 & H4 & H5).
  by exists a1.
Qed.

End MonitoringFacts.

(* ===================================================================== *)
(** ** The poll cycle: what the design document states of it *)
(* ===================================================================== *)

Module MonitoringSpec.
Import PyStr Models Monitoring PyStrFacts ModelsFacts MonitoringFacts.

(** The statements about a whole cycle take the polled organisations to
    be distinct, as the tuple [Settings.monitored_orgs] is; the listing
    of an organisation is then the one entry the cycle has for it. *)

(** Decidable side conditions on concrete data are settled by running
    their decision procedure. *)
Ltac by_deciding := apply (bool_decide_unpack _); vm_compute; exact I.

(** C3. Baseline sync. An organisation without stored state whose fetch
    returns a non-empty listing gets no notification in the cycle, and its
    stored state becomes the object with the one key "models", holding the
    ids of the listing with later repetitions dropped; that is the listing
    itself when no id repeats in it. The list stored is the deduplicated
    listing of the design document, [first_occurrences]: it has no
    repetition, it has the ids of the listing and no other, and it keeps
    them in the order in which they first occur; and the cycle persists
    the state. *)
Theorem baseline_sync_is_silent st fetches org models :
  NoDup fetches.*1 →
  (org, Fetched models) ∈ fetches →
  models ≠ [] →
  has_state st org = false →
  notified_for org (poll_once st fetches).2 = []
  ∧ orgs (poll_once st fetches).1 !! org = Some {[ "models" := dedup_ids models ]}
  ∧ (NoDup (id <$> models) → dedup_ids models = id <$> models)
  ∧ orgs (poll_once st fetches).1 !! org
    = Some {[ "models" := first_occurrences (id <$> models) ]}
  ∧ NoDup (stored_models (poll_once st fetches).1 org)
  ∧ (∀ mid, mid ∈ stored_models (poll_once st fetches).1 org
            ↔ mid ∈ id <$> models)
  ∧ stored_models (poll_once st fetches).1 org `sublist_of` (id <$> models)
  ∧ persisted (poll_once st fetches).2 = true.
Proof.
  intros Hnd Hin Hne Hno.
  destruct (poll_once_at st fetches org _ Hnd Hin)
    as (a1 & H1 & H2 & Hst & Hnot & Hch).
  assert (has_state (acc_state a1) org = false) as Hno1.
  { unfold has_state in *. by rewrite H1. }
  cbn [listing] in Hst, Hnot, Hch.
  rewrite (poll_org_baseline a1 org models Hne Hno1) in Hst, Hnot, Hch.
  cbn [acc_state acc_sent acc_changed set_org orgs] in Hst, Hnot, Hch.
  rewrite lookup_insert_eq in Hst.
  assert (stored_models (poll_once st fetches).1 org = dedup_ids models) as Hsm.
  { unfold stored_models. rewrite Hst. cbn [from_option]. unfold get_models.
    by rewrite lookup_singleton_eq. }
  rewrite Hsm, Hst, Hnot, H2.
  split; [done|]. split; [done|]. split; [apply dedup_ids_fixed|].
  split; [by rewrite dedup_ids_first_occurrences|].
  split; [apply dedup_ids_NoDup|]. split; [apply dedup_ids_elem_of|].
  split; [apply unique_by_sublist|]. by apply Hch.
Qed.

Lemma baseline_sync_is_silent_witness :
  notified_for "acme" (poll_once empty_state
     [("acme", Fetched (listing_of ["acme/x-2"; "acme/x-1"; "acme/x-2"]))]).2 = []
  ∧ orgs (poll_once empty_state
     [("acme", Fetched (listing_of ["acme/x-2"; "acme/x-1"; "acme/x-2"]))]).1 !! "acme"
    = Some {[ "models" := first_occurrences ["acme/x-2"; "acme/x-1"; "acme/x-2"] ]}
  ∧ first_occurrences ["acme/x-2"; "acme/x-1"; "acme/x-2"]
    = ["acme/x-2"; "acme/x-1"].
Proof.
  destruct (baseline_sync_is_silent empty_state
              [("acme", Fetched (listing_of ["acme/x-2"; "acme/x-1"; "acme/x-2"]))]
              "acme" (listing_of ["acme/x-2"; "acme/x-1"; "acme/x-2"]))
    as (H1 & _ & _ & H4 & _).
  - by_deciding.
  - by_deciding.
  - discriminate.
  - reflexivity.
  - split; [exact H1|]. split; [exact H4|reflexivity].
Defined.

(** C2. An organisation that has stored state is notified of exactly the
    ids of the fetched listing that are not in the stored list and are
    main releases, each once, in the reverse of the listing's order. *)
Theorem known_org_notified_new_main_reversed st fetches org o :
  NoDup fetches.*1 →
  (org, o) ∈ fetches →
  has_state st org = true →
  let notified := notified_for org (poll_once st fetches).2 in
  notified = reverse (main_new (stored_models st org) (dedup_ids (listing o)))
  ∧ NoDup notified
  ∧ ∀ mid, mid ∈ notified ↔
           mid ∈ id <$> listing o
           ∧ (mid ∉ stored_models st org)
           ∧ is_derivative_model mid = false.
Proof.
  intros Hnd Hin Hst notified.
  assert (notified
          = reverse (main_new (stored_models st org) (dedup_ids (listing o)))) as E.
  { subst notified.
    destruct (poll_once_at st fetches org _ Hnd Hin) as (a1 & H1 & H2 & _ & -> & _).
    destruct (has_state_inv _ _ Hst) as (os & Hos & Hem & ->).
    destruct (listing o) as [|m models] eqn:Hl.
    { by rewrite poll_org_empty, H2. }
    rewrite (poll_org_known a1 org (m :: models) os); [|done|by rewrite H1|done].
    case_decide as Hd.
    - by rewrite H2, Hd, main_new_self.
    - cbn [acc_sent]. by rewrite sent_for_app, H2, sent_for_same. }
  split; [done|]. rewrite E. split.
  - rewrite reverse_Permutation. unfold main_new.
    do 2 apply NoDup_filter. apply dedup_ids_NoDup.
  - intros mid. rewrite elem_of_reverse. unfold main_new.
    rewrite !list_elem_of_filter, dedup_ids_elem_of. tauto.
Qed.

Lemma known_org_notified_new_main_reversed_witness :
  notified_for "org"
    (poll_once (state_of "org" ["org/A"; "org/B"])
       [("org", Fetched (listing_of ["org/D"; "org/C"; "org/A"; "org/B"]))]).2
  = ["org/C"; "org/D"].
Proof.
  destruct (known_org_notified_new_main_reversed
              (state_of "org" ["org/A"; "org/B"])
              [("org", Fetched (listing_of ["org/D"; "org/C"; "org/A"; "org/B"]))]
              "org" (Fetched (listing_of ["org/D"; "org/C"; "org/A"; "org/B"])))
    as (H & _).
  - by_deciding.
  - by_deciding.
  - vm_compute. reflexivity.
  - rewrite H. vm_compute. reflexivity.
Defined.

(** C4. A fetched id whose name part, lowered, ends with one of the
    derivative suffixes is never notified, under any organisation, and is
    in the list stored for its organisation after the cycle. *)
Theorem derivative_recorded_not_notified st fetches org models mid :
  NoDup fetches.*1 →
  (org, Fetched models) ∈ fetches →
  mid ∈ id <$> models →
  (∃ suf pre, suf ∈ DERIVATIVE_SUFFIXES
              ∧ lower (split1_last "/" mid) = pre +:+ suf) →
  (∀ o, Notify o mid ∉ (poll_once st fetches).2)
  ∧ mid ∈ stored_models (poll_once st fetches).1 org.
Proof.
  intros Hnd Hin Hmid (suf & pre & Hsuf & Hname).
  assert (is_derivative_model mid = true) as Hder.
  { apply is_derivative_model_spec. exists suf, pre.
    split; [by apply list_elem_of_In|done]. }
  split.
  - intros o Hn. unfold poll_once in Hn. cbn [snd] in Hn.
    apply elem_of_app in Hn as [Hn|Hn].
    + apply list_elem_of_fmap in Hn as ([o' m'] & [= -> ->] & Hn).
      apply fold_sent_derivative in Hn; [|done]. by apply elem_of_nil in Hn.
    + destruct (acc_changed _); [|by apply elem_of_nil in Hn].
      by apply list_elem_of_singleton in Hn.
  - assert (models ≠ []) as Hne.
    { intros ->. by apply elem_of_nil in Hmid. }
    rewrite poll_once_state.
    apply results_elem_of in Hin. rewrite <- results_fst in Hnd.
    destruct (fold_settles _ {| acc_state := st; acc_sent := []; acc_changed := false |}
                org models Hnd Hin Hne) as [_ ->].
    by apply dedup_ids_elem_of.
Qed.

Lemma derivative_recorded_not_notified_witness :
  (Notify "org" "org/model-gguf"
     ∉ (poll_once (state_of "org" ["org/model"])
          [("org", Fetched (listing_of ["org/model-gguf"; "org/model"]))]).2)
  ∧ ("org/model-gguf"
     ∈ stored_models
         (poll_once (state_of "org" ["org/model"])
            [("org", Fetched (listing_of ["org/model-gguf"; "org/model"]))]).1 "org").
Proof.
  destruct (derivative_recorded_not_notified
              (state_of "org" ["org/model"])
              [("org", Fetched (listing_of ["org/model-gguf"; "org/model"]))]
              "org" (listing_of ["org/model-gguf"; "org/model"]) "org/model-gguf")
    as [H1 H2].
  - by_deciding.
  - by_deciding.
  - by_deciding.
  - exists "-gguf", "model". split; [|reflexivity].
    by_deciding.
  - split; [apply H1|exact H2].
Defined.

(** C10. An organisation whose fetch raised, or returned the empty
    listing, keeps the stored state it had, whatever that was, and gets no
    notification in the cycle. *)
Theorem empty_fetch_leaves_state st fetches org :
  (∀ o, (org, o) ∈ fetches → o = FetchRaised ∨ o = Fetched []) →
  orgs (poll_once st fetches).1 !! org = orgs st !! org
  ∧ notified_for org (poll_once st fetches).2 = [].
Proof.
  intros Hall. rewrite poll_once_state, poll_once_notified.
  apply (fold_empty_listings _ {| acc_state := st; acc_sent := []; acc_changed := false |}).
  intros models (o & Hin & ->)%results_elem_of_inv.
  by destruct (Hall o Hin) as [-> | ->].
Qed.

Lemma empty_fetch_leaves_state_witness :
  orgs (poll_once (state_of "acme" ["acme/x-1"])
          [("acme", FetchRaised); ("other", Fetched (listing_of ["other/y"]))]).1
    !! "acme"
  = orgs (state_of "acme" ["acme/x-1"]) !! "acme"
  ∧ notified_for "acme"
      (poll_once (state_of "acme" ["acme/x-1"])
         [("acme", FetchRaised); ("other", Fetched (listing_of ["other/y"]))]).2
    = [].
Proof.
  apply (empty_fetch_leaves_state (state_of "acme" ["acme/x-1"])
           [("acme", FetchRaised); ("other", Fetched (listing_of ["other/y"]))] "acme").
  intros o Hin.
  apply elem_of_cons in Hin as [[= <-]|Hin]; [by left|].
  apply list_elem_of_singleton in Hin. discriminate.
Defined.

(** When every fetch of the cycle is empty, the cycle does nothing. *)
Lemma all_fetches_empty_noop st fetches :
  (∀ org o, (org, o) ∈ fetches → listing o = []) →
  poll_once st fetches = (st, []).
Proof.
  intros Hall. unfold poll_once. rewrite fold_settled_noop; [done|].
  intros org models (o & Hin & ->)%results_elem_of_inv. left. eauto.
Qed.

(** C5, as the code has it. A second cycle over the same fetches does
    nothing: no notification, no [save_state], the state as the first
    cycle left it. And a cycle in which an organisation's listing is
    non-empty and its deduplicated ids differ from the stored list in any
    way (members, order, length) stores the new list and calls
    [save_state] with the state holding it. *)
Theorem poll_twice_is_idle_and_difference_persists st fetches :
  NoDup fetches.*1 →
  poll_once (poll_once st fetches).1 fetches = ((poll_once st fetches).1, [])
  ∧ ∀ org o,
      (org, o) ∈ fetches →
      listing o ≠ [] →
      dedup_ids (listing o) ≠ stored_models st org →
      orgs (poll_once st fetches).1 !! org
        = Some {[ "models" := dedup_ids (listing o) ]}
      ∧ persisted (poll_once st fetches).2 = true
      ∧ SaveState (poll_once st fetches).1 ∈ (poll_once st fetches).2.
Proof.
  intros Hnd. split.
  - unfold poll_once at 1. rewrite fold_settled_noop; [done|].
    intros org models Hin. cbn [acc_state].
    destruct models as [|m models]; [by left|right].
    rewrite poll_once_state. apply fold_settles; [by rewrite results_fst|done..].
  - intros org o Hin Hne Hdiff.
    destruct (poll_once_at st fetches org o Hnd Hin) as (a1 & H1 & _ & E & _ & Hp).
    assert (poll_org a1 (org, listing o)
            = {| acc_state := set_org (acc_state a1) org (dedup_ids (listing o));
                 acc_sent := acc_sent (poll_org a1 (org, listing o));
                 acc_changed := true |}) as Hstep.
    { destruct (has_state (acc_state a1) org) eqn:Hst.
      - destruct (has_state_inv _ _ Hst) as (os & Hos & Hem & Hsm).
        rewrite (poll_org_known a1 org (listing o) os); [|done..].
        rewrite decide_False; [done|].
        intros Heq. apply Hdiff. unfold stored_models in *.
        by rewrite <- H1, <- Heq, Hos in *.
      - by rewrite poll_org_baseline. }
    assert (persisted (poll_once st fetches).2 = true) as Hper.
    { apply Hp. by rewrite Hstep. }
    split; [|split; [done|]].
    + rewrite E, Hstep. cbn [acc_state set_org orgs]. apply lookup_insert_eq.
    + rewrite poll_once_persisted in Hper. unfold poll_once. cbn [fst snd].
      rewrite Hper. apply elem_of_app. right. left.
Qed.

Lemma poll_twice_is_idle_and_difference_persists_witness :
  poll_once
    (poll_once (state_of "acme" ["acme/a"; "acme/b"])
       [("acme", Fetched (listing_of ["acme/b"; "acme/a"]))]).1
    [("acme", Fetched (listing_of ["acme/b"; "acme/a"]))]
  = ((poll_once (state_of "acme" ["acme/a"; "acme/b"])
        [("acme", Fetched (listing_of ["acme/b"; "acme/a"]))]).1, [])
  ∧ orgs (poll_once (state_of "acme" ["acme/a"; "acme/b"])
            [("acme", Fetched (listing_of ["acme/b"; "acme/a"]))]).1 !! "acme"
    = Some {[ "models" := dedup_ids (listing (Fetched (listing_of ["acme/b"; "acme/a"]))) ]}
  ∧ persisted (poll_once (state_of "acme" ["acme/a"; "acme/b"])
                 [("acme", Fetched (listing_of ["acme/b"; "acme/a"]))]).2 = true.
Proof.
  destruct (poll_twice_is_idle_and_difference_persists
              (state_of "acme" ["acme/a"; "acme/b"])
              [("acme", Fetched (listing_of ["acme/b"; "acme/a"]))]) as [Hidle Hdiff].
  { by_deciding. }
  destruct (Hdiff "acme" (Fetched (listing_of ["acme/b"; "acme/a"])))
    as (Hstored & Hsaved & _).
  { by_deciding. }
  { discriminate. }
  { vm_compute. discriminate. }
  split; [exact Hidle|]. split; [exact Hstored|exact Hsaved].
Defined.

(** The example of the design document: one new model. *)
Example poll_one_new_model :
  poll_once (state_of "acme" ["acme/x-1"])
    [("acme", Fetched (listing_of ["acme/x-2"; "acme/x-1"]))]
  = (state_of "acme" ["acme/x-2"; "acme/x-1"],
     [ Notify "acme" "acme/x-2";
       SaveState (state_of "acme" ["acme/x-2"; "acme/x-1"]) ]).
Proof. vm_compute. reflexivity. Qed.

(** C5, as stated, fails at the empty listing: its stored form, the
    empty list, differs from the stored ["acme/x-1"], and the cycle
    neither overwrites the stored state nor calls [save_state]. *)
Lemma empty_listing_differs_yet_is_not_stored :
  dedup_ids (listing (Fetched [])) ≠ stored_models (state_of "acme" ["acme/x-1"]) "acme"
  ∧ poll_once (state_of "acme" ["acme/x-1"]) [("acme", Fetched [])]
    = (state_of "acme" ["acme/x-1"], [])
  ∧ orgs (poll_once (state_of "acme" ["acme/x-1"]) [("acme", Fetched [])]).1 !! "acme"
    ≠ Some {[ "models" := dedup_ids (listing (Fetched [])) ]}
  ∧ persisted (poll_once (state_of "acme" ["acme/x-1"]) [("acme", Fetched [])]).2
    = false.
Proof.
  split; [|split; [|split]].
  - vm_compute. discriminate.
  - reflexivity.
  - vm_compute. discriminate.
  - reflexivity.
Qed.

End MonitoringSpec.

(* ===================================================================== *)
(** ** Pagination: termination and its bound *)
(* ===================================================================== *)

Module PaginateSpec.
Import PyStr HuggingFace.

Example link_next_header :
  link_next ("<https://huggingface.co/api/models?cursor=abc>; " +:+ REL_NEXT)
  = Some "https://huggingface.co/api/models?cursor=abc".
Proof. reflexivity. Qed.

Example link_next_second :
  link_next ("<a>; rel=prev, <b>;" +:+ REL_NEXT) = Some "b".
Proof. reflexivity. Qed.

Example link_next_absent : link_next "<a>; rel=prev" = None.
Proof. reflexivity. Qed.

Example paginate_three_pages :
  length (exchanges (_paginate three_pages 0 [] DEFAULT_MAX_PAGES)) = 3
  ∧ length <$> returned (_paginate three_pages 0 [] DEFAULT_MAX_PAGES) = Some 2001
  ∧ req_url <$> exchanges (_paginate three_pages 0 [] DEFAULT_MAX_PAGES)
    = [ _HF_API; "https://huggingface.co/api/models?cursor=n";
        "https://huggingface.co/api/models?cursor=n" ].
Proof. vm_compute. done. Qed.

Example paginate_exception :
  length (exchanges (_paginate failing_second 0 [] DEFAULT_MAX_PAGES)) = 2
  ∧ returned (_paginate failing_second 0 [] DEFAULT_MAX_PAGES) = None.
Proof. vm_compute. done. Qed.

Section Upstream.
Context {upstream : Type}.
Variable get : upstream → string → option (list (string * string))
               → option response * upstream.

(** What the loop does from any point: the requests it adds to the log
    are at most the pages left, at least one when a page is left, end
    with the first exchange that [is_last], and go on otherwise; the
    result is absent exactly when the last exchange raised, and is
    otherwise the items so far with the pages received. *)
Lemma paginate_loop_spec n srv url p items log :
  ∃ new,
    exchanges (paginate_loop get n srv url p items log) = log ++ new
    ∧ length new ≤ n
    ∧ (n ≠ 0 → new ≠ [])
    ∧ (∀ i e, new !! i = Some e → is_last e = true → length new = S i)
    ∧ (∀ i e, new !! i = Some e → is_last e = false → S i < n → S i < length new)
    ∧ (returned (paginate_loop get n srv url p items log) = None
       ↔ ∃ e, last new = Some e ∧ reply e = None)
    ∧ (∀ l, returned (paginate_loop get n srv url p items log) = Some l →
            l = items ++ received new)
    ∧ (∀ e, e ∈ new → ∃ s, (get s (req_url e) (req_params e)).1 = reply e).
Proof.
  revert srv url p items log. induction n as [|n IH]; intros srv url p items log.
  { exists []. cbn. rewrite !app_nil_r. repeat split; try done; try lia.
    - intros (e & ? & _). done.
    - by intros l [= <-].
    - by intros e ?%elem_of_nil. }
  cbn [paginate_loop].
  destruct (get srv url p) as [resp srv'] eqn:Hget.
  set (e0 := {| req_url := url; req_params := p; reply := resp |}).
  assert (∀ items',
    is_last e0 = true →
    (resp = None ∨ items' = items ++ from_option batch [] resp) →
    ∃ new, log ++ [e0] = log ++ new ∧ length new ≤ S n
      ∧ (S n ≠ 0 → new ≠ [])
      ∧ (∀ i e, new !! i = Some e → is_last e = true → length new = S i)
      ∧ (∀ i e, new !! i = Some e → is_last e = false → S i < S n → S i < length new)
      ∧ ((if resp is Some _ then Some items' else None) = None
         ↔ ∃ e, last new = Some e ∧ reply e = None)
      ∧ (∀ l, (if resp is Some _ then Some items' else None) = Some l →
              l = items ++ received new)
      ∧ (∀ e, e ∈ new → ∃ s, (get s (req_url e) (req_params e)).1 = reply e))
    as Hstop.
  { intros items' Hlast Hitems. exists [e0]. split; [done|]. split; [simpl; lia|].
    split; [done|]. split; [|split; [|split; [|split]]].
    - intros [|i] e; [done|]. by destruct i.
    - intros [|i] e; [|done]. intros [= <-]. by rewrite Hlast.
    - split.
      + destruct resp; [done|]. intros _. by exists e0.
      + intros (e & [= <-] & He). cbn in He. by rewrite He.
    - intros l. destruct resp as [r|]; [|done]. intros [= <-].
      destruct Hitems as [?| ->]; [done|]. cbn. by rewrite app_nil_r.
    - intros e ->%list_elem_of_singleton. exists srv. cbn. by rewrite Hget. }
  destruct resp as [r|].
  2:{ apply (Hstop []); [done|by left]. }
  destruct (batch r) as [|x b] eqn:Hb.
  { apply (Hstop items).
    - unfold is_last. cbn. by rewrite Hb.
    - right. cbn. by rewrite Hb, app_nil_r. }
  destruct (length (x :: b) <? _PAGE_SIZE)%nat eqn:Hlen.
  { apply (Hstop (items ++ x :: b)).
    - unfold is_last. cbn [reply e0]. rewrite Hb, Hlen. by rewrite orb_true_r.
    - right. cbn. by rewrite Hb. }
  destruct (link_next (link_header r)) as [next|] eqn:Hnext.
  2:{ apply (Hstop (items ++ x :: b)).
      - unfold is_last. cbn [reply e0]. rewrite Hnext.
        apply orb_true_iff. right. by apply bool_decide_eq_true.
      - right. cbn. by rewrite Hb. }
  assert (is_last e0 = false) as Hcont.
  { unfold is_last. cbn [reply e0]. rewrite Hb, Hlen, Hnext.
    by rewrite !bool_decide_eq_false_2. }
  destruct (IH srv' next None (items ++ x :: b) (log ++ [e0]))
    as (new & E & Hn & Hne & Hl & Hc & Hr & Hi & Hg).
  exists (e0 :: new). rewrite E, <- app_assoc. split; [done|].
  split; [simpl; lia|]. split; [done|]. split; [|split; [|split; [|split]]].
  - intros [|i] e.
    + intros [= <-]. by rewrite Hcont.
    + cbn. intros He Hle. f_equal. by eapply Hl.
  - intros [|i] e.
    + intros _ _ Hlt. assert (new ≠ []) as Hnew by (apply Hne; lia).
      destruct new; [done|]. cbn. lia.
    + cbn. intros He Hle Hlt.
      assert (S i < length new); [|lia]. eapply Hc; [done..|lia].
  - rewrite Hr. split.
    + intros (e & He & Hrep). exists e. split; [|done].
      destruct new; [done|]. done.
    + intros (e & He & Hrep). destruct new as [|e1 new'].
      * cbn in He. injection He as <-. done.
      * exists e. done.
  - intros l Hl'. rewrite (Hi l Hl'). cbn. rewrite Hb. by rewrite <- app_assoc.
  - intros e [->|He]%elem_of_cons; [|by apply Hg].
    exists srv. cbn. by rewrite Hget.
Qed.

Lemma always_full_never_last e :
  always_full get → (∃ s, (get s (req_url e) (req_params e)).1 = reply e) →
  is_last e = false ∧ ∃ r, reply e = Some r ∧ length (batch r) = _PAGE_SIZE.
Proof.
  intros Hfull [s Hs]. destruct (Hfull s (req_url e) (req_params e))
    as (r & Hr & Hlen & [next Hnext]).
  rewrite Hs in Hr. split; [|eauto].
  unfold is_last. rewrite Hr, Hnext, Hlen.
  rewrite !bool_decide_eq_false_2; [done|done|].
  intros Hb. by rewrite Hb in Hlen.
Qed.

Lemma received_length (log : list exchange) :
  (∀ e, e ∈ log → ∃ r, reply e = Some r ∧ length (batch r) = _PAGE_SIZE) →
  length (received log) = length log * _PAGE_SIZE.
Proof.
  induction log as [|e log IH]; intros Hall; [done|].
  cbn [received flat_map]. rewrite length_app.
  destruct (Hall e) as (r & -> & Hlen); [left|]. cbn [from_option].
  unfold received in IH. rewrite Hlen, IH; [done|].
  intros e' He'. apply Hall. by right.
Qed.

(** C6. [_paginate] is a total function of the upstream's behaviour:
    whatever the upstream answers, it makes at most [max_pages] requests;
    the first exchange that is an exception, an empty page, a page shorter
    than the page size or a page without a next link is the last one; an
    exchange that is none of these is followed by another request while
    the page count allows it; and against an upstream that always sends a
    full page with a next link it makes exactly [max_pages] requests and
    returns the [max_pages * _PAGE_SIZE] items it received. The default
    page count is 50. *)
Theorem paginate_stops_within_max_pages srv params max_pages :
  let run := _paginate get srv params max_pages in
  length (exchanges run) ≤ max_pages
  ∧ (∀ i e, exchanges run !! i = Some e → is_last e = true →
            length (exchanges run) = S i)
  ∧ (∀ i e, exchanges run !! i = Some e → is_last e = false →
            S i < max_pages → S i < length (exchanges run))
  ∧ (always_full get →
       length (exchanges run) = max_pages
       ∧ ∃ l, returned run = Some l ∧ length l = max_pages * _PAGE_SIZE)
  ∧ DEFAULT_MAX_PAGES = 50.
Proof.
  intros run. subst run. unfold _paginate.
  destruct (paginate_loop_spec max_pages srv _HF_API (Some params) [] [])
    as (new & E & Hn & Hne & Hl & Hc & Hr & Hi & Hg).
  rewrite E. cbn [app].
  split; [done|]. split; [done|]. split; [done|]. split; [|done].
  intros Hfull.
  assert (∀ e, e ∈ new → is_last e = false
                         ∧ ∃ r, reply e = Some r ∧ length (batch r) = _PAGE_SIZE)
    as Hall.
  { intros e He. apply always_full_never_last; [done|by apply Hg]. }
  assert (length new = max_pages) as Hlen.
  { destruct (decide (length new = max_pages)) as [|Hlt]; [done|exfalso].
    destruct new as [|e0 new'] using rev_ind.
    - apply Hne; [|done]. cbn in Hlt. lia.
    - clear IHnew'.
      assert (length (new' ++ [e0]) = S (length new')) as Hlen'.
      { rewrite length_app. cbn. lia. }
      assert (S (length new') < length (new' ++ [e0])) as Habs; [|lia].
      apply (Hc (length new') e0).
      + apply list_lookup_middle. done.
      + apply Hall. apply elem_of_app. right. left.
      + lia. }
  split; [done|].
  destruct (returned (paginate_loop get max_pages srv _HF_API (Some params) [] []))
    as [l|] eqn:Hret.
  - exists l. split; [done|]. rewrite (Hi l eq_refl). cbn [app].
    rewrite received_length, Hlen; [done|]. intros e He. by apply Hall.
  - destruct (proj1 Hr eq_refl) as (e & He & Hrep).
    assert (e ∈ new) as Hin.
    { rewrite last_Some in He. destruct He as [l' ->].
      apply elem_of_app. right. left. }
    destruct (Hall e Hin) as (_ & r & Hr' & _). congruence.
Qed.


End Upstream.

Lemma paginate_stops_within_max_pages_witness :
  length (exchanges (_paginate endless 0 [("author", "org")] 3)) = 3
  ∧ ∃ l, returned (_paginate endless 0 [("author", "org")] 3) = Some l
         ∧ length l = 3 * _PAGE_SIZE.
Proof.
  apply (paginate_stops_within_max_pages endless 0 [("author", "org")] 3).
  intros s url p. exists full_page. split; [reflexivity|].
  split; [vm_compute; reflexivity|]. eexists. vm_compute. reflexivity.
Defined.

End PaginateSpec.

(* ===================================================================== *)
(** ** Loading the state document *)
(* ===================================================================== *)

Module StateSpec.
Import State.

(** The depth given to [issubclass] reaches the root from every class. *)
Lemma issubclass_root c : issubclass c BaseException = true.
Proof. by destruct c. Qed.

Example issubclass_file_not_found : issubclass FileNotFoundError OSError = true.
Proof. reflexivity. Qed.

Example issubclass_unicode_decode :
  issubclass UnicodeDecodeError ValueError = true
  ∧ issubclass UnicodeDecodeError JSONDecodeError = false
  ∧ issubclass UnicodeDecodeError OSError = false.
Proof. done. Qed.

(** The failures the [except] clause names give the empty document. *)
Lemma load_state_caught e :
  e ∈ [FileNotFoundError; PermissionError; IsADirectoryError; OSError;
       JSONDecodeError] →
  load_state (Raises e) = Return _empty_state.
Proof.
  intros He. repeat (apply elem_of_cons in He as [->|He]; [done|]).
  by apply elem_of_nil in He.
Qed.

(** A document that is not an object gives the empty document. *)
Lemma load_state_wrong_shape data :
  (∀ d, data ≠ JObject d) → load_state (Parsed data) = Return _empty_state.
Proof. intros H. destruct data; try done. by destruct (H members). Qed.

Lemma dict_get_cons key k v d :
  dict_get key ((k, v) :: d) = if String.eqb k key then Some v else dict_get key d.
Proof. unfold dict_get. cbn. by destruct (String.eqb k key). Qed.

Lemma has_key_cons key k v d :
  has_key key ((k, v) :: d) = String.eqb k key || has_key key d.
Proof. done. Qed.

Lemma has_key_false key d : has_key key d = false → dict_get key d = None.
Proof.
  induction d as [|[k v] d IH]; [done|].
  rewrite has_key_cons, dict_get_cons.
  destruct (String.eqb k key); [done|]. apply IH.
Qed.

Lemma has_key_true key d : has_key key d = true → is_Some (dict_get key d).
Proof.
  induction d as [|[k v] d IH]; [done|].
  rewrite has_key_cons, dict_get_cons.
  destruct (String.eqb k key); [by eexists|]. apply IH.
Qed.

Lemma dict_get_snoc key k v d :
  dict_get key (d ++ [(k, v)])
  = match dict_get key d with
    | Some x => Some x
    | None => if String.eqb k key then Some v else None
    end.
Proof.
  induction d as [|[k' v'] d IH].
  - cbn [app]. rewrite dict_get_cons. by destruct (String.eqb k key).
  - rewrite <- app_comm_cons, !dict_get_cons.
    by destruct (String.eqb k' key).
Qed.

Lemma dict_get_setdefault_same key dflt d :
  dict_get key (setdefault key dflt d)
  = Some (default dflt (dict_get key d)).
Proof.
  unfold setdefault. destruct (has_key key d) eqn:Hk.
  - by destruct (has_key_true _ _ Hk) as [v ->].
  - rewrite dict_get_snoc, (has_key_false _ _ Hk). by rewrite String.eqb_refl.
Qed.

Lemma dict_get_setdefault_other key key' dflt d :
  key ≠ key' →
  dict_get key' (setdefault key dflt d) = dict_get key' d.
Proof.
  intros Hne. unfold setdefault. destruct (has_key key d); [done|].
  rewrite dict_get_snoc. destruct (dict_get key' d); [done|].
  by destruct (String.eqb_spec key key').
Qed.

(** An object comes back with its own members first and unchanged, and
    with each of the three keys: the value it had, or the empty container
    where the key was missing. *)
Lemma load_state_object d :
  ∃ d', load_state (Parsed (JObject d)) = Return (JObject d')
        ∧ d `prefix_of` d'
        ∧ dict_get "orgs" d' = Some (default (JObject []) (dict_get "orgs" d))
        ∧ dict_get "chat_users" d'
          = Some (default (JObject []) (dict_get "chat_users" d))
        ∧ dict_get "question_bank" d'
          = Some (default (JArray []) (dict_get "question_bank" d))
        ∧ ∀ key, key ∉ ["orgs"; "chat_users"; "question_bank"] →
                 dict_get key d' = dict_get key d.
Proof.
  eexists. split; [reflexivity|]. split; [|split; [|split; [|split]]].
  - assert (∀ k v (l : list (string * json)), l `prefix_of` setdefault k v l) as H.
    { intros k v l. unfold setdefault. destruct (has_key k l); [done|].
      by apply prefix_app_r. }
    etrans; [apply (H "orgs")|]. etrans; [apply (H "chat_users")|]. apply H.
  - do 2 (rewrite dict_get_setdefault_other; [|discriminate]).
    apply dict_get_setdefault_same.
  - rewrite dict_get_setdefault_other; [|discriminate].
    rewrite dict_get_setdefault_same.
    rewrite dict_get_setdefault_other; [done|discriminate].
  - rewrite dict_get_setdefault_same.
    by do 2 (rewrite dict_get_setdefault_other; [|discriminate]).
  - intros key Hkey.
    by do 3 (rewrite dict_get_setdefault_other;
             [|intros <-; apply Hkey; repeat constructor]).
Qed.

Example load_state_partial :
  load_state (Parsed (JObject [("orgs", JObject [("acme", JObject [])])]))
  = Return (JObject [ ("orgs", JObject [("acme", JObject [])]);
                      ("chat_users", JObject []); ("question_bank", JArray []) ]).
Proof. reflexivity. Qed.

(** C9 fails on a state file that is not valid UTF-8. The file opens,
    [json.load] reads it through the UTF-8 decoder and raises
    [UnicodeDecodeError], a [ValueError] that is neither an [OSError] nor
    a [JSONDecodeError]; the [except] clause lets it through and
    [load_state] raises instead of returning the empty document. *)
Theorem load_state_raises_on_invalid_utf8 :
  load_state (Raises UnicodeDecodeError) = Propagate UnicodeDecodeError
  ∧ load_state (Raises UnicodeDecodeError) ≠ Return _empty_state.
Proof. split; [reflexivity|discriminate]. Qed.

End StateSpec.

(* ===================================================================== *)
(** ** The context aggregator *)
(* ===================================================================== *)

Module GatherSpec.
Import PyStr PyStrFacts HuggingFace Handlers Gathered.

Section Gather.
Context {hit : Type}.
Variable format_results : list hit → string.

Lemma classify_failed b (t : @task hit) : succeeded t = false → classify b t = b.
Proof. by destruct t as [k [[text imgs]|] | k [r|] | [r|]]. Qed.

Lemma fold_classify_succeeded b (tasks : list (@task hit)) :
  foldl classify b tasks
  = foldl classify b (filter (λ t, succeeded t = true) tasks).
Proof.
  revert b. induction tasks as [|t tasks IH]; intros b; [done|].
  cbn [foldl]. destruct (succeeded t) eqn:Ht.
  - rewrite filter_cons_True; [|done]. cbn [foldl]. apply IH.
  - rewrite filter_cons_False; [|by rewrite Ht].
    rewrite classify_failed; [|done]. apply IH.
Qed.

Lemma fold_classify_all_failed b (tasks : list (@task hit)) :
  (∀ t, t ∈ tasks → succeeded t = false) → foldl classify b tasks = b.
Proof.
  intros Hall. rewrite fold_classify_succeeded.
  assert (filter (λ t : @task hit, succeeded t = true) tasks = []) as ->; [|done].
  induction tasks as [|t tasks IH]; [done|].
  rewrite filter_cons_False.
  - apply IH. intros t' Ht'. apply Hall. by right.
  - rewrite Hall; [done|left].
Qed.

Lemma classify_images b (t : @task hit) :
  all_images (classify b t) = all_images b ++ imgs_of t.
Proof.
  destruct t as [k [[text imgs]|] | k [r|] | [r|]]; cbn.
  - destruct imgs; [by rewrite app_nil_r|done].
  - by rewrite app_nil_r.
  - destruct (nonempty r); cbn; by rewrite app_nil_r.
  - by rewrite app_nil_r.
  - by rewrite app_nil_r.
  - by rewrite app_nil_r.
Qed.

Lemma fold_classify_images b (tasks : list (@task hit)) :
  all_images (foldl classify b tasks) = all_images b ++ flat_map imgs_of tasks.
Proof.
  revert b. induction tasks as [|t tasks IH]; intros b.
  - cbn. by rewrite app_nil_r.
  - cbn [foldl flat_map]. by rewrite IH, classify_images, app_assoc.
Qed.

Lemma classify_texts b (t : @task hit) :
  models_data (classify b t) = models_data b ++ option_list (model_text t)
  ∧ url_contents (classify b t) = url_contents b ++ option_list (url_text t).
Proof.
  destruct t as [k [[text imgs]|] | k [r|] | [r|]]; cbn;
    rewrite ?app_nil_r; try done.
  - destruct (nonempty text); cbn; by rewrite ?app_nil_r.
  - destruct (nonempty r); cbn; by rewrite ?app_nil_r.
Qed.

Lemma fold_classify_texts b (tasks : list (@task hit)) :
  models_data (foldl classify b tasks) = models_data b ++ omap model_text tasks
  ∧ url_contents (foldl classify b tasks) = url_contents b ++ omap url_text tasks.
Proof.
  revert b. induction tasks as [|t tasks IH]; intros b.
  - cbn. by rewrite !app_nil_r.
  - cbn [foldl]. destruct (IH (classify b t)) as [-> ->].
    destruct (classify_texts b t) as [-> ->].
    rewrite <- !app_assoc. split; f_equal.
    + cbn [omap list_omap]. by destruct (model_text t).
    + cbn [omap list_omap]. by destruct (url_text t).
Qed.

Lemma classify_hits b (t : @task hit) :
  search_results (classify b t) = default (search_results b) (web_hits t).
Proof.
  destruct t as [k [[text imgs]|] | k [r|] | [r|]]; cbn; try done.
  by destruct (nonempty r).
Qed.

Lemma fold_classify_hits b (tasks : list (@task hit)) :
  search_results (foldl classify b tasks)
  = default (search_results b) (last (omap web_hits tasks)).
Proof.
  revert b. induction tasks as [|t tasks IH]; intros b; [done|].
  cbn [foldl]. rewrite IH, classify_hits. cbn [omap list_omap].
  destruct (web_hits t) as [hits|]; [|done].
  rewrite last_cons. by destruct (last (omap web_hits tasks)).
Qed.

(** What the aggregator returns, as a function of what the tasks hand
    over. *)
Lemma gather_content (tasks : list (@task hit)) :
  gather format_results tasks
  = {| hf_context :=
         match omap model_text tasks with
         | [] => None
         | d :: ds =>
             Some (join BLANK_LINE
                     (take 4 (unique_by (before_first LF) ∅ [] (d :: ds))))
         end;
       url_context :=
         match omap url_text tasks with
         | [] => None
         | p :: ps => Some (join BLANK_LINE (p :: ps))
         end;
       web_context :=
         match last (omap web_hits tasks) with
         | Some (h :: hs) => Some (format_results (h :: hs))
         | _ => None
         end;
       image_urls := take 3 (flat_map imgs_of tasks) |}.
Proof.
  unfold gather, assemble.
  destruct (fold_classify_texts no_buckets tasks) as [-> ->].
  rewrite fold_classify_hits, fold_classify_images.
  cbn [no_buckets models_data url_contents search_results all_images app].
  destruct (omap model_text tasks), (omap url_text tasks),
    (last (omap web_hits tasks)) as [[|h hs]|]; done.
Qed.

(** A task that failed leaves the buckets as they are; for a web task
    that returned no hit this needs that no hit was there before. *)
Lemma classify_of_failed b (t : @task hit) :
  failed t = true →
  web_hits t = None ∨ search_results b = [] →
  classify b t = b.
Proof.
  destruct t as [k [[[text|] [|img imgs]]|] | k [[r|]|] | [[|h hs]|]];
    cbn; try done.
  - intros _ _. by destruct b.
  - intros _ [?|Hb]; [done|]. destruct b. cbn in *. by subst.
Qed.

(** C7. Awaiting and merging is a total function of the slots: whatever
    subset of the tasks raised, a context comes back. It is the context
    of the tasks that returned, in their order, so a task that raised
    leaves no trace in it, and the other tasks' contributions are what
    they would have been without it; when every task raised, every part
    of the context is absent.

    What comes back is made of what the tasks handed over: the model
    context of the texts of the model and search tasks, the page context
    of all the texts of the page tasks, the web context of the hits of
    the web task, the images of the first three images in task order. So
    a task that handed over a text has the context of its kind present,
    and the first text of each kind opens that context. A task that
    failed, be it that an exception left it or that its own handler
    caught the exception and returned the empty value, hands over
    nothing, and the context is the one that comes back without it. *)
Theorem gather_merges_successful_tasks_only (tasks : list (@task hit)) :
  gather format_results tasks = gather format_results (filter (λ t, succeeded t = true) tasks)
  ∧ (∀ before after t,
       tasks = before ++ t :: after → succeeded t = false →
       gather format_results tasks = gather format_results (before ++ after))
  ∧ ((∀ t, t ∈ tasks → succeeded t = false) →
       gather format_results tasks = {| hf_context := None; url_context := None;
                         web_context := None; image_urls := [] |})
  ∧ gather format_results tasks
    = {| hf_context :=
           match omap model_text tasks with
           | [] => None
           | d :: ds =>
               Some (join BLANK_LINE
                       (take 4 (unique_by (before_first LF) ∅ [] (d :: ds))))
           end;
         url_context :=
           match omap url_text tasks with
           | [] => None
           | p :: ps => Some (join BLANK_LINE (p :: ps))
           end;
         web_context :=
           match last (omap web_hits tasks) with
           | Some (h :: hs) => Some (format_results (h :: hs))
           | _ => None
           end;
         image_urls := take 3 (flat_map imgs_of tasks) |}
  ∧ (∀ t d, t ∈ tasks → model_text t = Some d →
       ∃ first blocks,
         head (omap model_text tasks) = Some first
         ∧ hf_context (gather format_results tasks)
           = Some (join BLANK_LINE (first :: blocks)))
  ∧ (∀ t p, t ∈ tasks → url_text t = Some p →
       ∃ pages,
         p ∈ pages
         ∧ url_context (gather format_results tasks)
           = Some (join BLANK_LINE pages))
  ∧ (∀ t : @task hit, failed t = true →
       model_text t = None ∧ url_text t = None ∧ imgs_of t = []
       ∧ (web_hits t = None ∨ web_hits t = Some []))
  ∧ (∀ before after t,
       tasks = before ++ t :: after → failed t = true →
       (web_hits t = None ∨ ∀ t', t' ∈ before → web_hits t' = None) →
       gather format_results tasks = gather format_results (before ++ after))
  ∧ ((∀ t, t ∈ tasks → failed t = true) →
       gather format_results tasks = {| hf_context := None; url_context := None;
                         web_context := None; image_urls := [] |}).
Proof.
  split; [|split; [|split; [|split; [|split; [|split; [|split; [|split]]]]]]].
  - unfold Handlers.gather. by rewrite fold_classify_succeeded.
  - unfold Handlers.gather. intros before after t -> Ht.
    rewrite !foldl_app. cbn [foldl]. by rewrite classify_failed.
  - unfold Handlers.gather. intros Hall. by rewrite fold_classify_all_failed.
  - apply gather_content.
  - intros t d Ht Hd. rewrite gather_content. cbn [hf_context].
    assert (d ∈ omap model_text tasks) as Hin.
    { apply list_elem_of_omap. by exists t. }
    destruct (omap model_text tasks) as [|first ds]; [by apply elem_of_nil in Hin|].
    exists first. rewrite unique_by_cons.
    rewrite decide_False; [|apply not_elem_of_empty]. cbn [take].
    by eexists.
  - intros t p Ht Hp. rewrite gather_content. cbn [url_context].
    assert (p ∈ omap url_text tasks) as Hin.
    { apply list_elem_of_omap. by exists t. }
    destruct (omap url_text tasks) as [|p0 ps]; [by apply elem_of_nil in Hin|].
    by exists (p0 :: ps).
  - intros t Ht.
    destruct t as [k [[[text|] [|img imgs]]|] | k [[r|]|] | [[|h hs]|]];
      cbn in *; try done; repeat split; (by left) || (by right).
  - intros before after t -> Ht Hweb. unfold Handlers.gather.
    rewrite !foldl_app. cbn [foldl]. rewrite classify_of_failed; [done|done|].
    destruct Hweb as [?|Hbefore]; [by left|right].
    rewrite fold_classify_hits. cbn [no_buckets search_results].
    assert (omap web_hits before = []) as ->; [|done].
    clear -Hbefore. induction before as [|t' before IH]; [done|].
    cbn [omap list_omap]. rewrite (Hbefore t'); [|left].
    apply IH. intros t'' Ht''. apply Hbefore. by right.
  - intros Hall. rewrite gather_content.
    assert (omap model_text tasks = [] ∧ omap url_text tasks = []
            ∧ flat_map imgs_of tasks = []
            ∧ (last (omap web_hits tasks) = None
               ∨ last (omap web_hits tasks) = Some [])) as (-> & -> & -> & Hw).
    { clear -Hall. induction tasks as [|t tasks IH].
      - repeat split; by left.
      - destruct IH as (IH1 & IH2 & IH3 & IH4).
        { intros t' Ht'. apply Hall. by right. }
        assert (failed t = true) as Ht by (apply Hall; left).
        cbn [omap list_omap flat_map]. rewrite IH1, IH2, IH3.
        destruct t as [k [[[text|] [|img imgs]]|] | k [[r|]|] | [[|h hs]|]];
          cbn in *; try done; repeat split; try done.
        rewrite last_cons. destruct IH4 as [->| ->]; by right. }
    cbn [take]. by destruct Hw as [->| ->].
Qed.

End Gather.

Lemma gather_merges_successful_tasks_only_witness :
  gather (λ hits : list string, join "; " hits)
    [ ModelTask KModel (Returned (Some "ID: org/a", []));
      UrlTask KArxiv Raised;
      WebTask (Returned ["hit"]) ]
  = gather (λ hits : list string, join "; " hits)
      [ ModelTask KModel (Returned (Some "ID: org/a", []));
        WebTask (Returned ["hit"]) ].
Proof.
  apply (proj1 (proj2 (gather_merges_successful_tasks_only
                         (λ hits : list string, join "; " hits)
                         [ ModelTask KModel (Returned (Some "ID: org/a", []));
                           UrlTask KArxiv Raised;
                           WebTask (Returned ["hit"]) ]))
           [ModelTask KModel (Returned (Some "ID: org/a", []))]
           [WebTask (Returned ["hit"])]
           (UrlTask KArxiv Raised)); reflexivity.
Defined.

(** *** The images *)

Lemma normalize_spec model_id raw :
  normalize model_id raw
  = absolute model_id
    <$> filter (λ u, mentions DECORATIVE u = false) (strip <$> raw).
Proof.
  induction raw as [|r raw IH]; [done|].
  cbn [normalize]. rewrite fmap_cons.
  destruct (mentions DECORATIVE (strip r)) eqn:Hd.
  - rewrite filter_cons_False; [done|]. by rewrite Hd.
  - rewrite filter_cons_True; [|done]. rewrite fmap_cons. by rewrite IH.
Qed.

Lemma sublist_of_ranked (l rel oth : list string) :
  l `sublist_of` rel ++ oth →
  ∃ l1 l2, l = l1 ++ l2 ∧ l1 `sublist_of` rel ∧ l2 `sublist_of` oth.
Proof. intros H. apply sublist_app_r in H as (l1 & l2 & -> & ? & ?). eauto. Qed.

Lemma prioritise_spec raw model_id max_images :
  let imgs := prioritise raw model_id max_images in
  NoDup imgs
  ∧ length imgs ≤ max_images
  ∧ (∀ u, u ∈ imgs →
       ∃ r, r ∈ raw ∧ mentions DECORATIVE (strip r) = false
            ∧ u = absolute model_id (strip r))
  ∧ ∃ rel oth, imgs = rel ++ oth
      ∧ (∀ u, u ∈ rel → mentions _RELEVANT_IMG_KW u = true)
      ∧ (∀ u, u ∈ oth → mentions _RELEVANT_IMG_KW u = false).
Proof.
  intros imgs. subst imgs. unfold prioritise.
  set (normalized := normalize model_id raw).
  set (relevant := filter (λ url, mentions _RELEVANT_IMG_KW url = true) normalized).
  set (others := filter (λ url, mentions _RELEVANT_IMG_KW url = false) normalized).
  assert (take max_images (unique_by (λ url, url) ∅ [] (relevant ++ others))
          `sublist_of` relevant ++ others) as Hsub.
  { etrans; [apply sublist_take|apply unique_by_sublist]. }
  split; [|split; [|split]].
  - eapply sublist_NoDup; [apply unique_by_id_NoDup|apply sublist_take].
  - rewrite length_take. lia.
  - intros u Hu. eapply elem_of_sublist in Hu; [|exact Hsub].
    assert (u ∈ normalized) as Hn.
    { apply elem_of_app in Hu as [Hu|Hu];
        by apply list_elem_of_filter in Hu as [_ ?]. }
    subst normalized. rewrite normalize_spec in Hn.
    apply list_elem_of_fmap in Hn as (s' & -> & Hs).
    apply list_elem_of_filter in Hs as [Hdec Hs].
    apply list_elem_of_fmap in Hs as (r & -> & Hr). eauto.
  - apply sublist_of_ranked in Hsub as (l1 & l2 & -> & H1 & H2).
    exists l1, l2. split; [done|]. split; intros u Hu.
    + eapply elem_of_sublist in Hu; [|exact H1].
      by apply list_elem_of_filter in Hu as [? _].
    + eapply elem_of_sublist in Hu; [|exact H2].
      by apply list_elem_of_filter in Hu as [? _].
Qed.

(** C8, as the code has it. The ranking is done per README: the list
    [_extract_images] returns for one README has no repetition, has at
    most [max_images] entries, holds only matches whose own text,
    stripped and lowered, names no decorative asset (made absolute
    afterwards), and has the entries with a result keyword before the
    others. The aggregated context takes the first three of these lists
    put end to end in task order, so it holds at most 3 URLs. *)
Theorem images_ranked_per_readme_capped_overall :
  (∀ findall readme model_id max_images,
     let imgs := _extract_images findall readme model_id max_images in
     NoDup imgs
     ∧ length imgs ≤ max_images
     ∧ (∀ u, u ∈ imgs →
          ∃ r, r ∈ raw_matches findall readme
               ∧ mentions DECORATIVE (strip r) = false
               ∧ u = absolute model_id (strip r))
     ∧ ∃ rel oth, imgs = rel ++ oth
         ∧ (∀ u, u ∈ rel → mentions _RELEVANT_IMG_KW u = true)
         ∧ (∀ u, u ∈ oth → mentions _RELEVANT_IMG_KW u = false))
  ∧ (∀ (hit : Type) (format_results : list hit → string) tasks,
       image_urls (gather format_results tasks) = take 3 (flat_map imgs_of tasks)
       ∧ length (image_urls (gather format_results tasks)) ≤ 3).
Proof.
  split.
  - intros findall readme model_id max_images. apply prioritise_spec.
  - intros hit format_results tasks. unfold gather, assemble. cbn [image_urls].
    rewrite fold_classify_images. cbn [all_images no_buckets app].
    split; [done|]. rewrite length_take. lia.
Qed.

(** C8, as stated, fails across tasks: two models whose READMEs show the
    same chart give the context that chart twice, and a model with a
    plain photo queried before one with a chart puts the photo first. *)
Lemma aggregated_images_repeat_and_misorder :
  image_urls (gather (λ _, "") [readme_task CHART "org/a"; readme_task CHART "org/b"])
    = [CHART; CHART]
  ∧ ¬ NoDup (image_urls (gather (λ _, "")
               [readme_task CHART "org/a"; readme_task CHART "org/b"]))
  ∧ image_urls (gather (λ _, "") [readme_task PHOTO "org/a"; readme_task CHART "org/b"])
    = [PHOTO; CHART]
  ∧ mentions _RELEVANT_IMG_KW PHOTO = false
  ∧ mentions _RELEVANT_IMG_KW CHART = true.
Proof.
  split; [vm_compute; reflexivity|]. split; [|by vm_compute].
  assert (image_urls (gather (λ _ : list unit, "")
            [readme_task CHART "org/a"; readme_task CHART "org/b"])
          = [CHART; CHART]) as -> by (vm_compute; reflexivity).
  intros H. apply NoDup_cons in H as [H _]. apply H. left.
Qed.

(** The filter reads the match, not the URL made of it: a relative path
    in the README of a repository whose name has "icon" in it passes, and
    the URL handed on names "icon". *)
Example decorative_word_from_repository :
  prioritise ["fig.png"] "lexicon/m" 3
  = ["https://huggingface.co/lexicon/m/resolve/main/fig.png"]
  ∧ mentions DECORATIVE "https://huggingface.co/lexicon/m/resolve/main/fig.png"
    = true.
Proof. split; vm_compute; reflexivity. Qed.

(** Five tasks of which two raised: the context is built from the other
    three. *)
Example gather_five_tasks_two_failed :
  gather (λ hits : list string, join "; " hits)
    [ ModelTask KModel (Returned (Some "ID: org/a", []));
      ModelTask KSearch Raised;
      UrlTask KUrl (Returned (Some "page text"));
      UrlTask KArxiv Raised;
      WebTask (Returned ["hit"]) ]
  = {| hf_context := Some "ID: org/a"; url_context := Some "page text";
       web_context := Some "hit"; image_urls := [] |}.
Proof. reflexivity. Qed.

(** The same five tasks, the two failures caught by the tasks' own
    handlers: the search returned [(None, [])], the page [None]. *)
Example gather_five_tasks_two_caught :
  gather (λ hits : list string, join "; " hits)
    [ ModelTask KModel (Returned (Some "ID: org/a", []));
      ModelTask KSearch (Returned (None, []));
      UrlTask KUrl (Returned (Some "page text"));
      UrlTask KArxiv (Returned None);
      WebTask (Returned ["hit"]) ]
  = {| hf_context := Some "ID: org/a"; url_context := Some "page text";
       web_context := Some "hit"; image_urls := [] |}.
Proof. reflexivity. Qed.

End GatherSpec.

(* ===================================================================== *)
(** ** The duel session: evaluation against expiry *)
(* ===================================================================== *)

Module DuelSpec.
Import Handlers.

Lemma filter_jobs_self chat_id :
  filter (λ j, j ≠ BattleReminder chat_id ∧ j ≠ BattleTimeout chat_id)
         [BattleTimeout chat_id] = [].
Proof. rewrite filter_cons_False; [done|]. by intros [_ ?]. Qed.

Lemma filter_job_self (j : job) : filter (λ j', j' ≠ j) [j] = [].
Proof. rewrite filter_cons_False; [done|]. by intros ?. Qed.

(** *** The steps, one by one *)

Lemma message_finds_session chat_id b jobs out rem :
  run_step {| the_bot := bot_of {[ chat_id := b ]} jobs out; evaluating := None;
              reminding := rem |}
           (MessageArrives chat_id)
  = {| the_bot := bot_of {[ chat_id := b ]} jobs (out ++ [(chat_id, Checking)]);
       evaluating := Some (chat_id, b); reminding := rem |}.
Proof.
  unfold run_step, evaluate_begin, bot_of.
  cbn [the_bot evaluating reminding battles job_queue outbox].
  by rewrite lookup_singleton_eq.
Qed.

Lemma message_finds_nothing chat_id jobs out rem :
  run_step {| the_bot := bot_of ∅ jobs out; evaluating := None; reminding := rem |}
           (MessageArrives chat_id)
  = {| the_bot := bot_of ∅ jobs out; evaluating := None; reminding := rem |}.
Proof.
  unfold run_step, evaluate_begin, bot_of.
  cbn [the_bot evaluating reminding battles job_queue outbox].
  by rewrite lookup_empty.
Qed.

Lemma timeout_finds_session chat_id b out ev rem :
  run_step {| the_bot := bot_of {[ chat_id := b ]} [BattleTimeout chat_id] out;
              evaluating := ev; reminding := rem |}
           (Fire (BattleTimeout chat_id))
  = {| the_bot := bot_of ∅ [] (out ++ [(chat_id, TimedOut)]);
       evaluating := ev; reminding := rem |}.
Proof.
  unfold run_step, fire, bot_of.
  cbn [the_bot evaluating reminding battles job_queue outbox].
  rewrite bool_decide_eq_true_2; [|left]. rewrite filter_job_self.
  unfold _battle_final_timeout, send.
  cbn [the_bot evaluating reminding battles job_queue outbox].
  by rewrite lookup_singleton_eq, delete_singleton_eq.
Qed.

Lemma timeout_not_queued chat_id bs out ev rem :
  run_step {| the_bot := bot_of bs [] out; evaluating := ev; reminding := rem |}
           (Fire (BattleTimeout chat_id))
  = {| the_bot := bot_of bs [] out; evaluating := ev; reminding := rem |}.
Proof.
  unfold run_step, fire, bot_of.
  cbn [the_bot evaluating reminding battles job_queue outbox].
  rewrite bool_decide_eq_false_2; [done|]. by intros ?%elem_of_nil.
Qed.

Lemma evaluation_finds_session chat_id b evaluation out rem :
  run_step {| the_bot := bot_of {[ chat_id := b ]} [BattleTimeout chat_id] out;
              evaluating := Some (chat_id, b); reminding := rem |}
           (EvaluationDone chat_id evaluation)
  = {| the_bot := bot_of ∅ [] (out ++ [(chat_id, verdict evaluation)]);
       evaluating := None; reminding := rem |}.
Proof.
  unfold run_step. cbn [the_bot evaluating reminding].
  rewrite decide_True; [|done].
  unfold evaluate_finish, send, bot_of.
  cbn [the_bot evaluating reminding battles job_queue outbox].
  by rewrite lookup_singleton_eq, delete_singleton_eq, filter_jobs_self.
Qed.

Lemma evaluation_finds_nothing chat_id b evaluation out rem :
  run_step {| the_bot := bot_of ∅ [] out; evaluating := Some (chat_id, b);
              reminding := rem |}
           (EvaluationDone chat_id evaluation)
  = {| the_bot := bot_of ∅ [] (out ++ [(chat_id, verdict evaluation)]);
       evaluating := None; reminding := rem |}.
Proof.
  unfold run_step. cbn [the_bot evaluating reminding].
  rewrite decide_True; [|done].
  unfold evaluate_finish, send, bot_of.
  cbn [the_bot evaluating reminding battles job_queue outbox].
  by rewrite lookup_empty.
Qed.

Lemma evaluation_not_begun chat_id evaluation st rem :
  run_step {| the_bot := st; evaluating := None; reminding := rem |}
           (EvaluationDone chat_id evaluation)
  = {| the_bot := st; evaluating := None; reminding := rem |}.
Proof. done. Qed.

Lemma messages_in_own chat_id bs jobs (ms : list message) :
  messages_in chat_id (bot_of bs jobs ((λ m, (chat_id, m)) <$> ms)) = ms.
Proof.
  unfold messages_in, bot_of. cbn [outbox].
  induction ms as [|m ms IH]; [done|].
  csimpl. rewrite filter_cons_True; [|done]. csimpl. by rewrite IH.
Qed.

Lemma verdict_is_result evaluation :
  is_result (verdict evaluation) = true ∧ is_timeout (verdict evaluation) = false.
Proof. by destruct evaluation as [[|c s]|]. Qed.

(** The evaluation runs to its end before the time-out job is due: the
    verdict is sent, the job is taken off the queue and never runs. *)
Lemma evaluation_first chat_id b evaluation :
  let w := run (awaiting_answer chat_id b)
             [ MessageArrives chat_id; EvaluationDone chat_id evaluation;
               Fire (BattleTimeout chat_id) ] in
  results_in chat_id (the_bot w) = [verdict evaluation]
  ∧ timeouts_in chat_id (the_bot w) = []
  ∧ battles (the_bot w) !! chat_id = None.
Proof.
  unfold run, awaiting_answer. cbn [foldl].
  change {| battles := {[ chat_id := b ]}; job_queue := [BattleTimeout chat_id];
            outbox := [] |}
    with (bot_of {[ chat_id := b ]} [BattleTimeout chat_id] []).
  rewrite message_finds_session. cbn [app].
  rewrite evaluation_finds_session, timeout_not_queued.
  cbn [the_bot app]. unfold results_in, timeouts_in.
  rewrite (messages_in_own chat_id ∅ [] [Checking; verdict evaluation]).
  destruct (verdict_is_result evaluation) as [Hr Ht].
  rewrite filter_cons_False; [|done]. rewrite filter_cons_True; [|done].
  rewrite filter_cons_False; [|done]. rewrite filter_cons_False; [|by rewrite Ht].
  done.
Qed.

(** The time-out runs before a message reaches the battle branch: the
    notice is sent, and the message finds no session to evaluate. *)
Lemma expiry_first chat_id b evaluation :
  let w := run (awaiting_answer chat_id b)
             [ Fire (BattleTimeout chat_id); MessageArrives chat_id;
               EvaluationDone chat_id evaluation ] in
  results_in chat_id (the_bot w) = []
  ∧ timeouts_in chat_id (the_bot w) = [TimedOut]
  ∧ battles (the_bot w) !! chat_id = None.
Proof.
  unfold run, awaiting_answer. cbn [foldl].
  change {| battles := {[ chat_id := b ]}; job_queue := [BattleTimeout chat_id];
            outbox := [] |}
    with (bot_of {[ chat_id := b ]} [BattleTimeout chat_id] []).
  rewrite timeout_finds_session, message_finds_nothing, evaluation_not_begun.
  cbn [the_bot app]. unfold results_in, timeouts_in.
  rewrite (messages_in_own chat_id ∅ [] [TimedOut]).
  rewrite filter_cons_False; [|done]. rewrite filter_cons_True; [|done].
  done.
Qed.

Lemma reminder_finds_session chat_id b out ev :
  run_step {| the_bot := bot_of {[ chat_id := b ]} [BattleReminder chat_id] out;
              evaluating := ev; reminding := [] |}
           (Fire (BattleReminder chat_id))
  = {| the_bot := bot_of {[ chat_id := b ]} [] (out ++ [(chat_id, Reminder)]);
       evaluating := ev; reminding := [chat_id] |}.
Proof.
  unfold run_step, fire, bot_of.
  cbn [the_bot evaluating reminding battles job_queue outbox].
  rewrite bool_decide_eq_true_2; [|left]. rewrite filter_job_self.
  unfold _battle_reminder, send.
  cbn [the_bot evaluating reminding battles job_queue outbox].
  by rewrite lookup_singleton_eq.
Qed.

Lemma reminder_send_returns chat_id bs out ev :
  run_step {| the_bot := bot_of bs [] out; evaluating := ev;
              reminding := [chat_id] |}
           (ReminderSent chat_id)
  = {| the_bot := bot_of bs [BattleTimeout chat_id] out; evaluating := ev;
       reminding := [] |}.
Proof.
  unfold run_step, _battle_reminder_resume, bot_of.
  cbn [the_bot evaluating reminding battles job_queue outbox app].
  rewrite bool_decide_eq_true_2; [|left]. f_equal.
  cbn. destruct (decide_rel elem_of chat_id [chat_id]) as [|Hn]; [done|].
  destruct Hn. left.
Qed.

(** A duel nobody answers: the reminder fires and nudges, its send
    returns and the final time-out is queued, the time-out fires, deletes
    the session and gives notice. *)
Lemma unanswered_duel_expires chat_id b :
  let w := run (just_started chat_id b)
             [ Fire (BattleReminder chat_id); ReminderSent chat_id;
               Fire (BattleTimeout chat_id) ] in
  outbox (the_bot w) = [ (chat_id, Reminder); (chat_id, TimedOut) ]
  ∧ battles (the_bot w) !! chat_id = None
  ∧ job_queue (the_bot w) = [].
Proof.
  unfold run, just_started. cbn [foldl].
  change {| battles := {[ chat_id := b ]}; job_queue := [BattleReminder chat_id];
            outbox := [] |}
    with (bot_of {[ chat_id := b ]} [BattleReminder chat_id] []).
  rewrite reminder_finds_session, reminder_send_returns, timeout_finds_session.
  unfold bot_of. cbn [the_bot battles job_queue outbox app].
  split; [done|]. split; [apply lookup_empty|done].
Qed.

(** The answer is evaluated while the reminder awaits its send: the
    reminder then queues a time-out for a session that is gone, and the
    time-out, when it fires, finds nothing and keeps silent. *)
Lemma evaluation_during_reminder chat_id b evaluation :
  let w := run (just_started chat_id b)
             [ Fire (BattleReminder chat_id); MessageArrives chat_id;
               EvaluationDone chat_id evaluation; ReminderSent chat_id;
               Fire (BattleTimeout chat_id) ] in
  results_in chat_id (the_bot w) = [verdict evaluation]
  ∧ timeouts_in chat_id (the_bot w) = [].
Proof.
  unfold run, just_started. cbn [foldl].
  change {| battles := {[ chat_id := b ]}; job_queue := [BattleReminder chat_id];
            outbox := [] |}
    with (bot_of {[ chat_id := b ]} [BattleReminder chat_id] []).
  rewrite reminder_finds_session, message_finds_session. cbn [app].
  assert (run_step
            {| the_bot := bot_of {[ chat_id := b ]} []
                            [(chat_id, Reminder); (chat_id, Checking)];
               evaluating := Some (chat_id, b); reminding := [chat_id] |}
            (EvaluationDone chat_id evaluation)
          = {| the_bot := bot_of ∅ []
                            [(chat_id, Reminder); (chat_id, Checking);
                             (chat_id, verdict evaluation)];
               evaluating := None; reminding := [chat_id] |}) as ->.
  { unfold run_step. cbn [the_bot evaluating reminding].
    rewrite decide_True; [|done]. unfold evaluate_finish, send, bot_of.
    cbn [the_bot evaluating reminding battles job_queue outbox app].
    by rewrite lookup_singleton_eq, delete_singleton_eq. }
  rewrite reminder_send_returns.
  assert (run_step
            {| the_bot := bot_of ∅ [BattleTimeout chat_id]
                            [(chat_id, Reminder); (chat_id, Checking);
                             (chat_id, verdict evaluation)];
               evaluating := None; reminding := [] |}
            (Fire (BattleTimeout chat_id))
          = {| the_bot := bot_of ∅ []
                            [(chat_id, Reminder); (chat_id, Checking);
                             (chat_id, verdict evaluation)];
               evaluating := None; reminding := [] |}) as ->.
  { unfold run_step, fire, bot_of.
    cbn [the_bot evaluating reminding battles job_queue outbox].
    rewrite bool_decide_eq_true_2; [|left]. rewrite filter_job_self.
    unfold _battle_final_timeout.
    cbn [the_bot evaluating reminding battles job_queue outbox].
    by rewrite lookup_empty. }
  cbn [the_bot]. unfold results_in, timeouts_in.
  rewrite (messages_in_own chat_id ∅ [] [Reminder; Checking; verdict evaluation]).
  destruct (verdict_is_result evaluation) as [Hr Ht]. split.
  - do 2 (rewrite filter_cons_False; [|done]). by rewrite filter_cons_True.
  - do 2 (rewrite filter_cons_False; [|done]).
    rewrite filter_cons_False; [done|]. by rewrite Ht.
Qed.

(** C1 fails when the time-out job fires while the evaluation awaits the
    language model. The message found the session and the coroutine holds
    it; the time-out finds it too, deletes it and sends its notice; the
    evaluation comes back, finds nothing to delete, and sends the verdict
    all the same. The chat gets both messages. *)
Theorem expiry_during_evaluation_sends_both chat_id b evaluation :
  let w := run (awaiting_answer chat_id b)
             [ MessageArrives chat_id; Fire (BattleTimeout chat_id);
               EvaluationDone chat_id evaluation ] in
  results_in chat_id (the_bot w) = [verdict evaluation]
  ∧ timeouts_in chat_id (the_bot w) = [TimedOut]
  ∧ outbox (the_bot w)
    = [ (chat_id, Checking); (chat_id, TimedOut); (chat_id, verdict evaluation) ].
Proof.
  unfold run, awaiting_answer. cbn [foldl].
  change {| battles := {[ chat_id := b ]}; job_queue := [BattleTimeout chat_id];
            outbox := [] |}
    with (bot_of {[ chat_id := b ]} [BattleTimeout chat_id] []).
  rewrite message_finds_session. cbn [app].
  rewrite timeout_finds_session, evaluation_finds_nothing.
  cbn [the_bot app]. split; [|split; [|done]]; unfold results_in, timeouts_in;
    rewrite (messages_in_own chat_id ∅ [] [Checking; TimedOut; verdict evaluation]);
    destruct (verdict_is_result evaluation) as [Hr Ht].
  - rewrite filter_cons_False; [|done]. rewrite filter_cons_False; [|done].
    by rewrite filter_cons_True.
  - rewrite filter_cons_False; [|done]. rewrite filter_cons_True; [|done].
    rewrite filter_cons_False; [done|]. by rewrite Ht.
Qed.

End DuelSpec.

(* ===================================================================== *)
(** ** More facts about the string helpers *)
(* ===================================================================== *)

Module PyStrMore.
Import PyStr PyStrFacts.

Lemma append_nil_l (s : string) : EmptyString +:+ s = s.
Proof. done. Qed.

Lemma append_cons c (a b : string) : String c a +:+ b = String c (a +:+ b).
Proof. done. Qed.

Lemma contains_cons_char c s d :
  contains (String c s) (String d EmptyString)
  = (Ascii.eqb d c || contains s (String d EmptyString))%bool.
Proof.
  change (contains (String c s) (String d EmptyString))
    with (if startswith (String c s) (String d EmptyString) then true
          else contains s (String d EmptyString)).
  cbn [startswith]. destruct (Ascii.eqb d c); [|done]. by destruct s.
Qed.

Lemma span_until_stop stop u rest :
  contains u (String stop EmptyString) = false →
  span_until stop (u +:+ String stop rest) = (u, String stop rest).
Proof.
  induction u as [|c u IH]; intros Hno.
  - rewrite append_nil_l. cbn [span_until]. by rewrite Ascii.eqb_refl.
  - rewrite contains_cons_char in Hno. apply orb_false_iff in Hno as [Hc Hu].
    rewrite append_cons. cbn [span_until]. rewrite Ascii.eqb_sym, Hc.
    by rewrite (IH Hu).
Qed.

Lemma span_until_spec stop s run rest :
  span_until stop s = (run, rest) →
  s = run +:+ rest
  ∧ contains run (String stop EmptyString) = false
  ∧ (rest = EmptyString ∨ ∃ rest', rest = String stop rest').
Proof.
  revert run rest. induction s as [|c s IH]; intros run rest.
  - cbn. intros [= <- <-]. split; [done|]. split; [done|by left].
  - cbn [span_until]. destruct (Ascii.eqb_spec c stop) as [->|Hne].
    + intros [= <- <-]. split; [done|]. split; [done|]. right. by eexists.
    + destruct (span_until stop s) as [run' rest'] eqn:Hs.
      intros [= <- <-]. destruct (IH _ _ eq_refl) as (-> & Hno & Hrest).
      split; [done|]. split; [|done]. rewrite contains_cons_char, Hno.
      by destruct (Ascii.eqb_spec stop c) as [->|].
Qed.

Lemma string_length_app (a b : string) :
  String.length (a +:+ b) = String.length a + String.length b.
Proof. induction a as [|c a IH]; [done|]. rewrite append_cons. cbn. by rewrite IH. Qed.

Lemma startswith_app p s : startswith (p +:+ s) p = true.
Proof.
  induction p as [|c p IH]; [by destruct s|].
  rewrite append_cons. cbn [startswith]. by rewrite Ascii.eqb_refl.
Qed.

Lemma append_nil_r (s : string) : s +:+ EmptyString = s.
Proof. induction s as [|c s IH]; [done|]. by rewrite append_cons, IH. Qed.

Lemma append_assoc (a b c : string) : (a +:+ b) +:+ c = a +:+ (b +:+ c).
Proof. induction a as [|x a IH]; [done|]. by rewrite !append_cons, IH. Qed.

Lemma contains_app_char (a b : string) c :
  contains (a +:+ b) (String c EmptyString)
  = (contains a (String c EmptyString) || contains b (String c EmptyString))%bool.
Proof.
  induction a as [|x a IH]; [done|].
  rewrite append_cons, !contains_cons_char, IH. by rewrite orb_assoc.
Qed.

Lemma after_first_spec sep s rest :
  after_first sep s = Some rest → s = before_first sep s +:+ String sep rest.
Proof.
  induction s as [|c s IH]; [done|]. cbn [after_first before_first].
  destruct (Ascii.eqb_spec c sep) as [->|Hne].
  - by intros [= ->].
  - intros H. rewrite append_cons. by rewrite <- (IH H).
Qed.

Lemma after_first_none sep s :
  after_first sep s = None →
  before_first sep s = s ∧ contains s (String sep EmptyString) = false.
Proof.
  induction s as [|c s IH]; [done|]. cbn [after_first before_first].
  rewrite contains_cons_char, (Ascii.eqb_sym sep c).
  destruct (Ascii.eqb c sep); [done|].
  intros [-> ->]%IH. done.
Qed.

Lemma before_first_no_sep sep s :
  contains (before_first sep s) (String sep EmptyString) = false.
Proof.
  induction s as [|c s IH]; [done|]. cbn [before_first].
  destruct (Ascii.eqb c sep) eqn:Hc; [done|].
  by rewrite contains_cons_char, (Ascii.eqb_sym sep c), Hc, IH.
Qed.

Lemma before_first_app sep (a b : string) :
  contains a (String sep EmptyString) = false →
  before_first sep (a +:+ b) = a +:+ before_first sep b.
Proof.
  induction a as [|c a IH]; [done|].
  rewrite contains_cons_char. intros [Hc Ha]%orb_false_iff.
  rewrite !append_cons. cbn [before_first].
  by rewrite (Ascii.eqb_sym c sep), Hc, (IH Ha).
Qed.

(** The first line of lines joined by line feeds is the first of them,
    when it has no line feed of its own. *)
Lemma before_first_join sep h (rest : list string) :
  contains h (String sep EmptyString) = false →
  before_first sep (join (String sep EmptyString) (h :: rest)) = h.
Proof.
  intros Hh. destruct rest as [|r rest].
  - cbn [join]. rewrite <- (append_nil_r h) at 1.
    rewrite before_first_app; [|done]. cbn. apply append_nil_r.
  - change (join (String sep EmptyString) (h :: r :: rest))
      with (h +:+ String sep EmptyString
              +:+ join (String sep EmptyString) (r :: rest)).
    rewrite before_first_app; [|done]. rewrite append_cons. cbn [before_first].
    rewrite Ascii.eqb_refl. apply append_nil_r.
Qed.

End PyStrMore.

(* ===================================================================== *)
(** ** More about the poll cycle *)
(* ===================================================================== *)

Module MonitoringMore.
Import PyStr Models Monitoring PyStrFacts ModelsFacts MonitoringFacts.

Lemma unique_by_seen_filter (seen : gset string) (xs : list string) :
  unique_by (λ s, s) seen [] xs
  = unique_by (λ s, s) ∅ [] (filter (λ x, x ∉ seen) xs).
Proof.
  assert (∀ (seen seen' : gset string) xs,
            unique_by (λ s, s) (seen ∪ seen') [] xs
            = unique_by (λ s, s) seen' [] (filter (λ x, x ∉ seen) xs)) as Hgen.
  { clear. intros seen seen' xs. revert seen'.
    induction xs as [|x xs IH]; intros seen'; [done|].
    rewrite unique_by_cons. destruct (decide (x ∈ seen)) as [Hs|Hs].
    - rewrite decide_True; [|apply elem_of_union; by left].
      rewrite filter_cons_False; [apply IH|]. by intros ?.
    - rewrite filter_cons_True; [|done]. rewrite unique_by_cons.
      destruct (decide (x ∈ seen')) as [Hs'|Hs'].
      + rewrite decide_True; [apply IH|]. apply elem_of_union. by right.
      + rewrite decide_False.
        2:{ intros [?|?]%elem_of_union; done. }
        f_equal. rewrite <- IH. f_equal.
        apply leibniz_equiv. rewrite (assoc_L (∪)), (comm_L (∪) {[x]} seen).
        by rewrite <- (assoc_L (∪)). }
  rewrite <- (Hgen seen ∅ xs). f_equal. by rewrite (right_id_L ∅ (∪)).
Qed.

(** X1. The deduplication loop keeps the first occurrence of every id, in
    listing order: the result has no repetition and the same members as
    the listing, is a sublist of it, begins with the first id followed by
    the deduplication of the rest without that id, and is the listing
    itself when nothing repeats. *)
Theorem dedup_ids_keeps_first_occurrences :
  ∀ models : list item,
    NoDup (dedup_ids models)
    ∧ (∀ mid, mid ∈ dedup_ids models ↔ mid ∈ id <$> models)
    ∧ dedup_ids models `sublist_of` (id <$> models)
    ∧ (∀ m rest, models = m :: rest →
         dedup_ids models
         = id m :: dedup_ids (filter (λ m', id m' ≠ id m) rest))
    ∧ (NoDup (id <$> models) → dedup_ids models = id <$> models).
Proof.
  intros models. split; [apply dedup_ids_NoDup|].
  split; [apply dedup_ids_elem_of|].
  split; [apply unique_by_sublist|].
  split; [|apply dedup_ids_fixed].
  intros m rest ->. unfold dedup_ids. rewrite fmap_cons, unique_by_cons.
  rewrite decide_False; [|apply not_elem_of_empty]. f_equal.
  rewrite (right_id_L ∅ (∪)), unique_by_seen_filter. f_equal.
  clear. induction rest as [|m' rest IH]; [done|].
  rewrite fmap_cons. destruct (decide (id m' = id m)) as [He|Hne].
  - rewrite filter_cons_False. 2:{ intros Hn. apply Hn, elem_of_singleton, He. }
    rewrite (filter_cons_False _ m'); [done|]. by intros ?.
  - rewrite filter_cons_True. 2:{ by intros ?%elem_of_singleton. }
    rewrite (filter_cons_True _ m'); [|done]. by rewrite fmap_cons, IH.
Qed.

(** *** What a step can do *)

Lemma poll_org_cases a org models :
  poll_org a (org, models) = a
  ∨ (acc_state (poll_org a (org, models))
       = set_org (acc_state a) org (dedup_ids models)
     ∧ acc_changed (poll_org a (org, models)) = true
     ∧ models ≠ []
     ∧ orgs (acc_state a) !! org ≠ Some {[ "models" := dedup_ids models ]}).
Proof.
  destruct models as [|m models]; [by left|].
  destruct (has_state (acc_state a) org) eqn:Hst.
  - destruct (has_state_inv _ _ Hst) as (os & Hos & Hem & Hsm).
    rewrite (poll_org_known a org (m :: models) os); [|done..].
    case_decide as Hd; [by left|right].
    repeat split; [done|]. rewrite Hos. intros [= ->].
    apply Hd. unfold get_models. by rewrite lookup_singleton_eq.
  - right. rewrite poll_org_baseline; [|done..]. repeat split; [done|].
    intros Hos. unfold has_state in Hst. rewrite Hos in Hst.
    apply bool_decide_eq_false in Hst. apply Hst. intros He.
    apply (f_equal (λ m : gmap string (list string), m !! "models")) in He.
    by rewrite lookup_singleton_eq, lookup_empty in He.
Qed.

Lemma set_org_other_fields st org ids :
  chat_users (set_org st org ids) = chat_users st
  ∧ question_bank (set_org st org ids) = question_bank st.
Proof. done. Qed.

Lemma fold_fields rs a :
  chat_users (acc_state (foldl poll_org a rs)) = chat_users (acc_state a)
  ∧ question_bank (acc_state (foldl poll_org a rs)) = question_bank (acc_state a).
Proof.
  revert a. induction rs as [|[org models] rs IH]; intros a; [done|].
  cbn [foldl]. destruct (IH (poll_org a (org, models))) as [-> ->].
  destruct (poll_org_cases a org models) as [->|(-> & _)]; done.
Qed.

Lemma fold_stored_nodup rs a :
  (∀ org, NoDup (stored_models (acc_state a) org)) →
  ∀ org, NoDup (stored_models (acc_state (foldl poll_org a rs)) org).
Proof.
  revert a. induction rs as [|[org' models] rs IH]; intros a Hall; [done|].
  cbn [foldl]. apply IH. intros org.
  destruct (poll_org_cases a org' models) as [->|(-> & _)]; [done|].
  unfold stored_models, set_org. cbn [orgs].
  destruct (decide (org' = org)) as [->|Hne].
  - rewrite lookup_insert_eq. cbn. unfold get_models.
    rewrite lookup_singleton_eq. apply dedup_ids_NoDup.
  - rewrite lookup_insert_ne; [|done]. apply Hall.
Qed.

Lemma fold_sent_origin rs a org mid :
  (org, mid) ∈ acc_sent (foldl poll_org a rs) →
  (org, mid) ∈ acc_sent a
  ∨ ∃ models, (org, models) ∈ rs ∧ mid ∈ id <$> models
              ∧ is_derivative_model mid = false.
Proof.
  revert a. induction rs as [|[org' models] rs IH]; intros a; [by left|].
  cbn [foldl]. intros [Hin|(ms & Hms & Hmid & Hmain)]%IH.
  - destruct (poll_org_sent a org' models) as (extra & Heq & Hextra).
    rewrite Heq in Hin. apply elem_of_app in Hin as [Hin|Hin]; [by left|right].
    apply list_elem_of_fmap in Hin as (m & [= -> ->] & Hm).
    destruct (Hextra _ Hm) as [Hmain Hfetched].
    exists models. split; [left|done].
  - right. exists ms. split; [by right|done].
Qed.

(** With the organisations distinct, the flag is set exactly when the
    state the loop leaves differs from the one it found. *)
Lemma fold_changed_iff rs a :
  NoDup rs.*1 →
  acc_changed a = false →
  (acc_changed (foldl poll_org a rs) = true
   ↔ acc_state (foldl poll_org a rs) ≠ acc_state a).
Proof.
  revert a. induction rs as [|[org models] rs IH]; intros a Hnd Hc.
  { cbn. rewrite Hc. split; [done|]. by intros []. }
  rewrite fmap_cons in Hnd. apply NoDup_cons in Hnd as [Hnot Hnd].
  cbn [foldl]. destruct (poll_org_cases a org models)
    as [->|(Hst & Hch & Hne & Hdiff)]; [by apply IH|].
  split; [intros _|intros _; by apply fold_changed_mono].
  intros Heq. apply Hdiff.
  destruct (fold_other rs (poll_org a (org, models)) org Hnot) as [E _].
  rewrite Heq, Hst in E. unfold set_org in E. cbn [orgs] in E.
  by rewrite lookup_insert_eq in E.
Qed.

(** X2. The stored lists stay free of repetitions: when no stored list
    of the state has a repeated id before a cycle, none has one after
    it, whatever the fetches brought. *)
Theorem poll_once_keeps_stored_lists_duplicate_free st fetches :
  (∀ org, NoDup (stored_models st org)) →
  ∀ org, NoDup (stored_models (poll_once st fetches).1 org).
Proof.
  intros Hall org. rewrite poll_once_state.
  by apply (fold_stored_nodup _
              {| acc_state := st; acc_sent := []; acc_changed := false |}).
Qed.

Lemma poll_once_keeps_stored_lists_duplicate_free_witness :
  NoDup (stored_models
           (poll_once (state_of "acme" ["acme/a"])
              [("acme", Fetched (listing_of ["acme/b"; "acme/a"; "acme/b"]))]).1
           "acme").
Proof.
  apply (poll_once_keeps_stored_lists_duplicate_free
           (state_of "acme" ["acme/a"])
           [("acme", Fetched (listing_of ["acme/b"; "acme/a"; "acme/b"]))]).
  intros org. unfold stored_models, state_of. cbn [orgs].
  destruct (decide (org = "acme")) as [->|Hne].
  - rewrite lookup_singleton_eq. cbn. unfold get_models.
    rewrite lookup_singleton_eq. cbn. apply NoDup_singleton.
  - rewrite lookup_singleton_ne; [|done]. cbn. apply NoDup_nil_2.
Defined.

(** X3. Whatever a cycle notifies was fetched in that cycle for that
    organisation and is a main release; this needs nothing of the state
    or of the list of organisations. *)
Theorem poll_once_notifies_only_fetched_main_releases :
  ∀ st fetches org mid,
    Notify org mid ∈ (poll_once st fetches).2 →
    ∃ models, (org, Fetched models) ∈ fetches
              ∧ mid ∈ id <$> models
              ∧ is_derivative_model mid = false.
Proof.
  intros st fetches org mid Hn. unfold poll_once in Hn. cbn [snd] in Hn.
  apply elem_of_app in Hn as [Hn|Hn].
  - apply list_elem_of_fmap in Hn as ([o' m'] & [= -> ->] & Hn).
    apply fold_sent_origin in Hn as [Hn|(ms & Hms & Hmid & Hmain)].
    { by apply elem_of_nil in Hn. }
    apply results_elem_of_inv in Hms as (o & Ho & ->).
    destruct o as [models|]; [|by apply elem_of_nil in Hmid].
    by exists models.
  - destruct (acc_changed _); [|by apply elem_of_nil in Hn].
    by apply list_elem_of_singleton in Hn.
Qed.

Lemma poll_once_notifies_only_fetched_main_releases_witness :
  ∃ models,
    ("acme", Fetched models)
      ∈ [("acme", Fetched (listing_of ["acme/new"; "acme/old"]))]
    ∧ "acme/new" ∈ id <$> models
    ∧ is_derivative_model "acme/new" = false.
Proof.
  apply (poll_once_notifies_only_fetched_main_releases
           (state_of "acme" ["acme/old"])
           [("acme", Fetched (listing_of ["acme/new"; "acme/old"]))]
           "acme" "acme/new").
  vm_compute. left.
Defined.

(** X4. A cycle writes nothing but the entries of the organisations it
    polled: the user directory and the question bank are as before, and
    so is the entry of every organisation that was not polled. *)
Theorem poll_once_touches_only_polled_orgs :
  ∀ st fetches,
    chat_users (poll_once st fetches).1 = chat_users st
    ∧ question_bank (poll_once st fetches).1 = question_bank st
    ∧ ∀ org, org ∉ fetches.*1 →
             orgs (poll_once st fetches).1 !! org = orgs st !! org.
Proof.
  intros st fetches. rewrite poll_once_state.
  destruct (fold_fields ((λ r, _fetch r.1 r.2) <$> fetches)
              {| acc_state := st; acc_sent := []; acc_changed := false |})
    as [-> ->].
  repeat split. intros org Hnot. rewrite <- results_fst in Hnot.
  by destruct (fold_other _ {| acc_state := st; acc_sent := [];
                               acc_changed := false |} org Hnot) as [-> _].
Qed.

(** X5. With the polled organisations distinct, [save_state] is called
    exactly when the cycle changed the state document, and then once,
    after the last notification, with the state as the cycle left it. *)
Theorem poll_once_persists_exactly_on_change st fetches :
  NoDup fetches.*1 →
  (persisted (poll_once st fetches).2 = true ↔ (poll_once st fetches).1 ≠ st)
  ∧ (persisted (poll_once st fetches).2 = true →
     ∃ notes, (poll_once st fetches).2
              = notes ++ [SaveState (poll_once st fetches).1]
              ∧ persisted notes = false).
Proof.
  intros Hnd. split.
  - rewrite poll_once_persisted, poll_once_state.
    apply (fold_changed_iff _ {| acc_state := st; acc_sent := [];
                                 acc_changed := false |});
      [by rewrite results_fst|done].
  - rewrite poll_once_persisted. unfold poll_once. cbn [fst snd].
    intros ->. eexists. split; [reflexivity|].
    unfold persisted. induction (acc_sent _) as [|n l IH]; [done|]. by csimpl.
Qed.

Lemma poll_once_persists_exactly_on_change_witness :
  persisted (poll_once (state_of "acme" ["acme/a"; "acme/b"])
               [("acme", Fetched (listing_of ["acme/b"; "acme/a"]))]).2 = true
  ↔ (poll_once (state_of "acme" ["acme/a"; "acme/b"])
       [("acme", Fetched (listing_of ["acme/b"; "acme/a"]))]).1
    ≠ state_of "acme" ["acme/a"; "acme/b"].
Proof.
  apply (poll_once_persists_exactly_on_change
           (state_of "acme" ["acme/a"; "acme/b"])
           [("acme", Fetched (listing_of ["acme/b"; "acme/a"]))]).
  apply (bool_decide_unpack _); vm_compute; exact I.
Defined.

End MonitoringMore.

(* ===================================================================== *)
(** ** More about the pagination *)
(* ===================================================================== *)

Module PaginateMore.
Import PyStr PyStrFacts PyStrMore HuggingFace PaginateSpec.

(** *** The next link *)

Lemma whitespace_prefix_free s :
  Forall (λ w0, first_some (λ w, drop_prefix w (w0 +:+ s)) WHITESPACE = Some s)
         WHITESPACE.
Proof. repeat constructor. Qed.

Lemma lstrip_loop_whitespace ws rest fuel :
  Forall (λ w, w ∈ WHITESPACE) ws →
  length ws ≤ fuel →
  first_some (λ w, drop_prefix w rest) WHITESPACE = None →
  lstrip_loop fuel (foldr String.append rest ws) = rest.
Proof.
  revert fuel. induction ws as [|w0 ws IH]; intros fuel Hall Hfuel Hrest.
  - cbn [foldr]. destruct fuel; [done|]. cbn [lstrip_loop]. by rewrite Hrest.
  - destruct fuel as [|fuel]; [cbn in Hfuel; lia|].
    apply Forall_cons in Hall as [Hw0 Hall]. cbn [foldr lstrip_loop].
    pose proof (whitespace_prefix_free (foldr String.append rest ws)) as Hpf.
    rewrite Forall_forall in Hpf. rewrite (Hpf w0 Hw0).
    apply IH; [done|cbn in Hfuel; lia|done].
Qed.

Lemma foldr_append_length (ws : list string) rest :
  Forall (λ w, w ∈ WHITESPACE) ws →
  length ws ≤ String.length (foldr String.append rest ws).
Proof.
  induction ws as [|w ws IH]; intros Hall; [cbn; lia|].
  apply Forall_cons in Hall as [Hw Hall]. cbn [foldr length].
  rewrite string_length_app. apply whitespace_nonempty in Hw.
  specialize (IH Hall). lia.
Qed.

Lemma link_next_skip pre h :
  contains pre "<" = false → link_next (pre +:+ h) = link_next h.
Proof.
  induction pre as [|c pre IH]; intros Hno; [done|].
  rewrite contains_cons_char in Hno. apply orb_false_iff in Hno as [Hc Hpre].
  rewrite append_cons. cbn [link_next].
  assert (match_link_next (String c (pre +:+ h)) = None) as ->.
  { unfold match_link_next.
    destruct c as [[] [] [] [] [] [] [] []]; try done. }
  by apply IH.
Qed.

(** X6. The header round trip: for a URL that is not empty and has no
    [>], the header that carries it as the next link, after any text
    without [<] and with any white space before [rel="next"] and anything
    behind it, gives that URL back. *)
Theorem link_next_finds_the_cursor pre url ws post :
  url ≠ EmptyString →
  contains url ">" = false →
  contains pre "<" = false →
  Forall (λ w, w ∈ WHITESPACE) ws →
  link_next (pre +:+ "<" +:+ url +:+ ">;"
             +:+ foldr String.append (REL_NEXT +:+ post) ws)
  = Some url.
Proof.
  intros Hne Hurl Hpre Hws. rewrite link_next_skip; [|done].
  rewrite !append_cons, !append_nil_l.
  set (tail := foldr String.append (REL_NEXT +:+ post) ws).
  assert (match_link_next (String "<" (url +:+ String ">" (String ";" tail)))
          = Some url) as Hm.
  { unfold match_link_next.
    rewrite (span_until_stop ">" url); [|done].
    destruct url as [|c url]; [done|]. cbn [drop_prefix].
    rewrite !Ascii.eqb_refl. subst tail.
    rewrite lstrip_loop_whitespace;
      [|done|by apply foldr_append_length|by vm_compute].
    by rewrite startswith_app. }
  cbn [link_next]. by rewrite Hm.
Qed.

Lemma link_next_finds_the_cursor_witness :
  link_next ("<https://huggingface.co/api/models?cursor=abc>; " +:+ REL_NEXT)
  = Some "https://huggingface.co/api/models?cursor=abc".
Proof.
  apply (link_next_finds_the_cursor ""
           "https://huggingface.co/api/models?cursor=abc" [" "] "").
  - discriminate.
  - reflexivity.
  - reflexivity.
  - repeat constructor.
Defined.

Lemma drop_prefix_spec p s s' : drop_prefix p s = Some s' → s = p +:+ s'.
Proof.
  revert s. induction p as [|a p IH]; intros s; cbn [drop_prefix].
  - by intros [= ->].
  - destruct s as [|b s]; [done|].
    destruct (Ascii.eqb_spec a b) as [->|]; [|done].
    intros ->%IH. by rewrite append_cons.
Qed.

Lemma match_link_next_spec s url :
  match_link_next s = Some url →
  url ≠ EmptyString ∧ contains url ">" = false
  ∧ ∃ post, s = "<" +:+ url +:+ ">;" +:+ post.
Proof.
  unfold match_link_next. destruct s as [|c s1]; [done|].
  destruct (Ascii.eqb_spec c "<") as [->|Hne].
  2:{ destruct c as [[] [] [] [] [] [] [] []]; done. }
  destruct (span_until ">" s1) as [group1 s2] eqn:Hspan.
  apply span_until_spec in Hspan as (-> & Hno & _).
  destruct group1 as [|g group1]; [done|].
  destruct (drop_prefix ">;" s2) as [s3|] eqn:Hdrop; [|done].
  apply drop_prefix_spec in Hdrop as ->.
  destruct (startswith _ REL_NEXT); [|done]. intros [= <-].
  split; [done|]. split; [done|]. by exists s3.
Qed.

(** X7. What the search gives is a next link of the header: a text that
    is not empty, has no [>], and stands in the header between [<] and
    [>;]. A header without such a place gives nothing. *)
Theorem link_next_is_a_link_of_the_header :
  ∀ header url,
    link_next header = Some url →
    url ≠ EmptyString
    ∧ contains url ">" = false
    ∧ ∃ pre post, header = pre +:+ "<" +:+ url +:+ ">;" +:+ post.
Proof.
  intros header. induction header as [|c header IH]; intros url.
  - cbn. done.
  - cbn [link_next].
    destruct (match_link_next (String c header)) as [u|] eqn:Hm.
    + intros [= <-]. apply match_link_next_spec in Hm as (Hne & Hno & post & ->).
      split; [done|]. split; [done|]. by exists "", post.
    + intros (Hne & Hno & pre & post & ->)%IH.
      split; [done|]. split; [done|]. exists (String c pre), post.
      by rewrite append_cons.
Qed.

Lemma link_next_is_a_link_of_the_header_witness :
  "https://hub/next" ≠ EmptyString
  ∧ contains "https://hub/next" ">" = false
  ∧ ∃ pre post,
      "<https://hub/next>; " +:+ REL_NEXT
      = pre +:+ "<" +:+ "https://hub/next" +:+ ">;" +:+ post.
Proof.
  apply (link_next_is_a_link_of_the_header
           ("<https://hub/next>; " +:+ REL_NEXT) "https://hub/next").
  reflexivity.
Defined.

(** *** The loop *)

Section Cursor.
Context {upstream : Type}.
Variable get : upstream → string → option (list (string * string))
               → option response * upstream.

(** The requests the loop adds form a chain: the first goes to the URL
    and with the parameters the loop has at that point, each later one
    goes, without parameters, to the next link of the reply before it. *)
Lemma paginate_loop_chain n srv url p items log :
  ∃ new,
    exchanges (paginate_loop get n srv url p items log) = log ++ new
    ∧ (∀ e, new !! 0 = Some e → req_url e = url ∧ req_params e = p)
    ∧ (∀ i e e', new !! i = Some e → new !! S i = Some e' →
         req_params e' = None
         ∧ ∃ r, reply e = Some r
                ∧ link_next (link_header r) = Some (req_url e')
                ∧ _PAGE_SIZE ≤ length (batch r)).
Proof.
  revert srv url p items log. induction n as [|n IH]; intros srv url p items log.
  { exists []. cbn. by rewrite app_nil_r. }
  cbn [paginate_loop]. destruct (get srv url p) as [resp srv'] eqn:Hget.
  set (e0 := {| req_url := url; req_params := p; reply := resp |}).
  assert (∃ new, log ++ [e0] = log ++ new
            ∧ (∀ e, new !! 0 = Some e → req_url e = url ∧ req_params e = p)
            ∧ (∀ i e e', new !! i = Some e → new !! S i = Some e' →
                 req_params e' = None
                 ∧ ∃ r, reply e = Some r
                        ∧ link_next (link_header r) = Some (req_url e')
                        ∧ _PAGE_SIZE ≤ length (batch r))) as Hstop.
  { exists [e0]. split; [done|]. split.
    - by intros e [= <-].
    - by intros [|i] e e'. }
  destruct resp as [r|]; [|done].
  destruct (batch r) as [|x b] eqn:Hb; [done|].
  destruct (length (x :: b) <? _PAGE_SIZE) eqn:Hlen; [done|].
  destruct (link_next (link_header r)) as [next|] eqn:Hnext; [|done].
  destruct (IH srv' next None (items ++ x :: b) (log ++ [e0]))
    as (new & E & Hfirst & Hchain).
  exists (e0 :: new). rewrite E, <- app_assoc. split; [done|]. split.
  - by intros e [= <-].
  - intros [|i] e e'.
    + intros [= <-] He'. cbn in He'. destruct (Hfirst e' He') as [-> ->].
      split; [done|]. exists r. split; [done|]. split; [done|].
      rewrite Hb. by apply Nat.ltb_ge in Hlen.
    + cbn. apply Hchain.
Qed.

(** X8. [_paginate] follows the cursor: its first request goes to the
    listing address with the query parameters, and every later request
    goes, with no parameters, to the next link of the reply before it,
    which was a page of at least the page size. *)
Theorem paginate_follows_the_cursor :
  ∀ srv params max_pages,
    let run := _paginate get srv params max_pages in
    (∀ e, exchanges run !! 0 = Some e →
          req_url e = _HF_API ∧ req_params e = Some params)
    ∧ (∀ i e e', exchanges run !! i = Some e → exchanges run !! S i = Some e' →
         req_params e' = None
         ∧ ∃ r, reply e = Some r
                ∧ link_next (link_header r) = Some (req_url e')
                ∧ _PAGE_SIZE ≤ length (batch r)).
Proof.
  intros srv params max_pages run. subst run. unfold _paginate.
  destruct (paginate_loop_chain max_pages srv _HF_API (Some params) [] [])
    as (new & -> & Hfirst & Hchain).
  by cbn [app].
Qed.

Lemma paginate_returned_received srv params max_pages items :
  returned (_paginate get srv params max_pages) = Some items →
  items = received (exchanges (_paginate get srv params max_pages)).
Proof.
  unfold _paginate.
  destruct (paginate_loop_spec get max_pages srv _HF_API (Some params) [] [])
    as (new & E & _ & _ & _ & _ & _ & Hi & _).
  rewrite E. cbn [app] in *. apply Hi.
Qed.

(** X9. What [_paginate] returns is the pages it received, put end to
    end in the order of the requests; and it raises exactly when its last
    request did. *)
Theorem paginate_returns_the_pages_received :
  ∀ srv params max_pages,
    let run := _paginate get srv params max_pages in
    (∀ items, returned run = Some items → items = received (exchanges run))
    ∧ (returned run = None
       ↔ ∃ e, last (exchanges run) = Some e ∧ reply e = None).
Proof.
  intros srv params max_pages run. subst run. unfold _paginate.
  destruct (paginate_loop_spec get max_pages srv _HF_API (Some params) [] [])
    as (new & E & _ & _ & _ & _ & Hr & Hi & _).
  rewrite E. cbn [app] in *. split; [exact Hi|exact Hr].
Qed.

(** X10. [fetch_models_for_org] raises exactly when the pagination did.
    When it returns, every entry has an id that is not empty, that id is
    the first of [modelId], [id] and [_id] of an object received that is
    there and not empty, and objects without any are left out. *)
Theorem fetch_models_for_org_ids_are_real :
  ∀ srv org,
    let run := _paginate get srv [ ("author", org); ("sort", "lastModified");
                                   ("direction", "-1"); ("limit", "1000") ]
                 DEFAULT_MAX_PAGES in
    (fetch_models_for_org get srv org = None ↔ returned run = None)
    ∧ ∀ models, fetch_models_for_org get srv org = Some models →
        length models ≤ length (received (exchanges run))
        ∧ ∀ m, m ∈ models →
            id m ≠ EmptyString
            ∧ ∃ raw, raw ∈ received (exchanges run)
                     ∧ Some (id m) = py_or (modelId raw)
                                       (py_or (raw_id raw) (_id raw)).
Proof.
  intros srv org run. unfold fetch_models_for_org. fold run.
  pose proof (paginate_returned_received
                srv [ ("author", org); ("sort", "lastModified");
                      ("direction", "-1"); ("limit", "1000") ] DEFAULT_MAX_PAGES)
    as Hitems. fold run in Hitems.
  destruct (returned run) as [raw|] eqn:Hret; [|done].
  rewrite <- (Hitems raw eq_refl). split; [done|].
  intros models [= <-]. split.
  - rewrite length_fmap. apply length_filter.
  - intros m (it & -> & Hit)%list_elem_of_fmap.
    apply list_elem_of_filter in Hit as [Htruthy Hit]. cbn [id].
    assert (∃ s, py_or (modelId it) (py_or (raw_id it) (_id it)) = Some s
                 ∧ s ≠ EmptyString
                 ∧ py_or (modelId it)
                     (py_or (raw_id it) (Some (default "" (_id it)))) = Some s)
      as (s & Hs & Hne & Hs').
    { unfold py_or in *. destruct (truthy (modelId it)) eqn:H1.
      - destruct (modelId it) as [[|c s]|]; try done. by eexists.
      - destruct (truthy (raw_id it)) eqn:H2.
        + destruct (raw_id it) as [[|c s]|]; try done. by eexists.
        + destruct (_id it) as [[|c s]|]; try done. by eexists. }
    rewrite Hs'. cbn. split; [done|]. exists it. by rewrite Hs.
Qed.

End Cursor.

End PaginateMore.

(* ===================================================================== *)
(** ** The model card *)
(* ===================================================================== *)

Module ModelCardSpec.
Import PyStr PyStrFacts PyStrMore ModelCard.

Lemma partition_slash_spec model_id author0 name0 :
  partition_slash model_id = (author0, name0) →
  contains author0 "/" = false
  ∧ (name0 ≠ EmptyString → model_id = author0 +:+ "/" +:+ name0).
Proof.
  unfold partition_slash. intros [= <- <-]. split.
  - apply before_first_no_sep.
  - destruct (after_first "/" model_id) as [rest|] eqn:Ha; [|done].
    intros _. by apply after_first_spec.
Qed.

(** X11. [from_api] splits the id at its first slash: the author has no
    slash, and author, slash and name give the id back, the name not
    being empty. An id without a slash, or with nothing behind its first
    slash, is the name as a whole, with no author. The name is empty only
    for the empty id. *)
Theorem from_api_splits_the_id :
  ∀ data,
    let m := from_api data in
    contains (author m) "/" = false
    ∧ ((id m = author m +:+ "/" +:+ name m ∧ name m ≠ EmptyString)
       ∨ (author m = EmptyString ∧ name m = id m
          ∧ (contains (id m) "/" = false
             ∨ ∃ a, id m = a +:+ "/" ∧ contains a "/" = false)))
    ∧ (name m = EmptyString ↔ id m = EmptyString).
Proof.
  intros data. unfold from_api.
  set (model_id := default "" _).
  destruct (partition_slash model_id) as [author0 name0] eqn:Hp.
  pose proof (partition_slash_spec _ _ _ Hp) as [Hno Hid].
  destruct name0 as [|c name0]; cbn [id author name].
  - split; [done|]. split; [|done]. right. split; [done|]. split; [done|].
    unfold partition_slash in Hp.
    destruct (after_first "/" model_id) as [rest|] eqn:Ha.
    + right. injection Hp as Hb Hr. cbn in Hr. subst rest.
      exists author0. split; [|done].
      apply after_first_spec in Ha. by rewrite Hb in Ha.
    + left. by apply after_first_none in Ha as [_ ?].
  - split; [done|]. split.
    + left. split; [by apply Hid|done].
    + split; [done|]. intros Hm. rewrite Hid in Hm; [|done].
      by destruct author0.
Qed.

Lemma sublist_filter_take {A} (P : A → Prop) `{∀ x, Decision (P x)}
    (l : list A) n :
  filter P (take n l) `sublist_of` take n (filter P l).
Proof.
  revert n. induction l as [|x l IH]; intros n.
  - by destruct n.
  - destruct n as [|n]; [done|]. cbn [take].
    destruct (decide (P x)).
    + rewrite !filter_cons_True; [|done..]. cbn [take].
      by apply sublist_skip.
    + rewrite !filter_cons_False; [|done..].
      etrans; [apply IH|].
      replace (take n (filter P l)) with (take n (take (S n) (filter P l)))
        by (rewrite take_take; f_equal; lia).
      apply sublist_take.
Qed.

(** X12. The useful tags are at most [limit] of the model's tags, in
    their order; none is a licence or arXiv tag, one of the three noise
    tags, the pipeline tag or the library name; and a tag among the
    first [limit] of the model that is none of these is kept. *)
Theorem useful_tags_are_the_informative_ones :
  ∀ m limit,
    length (useful_tags m limit) ≤ limit
    ∧ useful_tags m limit `sublist_of` tags m
    ∧ (∀ t, t ∈ useful_tags m limit →
            startswith t "license:" = false
            ∧ startswith t "arxiv:" = false
            ∧ (t ∉ ["transformers"; "pytorch"; "safetensors"])
            ∧ pipeline_tag m ≠ Some t
            ∧ library_name m ≠ Some t)
    ∧ (∀ t, t ∈ take limit (tags m) →
            startswith t "license:" = false →
            startswith t "arxiv:" = false →
            (t ∉ ["transformers"; "pytorch"; "safetensors"]) →
            pipeline_tag m ≠ Some t →
            library_name m ≠ Some t →
            t ∈ useful_tags m limit).
Proof.
  intros m limit. unfold useful_tags. split; [|split; [|split]].
  - rewrite length_take. lia.
  - etrans; [apply sublist_take|]. apply sublist_filter.
  - intros t Ht. apply elem_of_take in Ht as (i & Ht & _).
    apply list_elem_of_lookup_2, list_elem_of_filter in Ht as [[Hp Hs] _].
    apply orb_false_iff in Hp as [Hl Ha]. unfold skip in Hs.
    repeat split; [done|done|..].
    + intros Hin. apply Hs.
      repeat (apply elem_of_cons in Hin as [Heq|Hin];
              [subst t; repeat constructor|]).
      by apply elem_of_nil in Hin.
    + intros Heq. apply Hs. rewrite <- Heq. repeat constructor.
    + intros Heq. apply Hs. rewrite <- Heq. repeat constructor.
  - intros t Ht Hl Ha Hn Hp Hlib.
    eapply elem_of_sublist; [|apply sublist_filter_take].
    apply list_elem_of_filter. split; [|done]. split.
    + by rewrite Hl, Ha.
    + unfold skip. intros Hin.
      apply elem_of_cons in Hin as [[= Heq]|Hin]; [apply Hn; subst t; repeat constructor|].
      apply elem_of_cons in Hin as [[= Heq]|Hin]; [apply Hn; subst t; repeat constructor|].
      apply elem_of_cons in Hin as [[= Heq]|Hin]; [apply Hn; subst t; repeat constructor|].
      apply elem_of_cons in Hin as [Heq|Hin]; [by apply Hp|].
      apply elem_of_cons in Hin as [Heq|Hin]; [by apply Hlib|].
      by apply elem_of_nil in Hin.
Qed.

Lemma header_no_line_feed model_id b :
  contains model_id (String LF EmptyString) = false →
  contains (header model_id b) (String LF EmptyString) = false.
Proof.
  intros Hid. unfold header. destruct b.
  - by rewrite !contains_app_char, Hid.
  - by rewrite contains_app_char, Hid.
Qed.

Lemma header_inj id1 id2 b : header id1 b = header id2 b → id1 = id2.
Proof.
  unfold header. destruct b.
  - rewrite !append_cons, !append_nil_l. intros [= H].
    revert id2 H. induction id1 as [|c id1 IH]; intros [|d id2]; try done.
    + rewrite append_nil_l, append_cons. intros [= <- H].
      destruct id2 as [|? [|? [|? [|? ?]]]]; done.
    + rewrite append_nil_l, append_cons. intros [= -> H].
      destruct id1 as [|? [|? [|? [|? ?]]]]; done.
    + rewrite !append_cons. intros [= -> H]. f_equal. by apply IH.
  - rewrite !append_cons, !append_nil_l. by intros [= H].
Qed.

Lemma join_snoc sep (lines : list string) h last :
  join sep ((h :: lines) ++ [last]) = join sep (h :: lines) +:+ sep +:+ last.
Proof.
  revert h. induction lines as [|l lines IH]; intros h; [done|].
  change (join sep ((h :: l :: lines) ++ [last]))
    with (h +:+ sep +:+ join sep ((l :: lines) ++ [last])).
  rewrite IH.
  change (join sep (h :: l :: lines)) with (h +:+ sep +:+ join sep (l :: lines)).
  by rewrite !append_assoc.
Qed.

(** The lines of [to_context] begin with the header. *)
Lemma to_context_lines m readme :
  ∃ lines, to_context m readme
           = join (String LF EmptyString) (header (id m) (truthy readme) :: lines)
           ∧ (truthy readme = true →
              ∃ lines', lines = lines' ++ [""; "--- README/Model Card ---";
                                           default "" readme]).
Proof.
  unfold to_context.
  set (l0 := [header _ _; _; _; _]).
  set (l1 := if truthy (pipeline_tag m) then _ else _).
  set (l2 := if truthy (library_name m) then _ else _).
  set (l3 := match useful_tags m _ with [] => _ | _ => _ end).
  set (l4 := if negb (truthy readme) && _ then _ else _).
  assert (∃ t, l4 = header (id m) (truthy readme) :: t) as [t Ht].
  { assert (∃ t, l1 = header (id m) (truthy readme) :: t) as [t1 Ht1].
    { subst l1 l0. destruct (truthy (pipeline_tag m)); by eexists. }
    assert (∃ t, l2 = header (id m) (truthy readme) :: t) as [t2 Ht2].
    { subst l2. rewrite Ht1. destruct (truthy (library_name m)); by eexists. }
    assert (∃ t, l3 = header (id m) (truthy readme) :: t) as [t3 Ht3].
    { subst l3. rewrite Ht2. destruct (useful_tags m _); by eexists. }
    subst l4. rewrite Ht3. destruct (negb _ && _); by eexists. }
  rewrite Ht. destruct (truthy readme) eqn:Hr.
  - eexists. split; [by rewrite <- app_comm_cons|]. intros _. by eexists.
  - eexists. split; [done|]. discriminate.
Qed.

(** X13. The first line of a model card is its header, which names the
    model: cards of two models, both with or both without a README, have
    the same first line only when the ids are the same. A card made with
    a README ends with the README, after the line that announces it. *)
Theorem to_context_first_line_names_the_model :
  ∀ m readme,
    contains (id m) (String LF EmptyString) = false →
    before_first LF (to_context m readme) = header (id m) (truthy readme)
    ∧ (∀ m' readme',
         contains (id m') (String LF EmptyString) = false →
         truthy readme' = truthy readme →
         before_first LF (to_context m' readme')
         = before_first LF (to_context m readme) →
         id m' = id m)
    ∧ (truthy readme = true →
       ∃ above, to_context m readme
                = above +:+ String LF ("--- README/Model Card ---"
                                       +:+ String LF (default "" readme))).
Proof.
  assert (∀ m readme,
            contains (id m) (String LF EmptyString) = false →
            before_first LF (to_context m readme)
            = header (id m) (truthy readme)) as Hfirst.
  { intros m readme Hid. destruct (to_context_lines m readme) as (lines & -> & _).
    apply before_first_join. by apply header_no_line_feed. }
  intros m readme Hid. split; [by apply Hfirst|]. split.
  - intros m' readme' Hid' Hr. rewrite !Hfirst; [|done..]. rewrite Hr.
    apply header_inj.
  - intros Hr. destruct (to_context_lines m readme) as (lines & -> & Hl).
    destruct (Hl Hr) as [lines' ->].
    rewrite app_comm_cons.
    change [""; "--- README/Model Card ---"; default "" readme]
      with ([""; "--- README/Model Card ---"] ++ [default "" readme]).
    rewrite app_assoc, <- app_comm_cons, join_snoc.
    change ([""; "--- README/Model Card ---"])
      with ([""] ++ ["--- README/Model Card ---"]).
    rewrite app_assoc, app_comm_cons, join_snoc.
    rewrite !append_assoc. eexists. reflexivity.
Qed.

Lemma to_context_first_line_names_the_model_witness :
  before_first LF
    (to_context (from_api {| data_modelId := Some "acme/rocket";
                             data_id := None; data__id := None;
                             data_downloads := Some 1234567%N;
                             data_likes := None; data_tags := None;
                             data_pipeline_tag := None;
                             data_lastModified := None;
                             data_private := None;
                             data_library_name := None;
                             data_safetensors := None |})
                (Some "A rocket."))
  = "=== acme/rocket ===".
Proof.
  apply (to_context_first_line_names_the_model
           (from_api {| data_modelId := Some "acme/rocket";
                        data_id := None; data__id := None;
                        data_downloads := Some 1234567%N;
                        data_likes := None; data_tags := None;
                        data_pipeline_tag := None;
                        data_lastModified := None;
                        data_private := None;
                        data_library_name := None;
                        data_safetensors := None |})
           (Some "A rocket.")).
  reflexivity.
Defined.

Example to_context_plain :
  to_context (from_api {| data_modelId := Some "acme/rocket";
                          data_id := None; data__id := None;
                          data_downloads := Some 1234567%N;
                          data_likes := Some 89%N;
                          data_tags := Some ["transformers"; "license:mit";
                                             "text-generation"; "en"];
                          data_pipeline_tag := Some "text-generation";
                          data_lastModified := Some "2025-01-02T03:04:05.000Z";
                          data_private := None;
                          data_library_name := None;
                          data_safetensors := None |}) None
  = join (String LF EmptyString)
      [ "ID: acme/rocket"; "URL: https://huggingface.co/acme/rocket";
        "Downloads: 1,234,567"; "Likes: 89"; "Task: text-generation";
        "Tags: en"; "Last modified: 2025-01-02" ].
Proof. vm_compute. reflexivity. Qed.

End ModelCardSpec.

(* ===================================================================== *)
(** ** The example models *)
(* ===================================================================== *)

Module StateQueriesSpec.
Import PyStr Models Monitoring PyStrFacts ModelsFacts MonitoringFacts.
Import MonitoringMore StateQueries.

Lemma first_main_cons m models :
  first_main (m :: models)
  = if is_derivative_model m then first_main models else Some m.
Proof.
  unfold first_main, is_derivative_model. cbn [find].
  by destruct (endswith_any _ _).
Qed.

Lemma first_main_Some models m :
  first_main models = Some m ↔
  ∃ before after, models = before ++ m :: after
                  ∧ Forall (λ x, is_derivative_model x = true) before
                  ∧ is_derivative_model m = false.
Proof.
  induction models as [|x models IH].
  - split; [done|]. intros (before & after & H & _). by destruct before.
  - rewrite first_main_cons. destruct (is_derivative_model x) eqn:Hx.
    + rewrite IH. split.
      * intros (before & after & -> & Hall & Hm).
        exists (x :: before), after. split; [done|]. split; [|done].
        by constructor.
      * intros (before & after & Heq & Hall & Hm).
        destruct before as [|y before].
        { injection Heq as -> _. congruence. }
        injection Heq as -> ->. apply Forall_cons in Hall as [_ Hall].
        by exists before, after.
    + split.
      * intros [= ->]. exists [], models. by repeat split.
      * intros (before & after & Heq & Hall & Hm).
        destruct before as [|y before]; [by injection Heq as ->|].
        injection Heq as -> _. apply Forall_cons in Hall as [Hy _]. congruence.
Qed.

Lemma fold_examples st (orgs : list string) (acc : gmap string string) org :
  foldl (λ examples org,
           match first_main (stored_models st org) with
           | Some m => <[org := m]> examples
           | None => examples
           end) acc orgs !! org
  = if decide (org ∈ orgs)
    then match first_main (stored_models st org) with
         | Some m => Some m
         | None => acc !! org
         end
    else acc !! org.
Proof.
  revert acc. induction orgs as [|o orgs IH]; intros acc; [done|].
  cbn [foldl]. rewrite IH.
  destruct (decide (org = o)) as [->|Hne].
  - rewrite (decide_True (P := o ∈ o :: orgs)); [|left].
    destruct (first_main (stored_models st o)) as [m|] eqn:Hm.
    + rewrite lookup_insert_eq. by destruct (decide (o ∈ orgs)).
    + by destruct (decide (o ∈ orgs)).
  - assert ((match first_main (stored_models st o) with
             | Some m => <[o := m]> acc
             | None => acc
             end) !! org = acc !! org) as ->.
    { destruct (first_main (stored_models st o)); [|done].
      by rewrite lookup_insert_ne. }
    destruct (decide (org ∈ orgs)) as [Hin|Hnin].
    + rewrite decide_True; [done|by right].
    + rewrite decide_False; [done|].
      by intros [?|?]%elem_of_cons.
Qed.

(** X14. For each asked organisation the example is the first stored id
    that is a main release: every id stored before it is a derivative.
    An organisation that was not asked, or whose stored ids are all
    derivatives, has no example; without a list of organisations, or
    with an empty one, the four default organisations are asked. *)
Theorem get_example_models_gives_first_main_release :
  ∀ st o os,
    (∀ org m,
       get_example_models st (Some (o :: os)) !! org = Some m ↔
       org ∈ o :: os
       ∧ ∃ before after,
           stored_models st org = before ++ m :: after
           ∧ Forall (λ x, is_derivative_model x = true) before
           ∧ is_derivative_model m = false)
    ∧ get_example_models st None = get_example_models st (Some DEFAULT_ORGS)
    ∧ get_example_models st (Some []) = get_example_models st (Some DEFAULT_ORGS).
Proof.
  intros st o os. split; [|done].
  intros org m. unfold get_example_models. rewrite fold_examples.
  rewrite lookup_empty, <- first_main_Some.
  destruct (decide (org ∈ o :: os)) as [Hin|Hnin].
  - destruct (first_main (stored_models st org));
      (split; [by intros ?|by intros [_ ?]]).
  - split; [done|by intros [? _]].
Qed.

(** Deduplication does not move the first id with a property. *)
Lemma find_unique_by (P : string → bool) (seen : gset string) (xs : list string) :
  (∀ x, x ∈ seen → P x = false) →
  find P (unique_by (λ s, s) seen [] xs) = find P xs.
Proof.
  revert seen. induction xs as [|x xs IH]; intros seen Hseen; [done|].
  rewrite unique_by_cons. cbn [find]. destruct (decide (x ∈ seen)) as [Hx|Hx].
  - rewrite (Hseen x Hx). by apply IH.
  - cbn [find]. destruct (P x) eqn:HP; [done|]. apply IH.
    intros y [->%elem_of_singleton|Hy]%elem_of_union; [done|by apply Hseen].
Qed.

Lemma first_main_dedup_ids models :
  first_main (dedup_ids models) = first_main (id <$> models).
Proof.
  unfold first_main, dedup_ids. apply find_unique_by.
  by intros x ?%elem_of_empty.
Qed.

(** After its step, an organisation with a listing has the ids of the
    listing stored, deduplicated. *)
Lemma poll_org_stores a org models :
  models ≠ [] →
  stored_models (acc_state (poll_org a (org, models))) org = dedup_ids models.
Proof.
  intros Hne.
  assert (stored_models (set_org (acc_state a) org (dedup_ids models)) org
          = dedup_ids models) as Hset.
  { unfold stored_models, set_org. cbn [orgs]. rewrite lookup_insert_eq. cbn.
    unfold get_models. by rewrite lookup_singleton_eq. }
  destruct (has_state (acc_state a) org) eqn:Hst.
  - destruct (has_state_inv _ _ Hst) as (os & Hos & Hem & Hsm).
    rewrite (poll_org_known a org models os); [|done..].
    case_decide as Hd; [|done]. by rewrite Hsm.
  - by rewrite poll_org_baseline.
Qed.

(** X15. After a cycle, the example of an organisation whose fetch gave
    a listing is the first main release of that listing, whatever was
    stored before. *)
Theorem example_after_poll_is_newest_main_release st fetches org models :
  NoDup fetches.*1 →
  (org, Fetched models) ∈ fetches →
  models ≠ [] →
  get_example_models (poll_once st fetches).1 (Some [org]) !! org
  = first_main (id <$> models).
Proof.
  intros Hnd Hin Hne.
  destruct (poll_once_at st fetches org (Fetched models) Hnd Hin)
    as (a1 & _ & _ & Hst & _ & _).
  cbn [listing] in Hst.
  unfold get_example_models. rewrite fold_examples, lookup_empty.
  rewrite decide_True; [|left].
  assert (stored_models (poll_once st fetches).1 org = dedup_ids models) as ->.
  { unfold stored_models at 1. rewrite Hst.
    by apply (poll_org_stores a1 org models). }
  rewrite first_main_dedup_ids. by destruct (first_main _).
Qed.

Lemma example_after_poll_is_newest_main_release_witness :
  get_example_models
    (poll_once (state_of "acme" ["acme/old"])
       [("acme", Fetched (listing_of ["acme/new-gguf"; "acme/new"; "acme/old"]))]).1
    (Some ["acme"]) !! "acme"
  = first_main (id <$> listing_of ["acme/new-gguf"; "acme/new"; "acme/old"]).
Proof.
  apply (example_after_poll_is_newest_main_release
           (state_of "acme" ["acme/old"])
           [("acme", Fetched (listing_of ["acme/new-gguf"; "acme/new"; "acme/old"]))]
           "acme" (listing_of ["acme/new-gguf"; "acme/new"; "acme/old"])).
  - apply (bool_decide_unpack _). vm_compute. exact I.
  - left.
  - discriminate.
Defined.

End StateQueriesSpec.

(* ===================================================================== *)
(** ** The user directory *)
(* ===================================================================== *)

Module TrackingSpec.
Import PyStr Monitoring Tracking.

Lemma state_eta st :
  {| orgs := orgs st; chat_users := chat_users st;
     question_bank := question_bank st |} = st.
Proof. by destruct st. Qed.

(** What [track_user] does for a message of a user who is not a bot. *)
Lemma track_user_human settings st c u :
  is_bot u = false →
  track_user settings st (Some {| cid := c; from_user := Some u |})
  = if decide (entry st c (uid u) = Some (info_of u)) then (st, [])
    else
      let st2 :=
        {| orgs := orgs st;
           chat_users := <[c := <[uid u := info_of u]>
                                   (default ∅ (chat_users st !! c))]>
                           (chat_users st);
           question_bank := question_bank st |} in
      (st2, if settings then [SaveState st2] else []).
Proof.
  intros Hbot. unfold track_user, entry. rewrite Hbot.
  destruct (chat_users st !! c) as [users|] eqn:Hc; cbn [default mbind option_bind].
  - destruct (decide (users !! uid u = Some (info_of u))) as [Hu|Hu].
    + rewrite decide_True; [|done]. by rewrite state_eta.
    + by rewrite decide_False.
  - rewrite lookup_empty. rewrite decide_False; [|done]. rewrite decide_False; [|done].
    cbn [chat_users]. by rewrite insert_insert_eq.
Qed.

Lemma track_user_ignored settings st upd :
  (upd = None
   ∨ (∃ c, upd = Some {| cid := c; from_user := None |})
   ∨ (∃ c u, upd = Some {| cid := c; from_user := Some u |} ∧ is_bot u = true)) →
  track_user settings st upd = (st, []).
Proof.
  intros [->|[[c ->]|(c & u & -> & Hbot)]]; [done|done|].
  unfold track_user. by rewrite Hbot.
Qed.

Lemma entry_insert st c uid0 info c' uid' :
  entry {| orgs := orgs st;
           chat_users := <[c := <[uid0 := info]>
                                  (default ∅ (chat_users st !! c))]>
                           (chat_users st);
           question_bank := question_bank st |} c' uid'
  = if decide (c' = c ∧ uid' = uid0) then Some info else entry st c' uid'.
Proof.
  unfold entry. cbn [chat_users].
  destruct (decide (c' = c)) as [->|Hc].
  - rewrite lookup_insert_eq. cbn [mbind option_bind].
    destruct (decide (uid' = uid0)) as [->|Hu].
    + rewrite lookup_insert_eq. by rewrite decide_True.
    + rewrite lookup_insert_ne; [|done].
      rewrite decide_False; [|by intros [_ ?]].
      by destruct (chat_users st !! c).
  - rewrite lookup_insert_ne; [|done]. rewrite decide_False; [done|].
    by intros [? _].
Qed.

(** X16. Tracking the same message again changes nothing and writes
    nothing; a call writes the state at most once, the state it leaves;
    and with settings it writes exactly when it changed the state. *)
Theorem track_user_persists_exactly_on_change :
  ∀ settings st upd,
    let r := track_user settings st upd in
    track_user settings r.1 upd = (r.1, [])
    ∧ (r.2 = [] ∨ r.2 = [SaveState r.1])
    ∧ (r.2 = [SaveState r.1] → r.1 ≠ st)
    ∧ (settings = true → r.1 ≠ st → r.2 = [SaveState r.1]).
Proof.
  intros settings st upd.
  destruct upd as [[c [u|]]|]; [|by repeat split; try left..].
  destruct (is_bot u) eqn:Hbot.
  { cbn zeta. rewrite (track_user_ignored settings st);
      [|right; right; by exists c, u].
    cbn [fst snd]. rewrite (track_user_ignored settings st);
      [|right; right; by exists c, u].
    split; [done|]. split; [by left|]. split; [done|]. done. }
  cbn zeta. rewrite (track_user_human settings st c u Hbot).
  destruct (decide (entry st c (uid u) = Some (info_of u))) as [He|He].
  - cbn [fst snd]. rewrite (track_user_human settings st c u Hbot).
    rewrite decide_True; [|done].
    split; [done|]. split; [by left|]. split; [done|]. done.
  - cbn zeta. cbn [fst snd]. set (st2 := {| orgs := orgs st |}).
    assert (entry st2 c (uid u) = Some (info_of u)) as He2.
    { subst st2. rewrite entry_insert. by rewrite decide_True. }
    assert (st2 ≠ st) as Hne.
    { intros Heq. by rewrite Heq in He2. }
    rewrite (track_user_human settings st2 c u Hbot).
    rewrite decide_True; [|done].
    split; [done|]. split; [destruct settings; [by right|by left]|].
    split; [done|]. by intros ->.
Qed.

(** X17. A message of a user who is not a bot leaves that user's entry
    in that chat holding the first name, which is never empty, and the
    user name; every other entry of the directory, the organisations
    and the question bank are as before. A message without a sender, or
    of a bot, or no message at all, leaves everything as it is. *)
Theorem track_user_records_the_sender_only :
  ∀ settings st c u,
    is_bot u = false →
    let st' := (track_user settings st
                  (Some {| cid := c; from_user := Some u |})).1 in
    entry st' c (uid u)
    = Some {| first_name := if decide (user_first_name u = EmptyString)
                            then ANONYMOUS else user_first_name u;
              username := default "" (user_username u) |}
    ∧ (∀ info, entry st' c (uid u) = Some info → first_name info ≠ EmptyString)
    ∧ (∀ c' uid', ¬ (c' = c ∧ uid' = uid u) → entry st' c' uid' = entry st c' uid')
    ∧ orgs st' = orgs st
    ∧ question_bank st' = question_bank st.
Proof.
  intros settings st c u Hbot. cbn zeta.
  rewrite (track_user_human settings st c u Hbot).
  assert (info_of u
          = {| first_name := if decide (user_first_name u = EmptyString)
                             then ANONYMOUS else user_first_name u;
               username := default "" (user_username u) |}) as Hinfo.
  { unfold info_of. by destruct (user_first_name u). }
  assert (first_name (info_of u) ≠ EmptyString) as Hname.
  { unfold info_of. by destruct (user_first_name u). }
  destruct (decide (entry st c (uid u) = Some (info_of u))) as [He|He];
    cbn zeta; cbn [fst].
  - rewrite He. split; [by rewrite Hinfo|]. split; [by intros ? [= <-]|]. done.
  - rewrite entry_insert, decide_True; [|done].
    split; [by rewrite Hinfo|]. split; [by intros ? [= <-]|].
    split; [|done]. intros c' uid' Hne. rewrite entry_insert.
    by rewrite decide_False.
Qed.

Lemma track_user_records_the_sender_only_witness :
  entry (track_user true empty_state
           (Some {| cid := "-100";
                    from_user := Some {| uid := "7"; user_first_name := "";
                                         user_username := None;
                                         is_bot := false |} |})).1
        "-100" "7"
  = Some {| first_name := ANONYMOUS; username := "" |}.
Proof.
  apply (track_user_records_the_sender_only true empty_state "-100"
           {| uid := "7"; user_first_name := ""; user_username := None;
              is_bot := false |}).
  reflexivity.
Defined.

End TrackingSpec.

(* ===================================================================== *)
(** ** The plain-text fallback *)
(* ===================================================================== *)

Module PlainTextSpec.
Import PyStr PyStrFacts PyStrMore PlainText.

Lemma match_tag_Some s rest :
  match_tag s = Some rest →
  ∃ body, s = "<" +:+ body +:+ ">" +:+ rest
          ∧ body ≠ EmptyString ∧ contains body ">" = false.
Proof.
  unfold match_tag. destruct s as [|c s1]; [done|].
  destruct (Ascii.eqb_spec c "<") as [->|Hc].
  2:{ destruct c as [[] [] [] [] [] [] [] []]; try done. }
  destruct (span_until ">" s1) as [run rest'] eqn:Hs.
  apply span_until_spec in Hs as (-> & Hno & Hrest).
  destruct run as [|r run]; [done|]. destruct rest' as [|r' rest']; [done|].
  intros [= ->]. destruct Hrest as [?|[rest'' [= -> ->]]]; [done|].
  exists (String r run). split; [|done].
  by rewrite !append_cons, !append_nil_l.
Qed.

Lemma match_tag_None s1 :
  match_tag (String "<" s1) = None →
  startswith s1 ">" = true ∨ contains s1 ">" = false.
Proof.
  unfold match_tag. destruct (span_until ">" s1) as [run rest'] eqn:Hs.
  apply span_until_spec in Hs as (-> & Hno & Hrest).
  destruct run as [|r run].
  - rewrite append_nil_l. destruct Hrest as [->|[rest'' ->]]; intros _; [by right|].
    left. cbn [startswith]. rewrite Ascii.eqb_refl. by destruct rest''.
  - destruct rest' as [|r' rest']; [|done]. intros _. right.
    by rewrite append_nil_r.
Qed.

Lemma match_tag_other c s :
  c ≠ "<"%char → match_tag (String c s) = None.
Proof.
  intros Hc. unfold match_tag.
  destruct c as [[] [] [] [] [] [] [] []]; try done.
Qed.

Lemma match_tag_shorter s rest :
  match_tag s = Some rest → String.length rest < String.length s.
Proof.
  intros (body & -> & _ & _)%match_tag_Some.
  rewrite !string_length_app. cbn. lia.
Qed.

Lemma sub_tags_length fuel s :
  String.length (sub_tags fuel s) ≤ String.length s.
Proof.
  revert s. induction fuel as [|fuel IH]; intros s; [done|].
  cbn [sub_tags]. destruct (match_tag s) as [rest|] eqn:Hm.
  - apply match_tag_shorter in Hm. specialize (IH rest). lia.
  - destruct s as [|c s]; [done|]. cbn [String.length].
    specialize (IH s). lia.
Qed.

(** A text in which the pattern has no match is left as it is. *)
Lemma sub_tags_tag_free fuel t : tag_free t → sub_tags fuel t = t.
Proof.
  revert t. induction fuel as [|fuel IH]; intros t Hfree; [done|].
  cbn [sub_tags]. destruct (match_tag t) as [rest|] eqn:Hm.
  - apply match_tag_Some in Hm as (body & -> & Hne & Hno).
    destruct (Hfree "" (body +:+ ">" +:+ rest) eq_refl) as [Hs|Hc].
    + destruct body as [|b body]; [done|].
      rewrite append_cons in Hs. cbn [startswith] in Hs.
      rewrite contains_cons_char in Hno. apply orb_false_iff in Hno as [Hb _].
      by rewrite Hb in Hs.
    + rewrite !contains_app_char in Hc.
      apply orb_false_iff in Hc as [_ Hc]. by cbn in Hc.
  - destruct t as [|c t]; [done|]. f_equal. apply IH.
    intros pre rest ->. by apply (Hfree (String c pre) rest).
Qed.

Lemma tag_free_no_open t : contains t "<" = false → tag_free t.
Proof.
  intros Hno pre rest ->. rewrite !contains_app_char in Hno.
  apply orb_false_iff in Hno as [_ Hno]. by cbn in Hno.
Qed.

Lemma tag_free_no_close t : contains t ">" = false → tag_free t.
Proof.
  intros Hno pre rest ->. right. rewrite !contains_app_char in Hno.
  apply orb_false_iff in Hno as [_ Hno].
  by apply orb_false_iff in Hno as [_ Hno].
Qed.

Lemma tag_free_cons c t :
  tag_free t →
  (c = "<"%char → startswith t ">" = true ∨ contains t ">" = false) →
  tag_free (String c t).
Proof.
  intros Hfree Hc pre rest Heq. destruct pre as [|p pre].
  - rewrite append_nil_l, append_cons, append_nil_l in Heq.
    injection Heq as -> ->. by apply Hc.
  - rewrite append_cons in Heq. injection Heq as -> ->. by apply (Hfree pre).
Qed.

Lemma sub_tags_leaves_none fuel s :
  String.length s ≤ fuel → tag_free (sub_tags fuel s).
Proof.
  revert s. induction fuel as [|fuel IH]; intros s Hlen.
  - destruct s; [|cbn in Hlen; lia]. by apply tag_free_no_open.
  - cbn [sub_tags]. destruct (match_tag s) as [rest|] eqn:Hm.
    + apply IH. apply match_tag_shorter in Hm. lia.
    + destruct s as [|c s]; [by apply tag_free_no_open|].
      cbn [String.length] in Hlen.
      apply tag_free_cons; [apply IH; lia|].
      intros ->. apply match_tag_None in Hm as [Hs|Hc].
      * left. destruct s as [|d s]; [done|]. cbn [startswith] in Hs.
        destruct (Ascii.eqb_spec ">" d) as [<-|]; [|done].
        destruct fuel as [|fuel]; [cbn in Hlen; lia|].
        cbn [sub_tags]. rewrite match_tag_other; [|done].
        cbn [startswith]. rewrite Ascii.eqb_refl. by destruct (sub_tags fuel s).
      * right. rewrite sub_tags_tag_free; [done|]. by apply tag_free_no_close.
Qed.

(** X18. What the substitution leaves has no match of the pattern: a
    [<] in it is followed at once by [>], or by no [>] at all. So a
    second pass changes nothing, a text without [<] or without [>] is
    left as it is, and the result is never longer than the text. *)
Theorem strip_tags_leaves_no_tag :
  ∀ text,
    (∀ pre rest, strip_tags text = pre +:+ "<" +:+ rest →
                 startswith rest ">" = true ∨ contains rest ">" = false)
    ∧ strip_tags (strip_tags text) = strip_tags text
    ∧ (contains text "<" = false ∨ contains text ">" = false →
       strip_tags text = text)
    ∧ String.length (strip_tags text) ≤ String.length text.
Proof.
  intros text.
  assert (tag_free (strip_tags text)) as Hfree.
  { by apply sub_tags_leaves_none. }
  split; [exact Hfree|]. split; [by apply sub_tags_tag_free|].
  split; [|apply sub_tags_length].
  intros [H|H]; apply sub_tags_tag_free;
    [by apply tag_free_no_open|by apply tag_free_no_close].
Qed.

Lemma strip_tags_leaves_no_tag_witness :
  startswith "> c" ">" = true ∨ contains "> c" ">" = false.
Proof.
  apply (proj1 (strip_tags_leaves_no_tag "a <b>x</b> <> c") "a x " "> c").
  reflexivity.
Defined.

Example strip_tags_nested : strip_tags "<<a>b> <i>x</i> 1 < 2" = "b> x 1 < 2".
Proof. reflexivity. Qed.

End PlainTextSpec.

(* ===================================================================== *)
(** ** The duel session under every interleaving *)
(* ===================================================================== *)

Module DuelInvariants.
Import Handlers Duel.

(** What one step does to the sessions, the update being handled and the
    messages: it sends nothing, or one message, and then it is one of
    four kinds. No step opens a session. *)
Lemma run_step_cases w s :
  let w' := run_step w s in
  (∀ c, battles (the_bot w') !! c = battles (the_bot w) !! c
        ∨ battles (the_bot w') !! c = None)
  ∧ ((outbox (the_bot w') = outbox (the_bot w)
      ∧ evaluating w' = evaluating w)
     ∨ (∃ c', outbox (the_bot w') = outbox (the_bot w) ++ [(c', TimedOut)]
              ∧ is_Some (battles (the_bot w) !! c')
              ∧ battles (the_bot w') !! c' = None
              ∧ evaluating w' = evaluating w)
     ∨ (∃ c', outbox (the_bot w') = outbox (the_bot w) ++ [(c', Reminder)]
              ∧ is_Some (battles (the_bot w) !! c')
              ∧ evaluating w' = evaluating w)
     ∨ (∃ c' b, outbox (the_bot w') = outbox (the_bot w) ++ [(c', Checking)]
                ∧ battles (the_bot w) !! c' = Some b
                ∧ battles (the_bot w') = battles (the_bot w)
                ∧ evaluating w = None
                ∧ evaluating w' = Some (c', b))
     ∨ (∃ c' b e, outbox (the_bot w') = outbox (the_bot w) ++ [(c', verdict e)]
                  ∧ evaluating w = Some (c', b)
                  ∧ evaluating w' = None
                  ∧ battles (the_bot w') !! c' = None)).
Proof.
  cbn zeta. destruct w as [st ev rem]. destruct s as [j|c'|c'|c' e].
  - (* a job fires *)
    unfold run_step, fire. cbn [the_bot evaluating reminding].
    destruct (bool_decide (j ∈ job_queue st)); [|split; [by left|by left]].
    destruct j as [c'|c'].
    + unfold _battle_reminder. cbn [battles job_queue outbox].
      destruct (battles st !! c') as [b|] eqn:Hb;
        cbn [the_bot evaluating send battles job_queue outbox].
      * split; [by left|]. right; right; left. exists c'.
        rewrite Hb. by repeat split.
      * split; [by left|by left].
    + unfold _battle_final_timeout. cbn [battles job_queue outbox].
      destruct (battles st !! c') as [b|] eqn:Hb;
        cbn [the_bot evaluating send battles job_queue outbox].
      * split.
        { intros c. destruct (decide (c = c')) as [->|Hne].
          - right. apply lookup_delete_eq.
          - left. by apply lookup_delete_ne. }
        right; left. exists c'. rewrite Hb, lookup_delete_eq. by repeat split.
      * split; [by left|by left].
  - (* the send of a reminder returns *)
    unfold run_step. cbn [the_bot evaluating reminding].
    destruct (bool_decide (c' ∈ rem)); split; by left.
  - (* a message reaches the battle branch *)
    unfold run_step, evaluate_begin. cbn [the_bot evaluating reminding].
    destruct ev as [[c0 b0]|]; [split; by left|].
    destruct (battles st !! c') as [b|] eqn:Hb;
      cbn [the_bot evaluating send battles job_queue outbox].
    + split; [by left|]. right; right; right; left. by exists c', b.
    + split; by left.
  - (* the evaluation comes back *)
    unfold run_step. cbn [the_bot evaluating reminding].
    destruct ev as [[c0 b0]|]; [|split; by left].
    destruct (decide (c0 = c')) as [->|Hne]; [|split; by left].
    unfold evaluate_finish. cbn [the_bot evaluating send battles job_queue outbox].
    assert (∀ c, match battles st !! c' with
                 | Some _ => delete c' (battles st)
                 | None => battles st
                 end !! c
                 = if decide (c = c') then None else battles st !! c) as Hdel.
    { intros c. destruct (decide (c = c')) as [->|Hne].
      - destruct (battles st !! c') eqn:Hb; [apply lookup_delete_eq|done].
      - destruct (battles st !! c') eqn:Hb; [by apply lookup_delete_ne|done]. }
    split.
    { intros c. rewrite Hdel. destruct (decide (c = c')); [by right|by left]. }
    right; right; right; right. exists c', b0, e.
    rewrite Hdel, decide_True; [|done]. by repeat split.
Qed.

Lemma messages_in_snoc c st st' c' m :
  outbox st' = outbox st ++ [(c', m)] →
  messages_in c st' = messages_in c st ++ (if decide (c' = c) then [m] else []).
Proof.
  intros Hout. unfold messages_in. rewrite Hout, filter_app, fmap_app.
  f_equal. destruct (decide (c' = c)) as [->|Hne].
  - by rewrite filter_cons_True.
  - by rewrite filter_cons_False.
Qed.

Lemma messages_in_same c st st' :
  outbox st' = outbox st → messages_in c st' = messages_in c st.
Proof. intros Hout. unfold messages_in. by rewrite Hout. Qed.

Lemma verdict_kind e :
  is_result (verdict e) = true ∧ is_timeout (verdict e) = false.
Proof. by destruct e as [[|c s]|]. Qed.

(** What a session can still cost: a time-out notice while it is open,
    a verdict while it is open or being evaluated. *)
Lemma run_step_open c w s :
  session_open c (run_step w s) = true → session_open c w = true.
Proof.
  destruct (run_step_cases w s) as [Hb _]. unfold session_open.
  by destruct (Hb c) as [->| ->].
Qed.

Lemma run_step_timeouts c w s :
  length (timeouts_in c (the_bot (run_step w s)))
  + (if session_open c (run_step w s) then 1 else 0)
  ≤ length (timeouts_in c (the_bot w)) + (if session_open c w then 1 else 0).
Proof.
  pose proof (run_step_open c w s) as Hmono.
  destruct (run_step_cases w s) as [Hb Hcases]. unfold timeouts_in.
  assert ((if session_open c (run_step w s) then 1 else 0)
          ≤ (if session_open c w then 1 else 0)) as Hle.
  { destruct (session_open c (run_step w s)); [by rewrite Hmono|].
    destruct (session_open c w); lia. }
  destruct Hcases as [[Ho _]|[(c' & Ho & Hs & Hn & _)|[(c' & Ho & _)
    |[(c' & b & Ho & _)|(c' & b & e & Ho & _)]]]].
  - rewrite (messages_in_same _ _ _ Ho). lia.
  - rewrite (messages_in_snoc _ _ _ _ _ Ho).
    destruct (decide (c' = c)) as [->|Hne].
    + rewrite filter_app, length_app. unfold session_open. rewrite Hn.
      destruct Hs as [b ->]. rewrite filter_cons_True; [|done]. cbn. lia.
    + rewrite app_nil_r. lia.
  - rewrite (messages_in_snoc _ _ _ _ _ Ho), filter_app, length_app.
    destruct (decide (c' = c)); [rewrite filter_cons_False; [|done]|]; cbn; lia.
  - rewrite (messages_in_snoc _ _ _ _ _ Ho), filter_app, length_app.
    destruct (decide (c' = c)); [rewrite filter_cons_False; [|done]|]; cbn; lia.
  - rewrite (messages_in_snoc _ _ _ _ _ Ho), filter_app, length_app.
    destruct (verdict_kind e) as [_ Hk].
    destruct (decide (c' = c));
      [rewrite filter_cons_False; [|by rewrite Hk]|]; cbn; lia.
Qed.

Lemma run_step_results c w s :
  length (results_in c (the_bot (run_step w s)))
  + (if session_open c (run_step w s) || being_evaluated c (run_step w s)
     then 1 else 0)
  ≤ length (results_in c (the_bot w))
    + (if session_open c w || being_evaluated c w then 1 else 0).
Proof.
  pose proof (run_step_open c w s) as Hmono.
  destruct (run_step_cases w s) as [Hb Hcases]. unfold results_in.
  destruct Hcases as [[Ho He]|[(c' & Ho & Hs & Hn & He)|[(c' & Ho & Hs & He)
    |[(c' & b & Ho & Hs & Hsame & He & He')|(c' & b & e & Ho & He & He' & Hn)]]]].
  - rewrite (messages_in_same _ _ _ Ho). unfold being_evaluated. rewrite He.
    destruct (session_open c (run_step w s)); [rewrite Hmono by done|];
      destruct (session_open c w);
      destruct (match evaluating w with Some _ => _ | None => _ end);
      cbn [orb]; lia.
  - rewrite (messages_in_snoc _ _ _ _ _ Ho), filter_app, length_app.
    unfold being_evaluated. rewrite He.
    assert (length (filter (λ m, is_result m = true)
                      (if decide (c' = c) then [TimedOut] else [])) = 0) as ->.
    { destruct (decide (c' = c)); [by rewrite filter_cons_False|done]. }
    destruct (session_open c (run_step w s)); [rewrite Hmono by done|];
      destruct (session_open c w);
      destruct (match evaluating w with Some _ => _ | None => _ end);
      cbn [orb]; lia.
  - rewrite (messages_in_snoc _ _ _ _ _ Ho), filter_app, length_app.
    unfold being_evaluated. rewrite He.
    assert (length (filter (λ m, is_result m = true)
                      (if decide (c' = c) then [Reminder] else [])) = 0) as ->.
    { destruct (decide (c' = c)); [by rewrite filter_cons_False|done]. }
    destruct (session_open c (run_step w s)); [rewrite Hmono by done|];
      destruct (session_open c w);
      destruct (match evaluating w with Some _ => _ | None => _ end);
      cbn [orb]; lia.
  - rewrite (messages_in_snoc _ _ _ _ _ Ho), filter_app, length_app.
    assert (length (filter (λ m, is_result m = true)
                      (if decide (c' = c) then [Checking] else [])) = 0) as ->.
    { destruct (decide (c' = c)); [by rewrite filter_cons_False|done]. }
    unfold session_open, being_evaluated. rewrite Hsame, He, He'.
    destruct (decide (c' = c)) as [->|Hne].
    + rewrite Hs. cbn. lia.
    + rewrite bool_decide_eq_false_2; [|done]. lia.
  - rewrite (messages_in_snoc _ _ _ _ _ Ho), filter_app, length_app.
    destruct (verdict_kind e) as [Hk _].
    unfold being_evaluated. rewrite He, He'.
    destruct (decide (c' = c)) as [->|Hne].
    + unfold session_open. rewrite Hn.
      rewrite bool_decide_eq_true_2; [|done]. rewrite orb_true_r.
      rewrite filter_cons_True; [|done]. cbn. lia.
    + rewrite bool_decide_eq_false_2; [|done]. rewrite !orb_false_r.
      destruct (session_open c (run_step w s)); [by rewrite Hmono; cbn; lia|].
      destruct (session_open c w); cbn; lia.
Qed.

(** A step sends nothing to a chat that has no session and is not
    being evaluated, and leaves it so. *)
Lemma run_step_quiet c w s :
  session_open c w = false → being_evaluated c w = false →
  messages_in c (the_bot (run_step w s)) = messages_in c (the_bot w)
  ∧ session_open c (run_step w s) = false
  ∧ being_evaluated c (run_step w s) = false.
Proof.
  intros Hs He. pose proof (run_step_open c w s) as Hmono.
  assert (session_open c (run_step w s) = false) as Hs'.
  { destruct (session_open c (run_step w s)); [|done]. by rewrite Hmono in Hs. }
  destruct (run_step_cases w s) as [_ Hcases].
  unfold session_open in Hs. unfold being_evaluated in He |- *.
  destruct Hcases as [[Ho Hev]|[(c' & Ho & Hop & Hn & Hev)|[(c' & Ho & Hop & Hev)
    |[(c' & b & Ho & Hop & Hsame & Hev & Hev')|(c' & b & e & Ho & Hev & Hev' & Hn)]]]].
  - rewrite (messages_in_same _ _ _ Ho), Hev. done.
  - rewrite (messages_in_snoc _ _ _ _ _ Ho), Hev.
    destruct (decide (c' = c)) as [->|Hne].
    + destruct Hop as [b Hb]. by rewrite Hb in Hs.
    + by rewrite app_nil_r.
  - rewrite (messages_in_snoc _ _ _ _ _ Ho), Hev.
    destruct (decide (c' = c)) as [->|Hne].
    + destruct Hop as [b Hb]. by rewrite Hb in Hs.
    + by rewrite app_nil_r.
  - rewrite (messages_in_snoc _ _ _ _ _ Ho), Hev'.
    destruct (decide (c' = c)) as [->|Hne].
    + by rewrite Hop in Hs.
    + rewrite app_nil_r. by rewrite bool_decide_eq_false_2.
  - rewrite (messages_in_snoc _ _ _ _ _ Ho), Hev'.
    rewrite Hev in He. apply bool_decide_eq_false in He.
    rewrite decide_False; [|done]. by rewrite app_nil_r.
Qed.

(** X19. A chat without a session that is not being evaluated gets no
    message of the duel, whatever jobs fire, messages arrive and
    evaluations come back, in whatever order; and it stays without a
    session. *)
Theorem no_duel_no_message :
  ∀ w chat_id steps,
    session_open chat_id w = false →
    being_evaluated chat_id w = false →
    messages_in chat_id (the_bot (run w steps)) = messages_in chat_id (the_bot w)
    ∧ session_open chat_id (run w steps) = false.
Proof.
  intros w c steps. revert w. unfold run.
  induction steps as [|s steps IH]; intros w Hs He; [done|].
  cbn [foldl]. destruct (run_step_quiet c w s Hs He) as (Hm & Hs' & He').
  destruct (IH _ Hs' He') as [-> ->]. done.
Qed.

Lemma no_duel_no_message_witness :
  messages_in "7"
    (the_bot (run (just_started "8" {| question := "q"; answer := "a";
                                       qtype := "serious" |})
                [ Fire (BattleTimeout "7"); MessageArrives "7";
                  Fire (BattleReminder "8"); EvaluationDone "7" None ]))
  = messages_in "7"
      (the_bot (just_started "8" {| question := "q"; answer := "a";
                                    qtype := "serious" |})).
Proof.
  apply (no_duel_no_message
           (just_started "8" {| question := "q"; answer := "a";
                                qtype := "serious" |}) "7");
    reflexivity.
Defined.

(** X20. Under every interleaving a chat gets at most one more time-out
    notice, and that only if it has a session; at most one more verdict,
    and that only if it has a session or is being evaluated; and no
    step opens a session. *)
Theorem duel_sends_at_most_one_notice_and_one_verdict :
  ∀ w chat_id steps,
    length (timeouts_in chat_id (the_bot (run w steps)))
    ≤ length (timeouts_in chat_id (the_bot w))
      + (if session_open chat_id w then 1 else 0)
    ∧ length (results_in chat_id (the_bot (run w steps)))
      ≤ length (results_in chat_id (the_bot w))
        + (if session_open chat_id w || being_evaluated chat_id w then 1 else 0)
    ∧ (session_open chat_id (run w steps) = true →
       session_open chat_id w = true).
Proof.
  intros w c steps. revert w. unfold run.
  induction steps as [|s steps IH]; intros w.
  - cbn [foldl]. split; [lia|]. split; [lia|done].
  - cbn [foldl]. destruct (IH (run_step w s)) as (Ht & Hr & Ho).
    pose proof (run_step_timeouts c w s). pose proof (run_step_results c w s).
    split; [lia|]. split; [lia|].
    intros H'. by apply (run_step_open c w s), Ho.
Qed.

End DuelInvariants.

(* ===================================================================== *)
(** ** The state document that [load_state] returns *)
(* ===================================================================== *)

Module StateMore.
Import State StateSpec.

Lemma has_key_app key (d d' : list (string * json)) :
  has_key key (d ++ d') = has_key key d || has_key key d'.
Proof. unfold has_key. apply existsb_app. Qed.

Lemma has_key_setdefault key key' dflt d :
  has_key key' (setdefault key dflt d)
  = has_key key' d || String.eqb key key'.
Proof.
  unfold setdefault. destruct (has_key key d) eqn:Hk.
  - destruct (String.eqb_spec key key') as [<-|_].
    + by rewrite Hk.
    + by rewrite orb_false_r.
  - rewrite has_key_app. cbn. by rewrite orb_false_r.
Qed.

Lemma setdefault_present key dflt d :
  has_key key d = true → setdefault key dflt d = d.
Proof. intros Hk. unfold setdefault. by rewrite Hk. Qed.

(** X21. Whenever [load_state] returns, it returns an object that has
    the three keys, and loading a file that holds this object returns
    it unchanged. When it raises, opening or parsing the file raised
    the same exception. *)
Theorem load_state_returns_a_complete_document :
  ∀ r,
    (∀ data, load_state r = Return data →
       (∃ d, data = JObject d
             ∧ has_key "orgs" d = true
             ∧ has_key "chat_users" d = true
             ∧ has_key "question_bank" d = true)
       ∧ load_state (Parsed data) = Return data)
    ∧ (∀ e, load_state r = Propagate e → r = Raises e).
Proof.
  intros r. split.
  - intros data Hr.
    assert (∀ d, has_key "orgs" d = true → has_key "chat_users" d = true →
                 has_key "question_bank" d = true →
                 load_state (Parsed (JObject d)) = Return (JObject d)) as Hfix.
    { intros d H1 H2 H3. cbn [load_state].
      by rewrite (setdefault_present "orgs"), (setdefault_present "chat_users"),
        (setdefault_present "question_bank"). }
    assert (∀ d, data = JObject d → has_key "orgs" d = true →
                 has_key "chat_users" d = true →
                 has_key "question_bank" d = true →
                 (∃ d, data = JObject d
                       ∧ has_key "orgs" d = true
                       ∧ has_key "chat_users" d = true
                       ∧ has_key "question_bank" d = true)
                 ∧ load_state (Parsed data) = Return data) as Hok.
    { intros d -> H1 H2 H3. split; [by exists d|by apply Hfix]. }
    destruct r as [e|parsed].
    + cbn [load_state] in Hr. destruct (existsb _ _); [|done].
      injection Hr as <-. by eapply Hok.
    + destruct parsed as [| | | | |d];
        try (cbn [load_state] in Hr; injection Hr as <-; by eapply Hok).
      cbn [load_state] in Hr. injection Hr as <-.
      eapply Hok; [done|..]; rewrite !has_key_setdefault.
      * cbn. by rewrite !orb_true_r.
      * cbn. by rewrite !orb_true_r.
      * cbn. by rewrite !orb_true_r.
  - intros e Hr. destruct r as [e'|parsed].
    + cbn [load_state] in Hr. destruct (existsb _ _); [done|]. by injection Hr as ->.
    + by destruct parsed.
Qed.

Lemma load_state_returns_a_complete_document_witness :
  (∃ d, JObject [("orgs", JObject [("acme", JObject [])]);
                 ("chat_users", JObject []); ("question_bank", JArray [])]
        = JObject d
        ∧ has_key "orgs" d = true
        ∧ has_key "chat_users" d = true
        ∧ has_key "question_bank" d = true)
  ∧ load_state
      (Parsed (JObject [("orgs", JObject [("acme", JObject [])]);
                        ("chat_users", JObject []); ("question_bank", JArray [])]))
    = Return (JObject [("orgs", JObject [("acme", JObject [])]);
                       ("chat_users", JObject []); ("question_bank", JArray [])]).
Proof.
  apply (proj1 (load_state_returns_a_complete_document
                  (Parsed (JObject [("orgs", JObject [("acme", JObject [])])])))).
  reflexivity.
Defined.

End StateMore.

(* ===================================================================== *)
(** ** The model and page texts of the gathered context *)
(* ===================================================================== *)

Module GatherMore.
Import PyStr PyStrFacts Handlers Gathered GatherSpec.

Section Texts.
Context {hit : Type}.
Variable format_results : list hit → string.

(** X22. The model context is made of at most four of the texts that
    the model and search tasks returned, in task order, no two with the
    same first line, the first returned text among them; a text is left
    out only behind four others or when its first line came before.
    The page context is made of every text the page tasks returned, in
    task order. Either is absent exactly when no such text came. *)
Theorem gather_keeps_four_model_texts_and_all_page_texts :
  ∀ tasks : list (@task hit),
    let texts := omap model_text tasks in
    let pages := omap url_text tasks in
    (∃ blocks,
       hf_context (gather format_results tasks)
       = (if decide (texts = []) then None else Some (join BLANK_LINE blocks))
       ∧ length blocks ≤ 4
       ∧ blocks `sublist_of` texts
       ∧ NoDup (before_first LF <$> blocks)
       ∧ head blocks = head texts
       ∧ (length blocks < 4 →
          ∀ d, d ∈ texts →
               ∃ d', d' ∈ blocks ∧ before_first LF d' = before_first LF d))
    ∧ url_context (gather format_results tasks)
      = (if decide (pages = []) then None else Some (join BLANK_LINE pages)).
Proof.
  intros tasks. cbn zeta. unfold gather.
  destruct (fold_classify_texts no_buckets tasks) as [Hm Hu].
  cbn [no_buckets models_data url_contents app] in Hm, Hu.
  unfold assemble. cbn [hf_context url_context]. rewrite Hm, Hu.
  set (texts := omap model_text tasks). set (pages := omap url_text tasks).
  split.
  - exists (take 4 (unique_by (before_first LF) ∅ [] texts)). split; [|split; [|split; [|split; [|split]]]].
    + by destruct texts.
    + rewrite length_take. lia.
    + etrans; [apply sublist_take|]. apply unique_by_sublist.
    + apply (sublist_NoDup _ (before_first LF
                                <$> unique_by (before_first LF) ∅ [] texts));
        [apply unique_by_NoDup_keys|rewrite fmap_take; apply sublist_take].
    + destruct texts as [|d texts']; [done|].
      rewrite unique_by_cons. rewrite decide_False; [done|]. apply not_elem_of_empty.
    + intros Hlen d Hd. rewrite length_take in Hlen.
      rewrite take_ge; [|lia].
      apply unique_by_covers; [done|]. apply not_elem_of_empty.
  - by destruct pages.
Qed.

End Texts.

End GatherMore.

(* ===================================================================== *)
(** ** The search, the image URLs, the question bank *)
(* ===================================================================== *)

Module HubSearchSpec.
Import PyStr PyStrFacts PyStrMore HuggingFace ModelCard HubSearch.

Lemma from_api_name_of_id data :
  id (from_api data) ≠ EmptyString → name (from_api data) ≠ EmptyString.
Proof.
  unfold from_api. set (model_id := default "" _).
  destruct (partition_slash model_id) as [author0 name0].
  destruct name0 as [|c name0]; cbn [id name]; done.
Qed.

Lemma from_api_id data :
  id (from_api data)
  = default "" (py_or (data_modelId data)
                  (py_or (data_id data) (py_or (data__id data) (Some "")))).
Proof.
  unfold from_api. destruct (partition_slash _) as [author0 name0].
  by destruct name0.
Qed.

(** X23. Every model that [search_models] returns has an id and a name
    that are not empty, the id being the [modelId] or else the [id] of
    an object of the reply; a reply that failed gives no model. *)
Theorem search_models_gives_named_models :
  ∀ reply m,
    m ∈ search_models reply →
    id m ≠ EmptyString
    ∧ name m ≠ EmptyString
    ∧ ∃ payload item, reply = Some payload ∧ item ∈ payload ∧ m = from_api item
                      ∧ (data_modelId item = Some (id m)
                         ∨ data_id item = Some (id m)).
Proof.
  intros reply m Hm. destruct reply as [payload|]; [|by apply elem_of_nil in Hm].
  unfold search_models in Hm.
  apply list_elem_of_fmap in Hm as (item & -> & Hitem).
  apply list_elem_of_filter in Hitem as [Ht Hitem].
  assert (id (from_api item) ≠ EmptyString
          ∧ (data_modelId item = Some (id (from_api item))
             ∨ data_id item = Some (id (from_api item)))) as [Hid Hsrc].
  { rewrite from_api_id. unfold py_or in *.
    destruct (data_modelId item) as [[|c s]|]; cbn [truthy default] in *.
    - destruct (data_id item) as [[|c' s']|]; cbn [truthy default] in *;
        try done. split; [done|by right].
    - split; [done|by left].
    - destruct (data_id item) as [[|c' s']|]; cbn [truthy default] in *;
        try done. split; [done|by right]. }
  split; [done|]. split; [by apply from_api_name_of_id|].
  by exists payload, item.
Qed.

Lemma search_models_gives_named_models_witness :
  id (from_api {| data_modelId := None; data_id := Some "acme/rocket";
                  data__id := None; data_downloads := None;
                  data_likes := None; data_tags := None;
                  data_pipeline_tag := None; data_lastModified := None;
                  data_private := None; data_library_name := None;
                  data_safetensors := None |}) ≠ EmptyString.
Proof.
  apply (search_models_gives_named_models
           (Some [ {| data_modelId := None; data_id := Some "acme/rocket";
                      data__id := None; data_downloads := None;
                      data_likes := None; data_tags := None;
                      data_pipeline_tag := None; data_lastModified := None;
                      data_private := None; data_library_name := None;
                      data_safetensors := None |} ])).
  left.
Defined.

End HubSearchSpec.

Module ImagesMore.
Import PyStr PyStrFacts PyStrMore HuggingFace GatherSpec.

Lemma absolute_is_absolute model_id url :
  startswith (absolute model_id url) "http" = true.
Proof. unfold absolute. by destruct (startswith url "http") eqn:H. Qed.

(** X24. Every image URL that [_extract_images] returns is absolute: it
    starts with [http], whatever the patterns found in the README. *)
Theorem extracted_images_are_absolute :
  ∀ findall readme model_id max_images u,
    u ∈ _extract_images findall readme model_id max_images →
    startswith u "http" = true.
Proof.
  intros findall readme model_id max_images u Hu.
  unfold _extract_images, prioritise in Hu.
  apply elem_of_take in Hu as (i & Hu & _). apply list_elem_of_lookup_2 in Hu.
  eapply elem_of_sublist in Hu; [|apply unique_by_sublist].
  assert (u ∈ normalize model_id
                (flat_map (λ pat, findall pat readme) _IMG_PATTERNS)) as Hn.
  { apply elem_of_app in Hu as [Hu|Hu];
      by apply list_elem_of_filter in Hu as [_ ?]. }
  rewrite normalize_spec in Hn.
  apply list_elem_of_fmap in Hn as (s & -> & _). apply absolute_is_absolute.
Qed.

Lemma extracted_images_are_absolute_witness :
  startswith "https://huggingface.co/acme/rocket/resolve/main/fig/chart.png" "http"
  = true.
Proof.
  apply (extracted_images_are_absolute (found "./fig/chart.png")
           "readme" "acme/rocket" 3).
  vm_compute. left.
Defined.

End ImagesMore.

Module QuestionBankSpec.
Import QuestionBank.

Lemma extend_bank questions w :
  bank (extend questions w) = bank w ++ questions
  ∧ taken (extend questions w) = taken w
  ∧ popped (extend questions w) = popped w.
Proof. destruct questions; cbn; by rewrite ?app_nil_r. Qed.

(** What the end of a call does: nothing, or it takes the head of the
    bank, and returns it unless [save_state] raised. *)
Lemma pop_finish_cases save_raises w :
  let w' := (pop_finish save_raises w).1 in
  (w' = w)
  ∨ ∃ question,
      bank w = question :: bank w'
      ∧ taken w' = taken w ++ [question]
      ∧ popped w' = popped w ++ (if save_raises then [] else [question]).
Proof.
  unfold pop_finish. destruct (bank w) as [|q rest] eqn:Hb; [by left|].
  right. exists q. destruct save_raises; cbn; by rewrite ?app_nil_r.
Qed.

(** The invariant of one step, with what it took and what it returned. *)
Lemma run_bank_step_keeps w s :
  ∃ since got,
    taken (run_bank_step w s) = taken w ++ since
    ∧ popped (run_bank_step w s) = popped w ++ got
    ∧ since ++ bank (run_bank_step w s) = bank w ++ delivered s
    ∧ got `sublist_of` since
    ∧ (save_raised s = false → got = since)
    ∧ length since ≤ length got + (if save_raised s then 1 else 0).
Proof.
  assert (∀ save_raises w0 extra,
            bank w0 = bank w ++ extra → taken w0 = taken w →
            popped w0 = popped w →
            ∃ since got,
              taken (pop_finish save_raises w0).1 = taken w ++ since
              ∧ popped (pop_finish save_raises w0).1 = popped w ++ got
              ∧ since ++ bank (pop_finish save_raises w0).1 = bank w ++ extra
              ∧ got `sublist_of` since
              ∧ (save_raises = false → got = since)
              ∧ length since ≤ length got + (if save_raises then 1 else 0))
    as Hpop.
  { intros save_raises w0 extra Hb Ht Hp.
    destruct (pop_finish_cases save_raises w0) as [->|(q & Hq & Ht' & Hp')].
    - exists [], []. rewrite Ht, Hp, Hb, !app_nil_r.
      repeat split; [done|lia].
    - exists [q], (if save_raises then [] else [q]).
      rewrite Ht', Hp', Ht, Hp, <- Hb, Hq.
      destruct save_raises; repeat split; try done; try (cbn; lia).
      by apply sublist_nil_l. }
  destruct s as [save_raises|questions save_raises|new|questions];
    cbn [run_bank_step delivered save_raised].
  - unfold _pop_bank_question_enter.
    destruct (decide (bank w = [])) as [He|Hne].
    + rewrite He. exists [], []. rewrite !app_nil_r, He.
      repeat split; [done|]. destruct save_raises; cbn; lia.
    + assert (match bank w with
              | [] => None
              | _ :: _ => Some (pop_finish save_raises w)
              end = Some (pop_finish save_raises w)) as ->.
      { by destruct (bank w). }
      specialize (Hpop save_raises w []).
      rewrite !app_nil_r in *.
      destruct (pop_finish save_raises w) as [w' o]. by apply Hpop.
  - unfold _pop_bank_question_resume.
    destruct (extend_bank questions w) as (Hb & Ht & Hp). by apply Hpop.
  - unfold _refill_bank_resume.
    destruct (extend_bank new w) as (-> & -> & ->).
    exists [], []. rewrite !app_nil_r. repeat split; [done|cbn; lia].
  - unfold _prefill_question_bank_resume.
    destruct (extend_bank questions w) as (-> & -> & ->).
    exists [], []. rewrite !app_nil_r. repeat split; [done|cbn; lia].
Qed.

(** X25. The bank is a queue under every interleaving of the handler
    and the background tasks: the questions taken off it so far,
    followed by the bank, are the questions taken before, the bank as it
    was, and what the language model delivered since, in the order of
    delivery. So questions leave the bank in the order they were stored,
    each once. The questions returned to the caller are among those
    taken, in the same order; they are all of them when [save_state]
    never raised, and at most one is missing for every call in which it
    did: a question is lost only between [bank.pop(0)] and
    [return question], to an exception of [save_state]. *)
Theorem question_bank_is_a_queue :
  ∀ w steps,
    ∃ since got,
      taken (run_bank w steps) = taken w ++ since
      ∧ popped (run_bank w steps) = popped w ++ got
      ∧ since ++ bank (run_bank w steps)
        = bank w ++ flat_map delivered steps
      ∧ got `sublist_of` since
      ∧ (Forall (λ s, save_raised s = false) steps → got = since)
      ∧ length since
        ≤ length got + length (filter (λ s, save_raised s = true) steps).
Proof.
  intros w steps. revert w. unfold run_bank.
  induction steps as [|s steps IH]; intros w.
  - exists [], []. cbn. rewrite !app_nil_r. repeat split; [done|lia].
  - cbn [foldl flat_map].
    destruct (run_bank_step_keeps w s) as (s1 & g1 & Ht1 & Hp1 & Hb1 & Hs1 & He1 & Hl1).
    destruct (IH (run_bank_step w s)) as (s2 & g2 & Ht2 & Hp2 & Hb2 & Hs2 & He2 & Hl2).
    exists (s1 ++ s2), (g1 ++ g2).
    rewrite Ht2, Hp2, Ht1, Hp1, <- !app_assoc.
    split; [done|]. split; [done|]. split.
    { rewrite Hb2, (app_assoc s1), Hb1. by rewrite <- app_assoc. }
    split; [by apply sublist_app|]. split.
    + intros [Hs Hrest]%Forall_cons. by rewrite (He1 Hs), (He2 Hrest).
    + rewrite !length_app. destruct (save_raised s) eqn:Hs.
      * rewrite filter_cons_True; [|done]. cbn [length]. lia.
      * rewrite filter_cons_False; [|by rewrite Hs]. lia.
Qed.

(** A question is lost when [save_state] raises: the bank has given it
    up and the caller does not get it. *)
Example question_lost_when_save_raises (q : qa) :
  pop_finish true {| bank := [q]; taken := []; popped := [] |}
  = ({| bank := []; taken := [q]; popped := [] |}, SaveRaised)
  ∧ pop_finish false {| bank := [q]; taken := []; popped := [] |}
    = ({| bank := []; taken := [q]; popped := [q] |}, Gave q).
Proof. done. Qed.

(** The refill asks for a question only below ten, the prefill only for
    what is missing to ten. *)
Example refill_below_ten :
  _refill_bank_enter {| bank := []; taken := []; popped := [] |} = true
  ∧ _prefill_question_bank_enter {| bank := []; taken := []; popped := [] |}
    = Some 10.
Proof. done. Qed.

End QuestionBankSpec.
